(** * Encoding pipeline: task scheduler and data transformer

    A shallow embedding of
      - [regression_pipeline.py]  (class [Pipeline]: [reset_tasks], [in_memory],
                                   [fit], [compute]),
      - [data_transformation.py]  (class [Transformer]: [scale], the scalers and
                                   the regressors),
      - [utils.py]                ([fetch_offsets], [fetch_duration], [merge_dict],
                                   [filter_args], [clean_nan_rows],
                                   [get_subject_name], [get_nscans] and the
                                   settings of the compression and of the
                                   transformer),
    followed by the properties established about them.

    Python objects live in a heap indexed by locations, so that the in-place
    updates of [Task.terminated] and [Task.output] are seen through every
    reference; exceptions are explicit results. *)

From Stdlib Require Import ZArith Lia Ascii.
From Stdlib Require PrimFloat FloatOps SpecFloat Uint63.
From stdpp Require Import base option list strings pretty gmap relations.

(** ** Python values, exceptions and results *)

Module Python.

(** The payloads handed from task to task. *)
#[local] Unset Elimination Schemes.
Inductive pyval : Type :=
| PyNone
| PyInt (z : Z)
| PyStr (s : string)
| PyList (l : list pyval)
| PyDict (d : list (string * pyval)).
#[local] Set Elimination Schemes.

Inductive exn : Type :=
| Exception (msg : string)
| AttributeError (msg : string)
| UnboundLocalError (msg : string)
| KeyError (msg : string)
| IndexError (msg : string)
| ValueError (msg : string)
| TypeError (msg : string)
| ZeroDivisionError (msg : string).

Inductive result (A : Type) : Type :=
| Return (a : A)
| Raise (e : exn).
Arguments Return {A} a.
Arguments Raise {A} e.

Definition bind {A B} (r : result A) (k : A -> result B) : result B :=
  match r with
  | Return a => k a
  | Raise e => Raise e
  end.

Definition raised {A} (r : result A) : option exn :=
  match r with
  | Return _ => None
  | Raise e => Some e
  end.

(** [l.pop()]: the last element and the list without it. *)
Definition pop {A} (l : list A) : option (A * list A) :=
  match last l with
  | Some x => Some (x, removelast l)
  | None => None
  end.

(** [l[:stop]] and [l[start:]] for a possibly negative bound: a negative
    bound counts from the end, and the bound is clamped to [0, len(l)]. *)
Definition slice_bound {A} (l : list A) (i : Z) : nat :=
  let n := Z.of_nat (length l) in
  let j := if (i <? 0)%Z then (i + n)%Z else i in
  Z.to_nat (Z.min (Z.max j 0) n).

Definition slice_to {A} (l : list A) (stop : Z) : list A :=
  take (slice_bound l stop) l.

Definition slice_from {A} (l : list A) (start : Z) : list A :=
  drop (slice_bound l start) l.

(** [len(l)] as a Python integer. *)
Definition len {A} (l : list A) : Z := Z.of_nat (length l).

End Python.

Export Python.

Notation "x <- r ;; k" := (bind r (fun x => k))
  (at level 100, r at next level, right associativity).

(** ** Logger *)

Module Logger.

Inductive level : Type := ERROR | WARNING | INFO | VALIDATE.

(** Modelled from the spec: the logger object handed to [fit] and [compute]
    ([logger.py] is not among the sources).  It is a reporting utility with
    the methods [error], [warning], [info] and [validate]; each call appends
    one record.  The sources do not show whether [error] returns to its
    caller or raises after reporting, so the logger carries that choice. *)
Record t : Type := mk {
  error_raises : bool;
  records : list (level * string)
}.

Definition emit (lvl : level) (msg : string) (lg : t) : t :=
  {| error_raises := error_raises lg; records := records lg ++ [(lvl, msg)] |}.

Definition info (msg : string) (lg : t) : t := emit INFO msg lg.
Definition warning (msg : string) (lg : t) : t := emit WARNING msg lg.
Definition validate (lg : t) : t := emit VALIDATE "" lg.

(** [logger.error(msg)]: the record is written, then the call either
    returns or raises. *)
Definition error (msg : string) (lg : t) : t * result unit :=
  (emit ERROR msg lg,
   if error_raises lg then Raise (Exception msg) else Return tt).

Definition reported (lvl : level) (msg : string) (lg : t) : Prop :=
  (lvl, msg) ∈ records lg.

End Logger.

(** ** Task *)

Module Task.

Definition loc := nat.

(** Modelled from the spec: the [Task] class ([task.py] is not among the
    sources).  A task has a name, an operation, ordered parent and child
    links, a completion flag and the last computed output. *)
Record t : Type := mk {
  name : string;
  operation : list pyval -> pyval;
  parents : list loc;
  children : list loc;
  terminated : bool;
  output : pyval
}.

Abbreviation heap := (gmap loc t).

(** Modelled from the spec: [Task()], a task without name, links or
    output, not terminated. *)
Definition new : t :=
  {| name := ""; operation := fun _ => PyNone; parents := []; children := [];
     terminated := false; output := PyNone |}.

Definition with_terminated (b : bool) (k : t) : t :=
  {| name := name k; operation := operation k; parents := parents k;
     children := children k; terminated := b; output := output k |}.

Definition with_output (v : pyval) (k : t) : t :=
  {| name := name k; operation := operation k; parents := parents k;
     children := children k; terminated := terminated k; output := v |}.

Definition with_parents (ps : list loc) (k : t) : t :=
  {| name := name k; operation := operation k; parents := ps;
     children := children k; terminated := terminated k; output := output k |}.

Definition with_children (cs : list loc) (k : t) : t :=
  {| name := name k; operation := operation k; parents := parents k;
     children := cs; terminated := terminated k; output := output k |}.

(** Modelled from the spec: the fields of a task, read and written through
    a reference ([is_terminated], [set_terminated], [set_output]). *)
Definition get_name (h : heap) (l : loc) : string :=
  from_option name "" (h !! l).
Definition get_parents (h : heap) (l : loc) : list loc :=
  from_option parents [] (h !! l).
Definition get_children (h : heap) (l : loc) : list loc :=
  from_option children [] (h !! l).
Definition get_output (h : heap) (l : loc) : pyval :=
  from_option output PyNone (h !! l).

Definition is_terminated (h : heap) (l : loc) : bool :=
  from_option terminated false (h !! l).

Definition set_terminated (h : heap) (l : loc) (b : bool) : heap :=
  alter (with_terminated b) l h.

Definition set_output (h : heap) (l : loc) (v : pyval) : heap :=
  alter (with_output v) l h.

(** Modelled from the spec: [is_waiting()] is true iff at least one parent
    is not yet terminated. *)
Definition is_waiting (h : heap) (l : loc) : bool :=
  existsb (fun p => negb (is_terminated h p)) (get_parents h l).

(** Modelled from the spec: [self.add_input_dependencies(other)] makes
    [other] a parent of [self] and [self] a child of [other]; registering
    the same pair again changes nothing. *)
Definition add_input_dependencies (h : heap) (self other : loc) : heap :=
  let h1 :=
    alter (fun k => if bool_decide (other ∈ parents k) then k
                    else with_parents (parents k ++ [other]) k) self h in
  alter (fun k => if bool_decide (self ∈ children k) then k
                  else with_children (children k ++ [self]) k) other h1.

(** Modelled from the spec: [execute()] hands the outputs of the parents,
    in registration order, to the operation and stores its result as the
    output of the task.  The completion flag is left as it is. *)
Definition execute (h : heap) (l : loc) : heap :=
  match h !! l with
  | Some k =>
      let inputs := map (get_output h) (parents k) in
      <[l := with_output (operation k inputs) k]> h
  | None => h
  end.

End Task.

(** ** Pipeline *)

Module Pipeline.

Import Task.

(** The [Pipeline] object: [__init__] sets nothing, so the attribute [tasks]
    exists only once [fit] has assigned it. *)
Record t : Type := mk { tasks : option (list loc) }.

Definition init : t := {| tasks := None |}.

(** The variables of [fit] while its loop runs. *)
Record fit_state : Type := mk_state {
  st_heap : heap;
  st_queue : list loc;
  st_count : Z;
  st_tasks : list loc;
  st_logger : Logger.t
}.

Inductive step : Type :=
| Continue (s : fit_state)
| Done (s : fit_state)
| Abort (s : fit_state) (e : exn).

Definition loop_detected : string :=
  "Loop detected... Please check tasks dependencies.".
Definition fitted_without_error : string :=
  "The pipeline was fitted without error.".

(** One test of [while queue:] and, when the queue is not empty, one run of
    the loop body. *)
Definition fit_body (s : fit_state) : step :=
  let h := st_heap s in
  match pop (st_queue s) with
  | None => Done s
  | Some (task, queue) =>
      if negb (is_terminated h task) && is_waiting h task then
        if (st_count s =? 0)%Z then
          let (lg, r) := Logger.error loop_detected (st_logger s) in
          let s' := mk_state h queue (st_count s) (st_tasks s) lg in
          match r with
          | Return _ => Continue s'
          | Raise e => Abort s' e
          end
        else
          Continue (mk_state h ([task] ++ queue) (st_count s - 1)
                             (st_tasks s) (st_logger s))
      else if negb (is_terminated h task) then
        Continue (mk_state (set_terminated h task true)
                           (get_children h task ++ queue)
                           (st_count s + len (get_children h task))
                           (st_tasks s ++ [task]) (st_logger s))
      else
        Continue (mk_state h queue (st_count s) (st_tasks s) (st_logger s))
  end.

(** The [while] loop, at most [fuel] iterations. *)
Fixpoint fit_loop (fuel : nat) (s : fit_state) : option (fit_state * option exn) :=
  match fuel with
  | O => None
  | S fuel' =>
      match fit_body s with
      | Done s' => Some (s', None)
      | Abort s' e => Some (s', Some e)
      | Continue s' => fit_loop fuel' s'
      end
  end.

(** [reset_tasks]: every task of [self.tasks] is marked not terminated. *)
Definition reset_tasks (ts : list loc) (h : heap) : heap :=
  foldl (fun h' task => set_terminated h' task false) h ts.

(** What a call leaves behind: the heap, the pipeline object, the logger,
    and the value returned or the exception raised. *)
Record outcome (A : Type) : Type := mk_outcome {
  out_heap : heap;
  out_self : t;
  out_logger : Logger.t;
  out_result : result A
}.
Arguments mk_outcome {A}.
Arguments out_heap {A}.
Arguments out_self {A}.
Arguments out_logger {A}.
Arguments out_result {A}.

Definition fit_init (h : heap) (task : loc) (logger : Logger.t) : fit_state :=
  mk_state h [task] 1 [] logger.

Definition fit_end (r : fit_state * option exn) : outcome unit :=
  match r with
  | (s, Some e) =>
      mk_outcome (st_heap s) (mk (Some (st_tasks s))) (st_logger s) (Raise e)
  | (s, None) =>
      mk_outcome (reset_tasks (st_tasks s) (st_heap s)) (mk (Some (st_tasks s)))
                 (Logger.info fitted_without_error (st_logger s)) (Return tt)
  end.

(** [fit(task, logger)] with a bound on the number of loop iterations. *)
Definition fit_fuel (fuel : nat) (h : heap) (task : loc) (logger : Logger.t)
  : option (outcome unit) :=
  fit_end <$> fit_loop fuel (fit_init h task logger).

(** A bound on the number of iterations: every iteration that goes on
    lowers [count + len(queue)] plus, for each task not yet terminated, one
    plus twice the number of its children. *)
Definition task_weight (k : Task.t) : nat :=
  if terminated k then 0 else 2 * length (children k) + 1.

Definition weight (h : heap) : nat :=
  map_fold (fun _ k acc => task_weight k + acc) 0 h.

Definition measure (s : fit_state) : nat :=
  Z.to_nat (st_count s) + length (st_queue s) + weight (st_heap s).

(** [fit(task, logger)]. *)
Definition fit (h : heap) (task : loc) (logger : Logger.t) : option (outcome unit) :=
  fit_fuel (S (measure (fit_init h task logger))) h task logger.

Definition not_fitted : string := "Pipeline not fitted... Nothing to compute.".
Definition executed_without_error : string :=
  "The pipeline was executed without error.".

(** The initial payload of [compute]. *)
Definition inputs (X_train Y_train : pyval) : pyval :=
  PyList [PyDict [("X_train", X_train); ("Y_train", Y_train);
                  ("run_train", PyNone); ("run_test", PyNone)]].

(** The state threaded through the [for] loop of [compute]: the heap, the
    tasks whose [execute] has been called so far, and the logger. *)
Record run_state : Type := mk_run {
  run_heap : heap;
  run_executed : list loc;
  run_logger : Logger.t
}.

Definition executing (index : nat) (task_name : string) : string :=
  pretty index +:+ ". Executing task: " +:+ task_name.

Definition compute_body (r : run_state) (it : nat * loc) : run_state :=
  let (index, task) := it in
  let lg := Logger.info (executing index (get_name (run_heap r) task)) (run_logger r) in
  mk_run (execute (run_heap r) task) (run_executed r ++ [task]) (Logger.validate lg).

(** What [compute] leaves behind, with the sequence of executed tasks. *)
Record computed : Type := mk_computed {
  after : run_state;
  returned : result pyval
}.

(** [compute(X_train, Y_train, output_path, logger)].  The local variable
    [task] is bound by the [for] loop only, and [self.tasks] by [fit] only. *)
Definition compute (h : heap) (self : t) (X_train Y_train : pyval)
    (output_path : string) (logger : Logger.t) : computed :=
  match tasks self with
  | None =>
      mk_computed (mk_run h [] logger)
        (Raise (AttributeError "'Pipeline' object has no attribute 'tasks'"))
  | Some [] =>
      let lg := Logger.warning not_fitted logger in
      let lg := Logger.info executed_without_error lg in
      mk_computed (mk_run h [] lg)
        (Raise (UnboundLocalError "local variable 'task' referenced before assignment"))
  | Some (first :: rest) =>
      let empty_task := fresh (dom h) in
      let h1 := <[empty_task :=
                   with_terminated true (with_output (inputs X_train Y_train) Task.new)]> h in
      let h2 := add_input_dependencies h1 first empty_task in
      let r := foldl compute_body (mk_run h2 [] logger)
                     (imap pair (first :: rest)) in
      let lg := Logger.info executed_without_error (run_logger r) in
      mk_computed (mk_run (run_heap r) (run_executed r) lg)
        (Return (get_output (run_heap r) (List.last rest first)))
  end.

(** *** The task graph *)

(** [c] is a child of [p]; [p] is a parent of [t]. *)
Definition child_link (h : heap) (p c : loc) : Prop := c ∈ get_children h p.
Definition depends (h : heap) (t p : loc) : Prop := p ∈ get_parents h t.

(** Reachable from [root] via child links. *)
Definition reachable (h : heap) (root t : loc) : Prop := rtc (child_link h) root t.

(** No task is among its own ancestors. *)
Definition acyclic (h : heap) : Prop := Irreflexive (tc (depends h)).

(** Every task starts not terminated. *)
Definition all_pending (h : heap) : Prop :=
  map_Forall (fun _ k => terminated k = false) h.

(** The links of every task point to tasks of the heap. *)
Definition closed (h : heap) : Prop :=
  map_Forall (fun _ k => Forall (fun l => l ∈ dom h) (parents k ++ children k)) h.

(** Parent and child links mirror each other, as [add_input_dependencies]
    registers them. *)
Definition linked (h : heap) : Prop :=
  map_Forall (fun l k =>
    Forall (fun p => l ∈ get_children h p) (parents k) ∧
    Forall (fun c => l ∈ get_parents h c) (children k)) h.

#[global] Instance all_pending_dec h : Decision (all_pending h).
Proof. unfold all_pending. apply _. Defined.
#[global] Instance closed_dec h : Decision (closed h).
Proof. unfold closed. apply _. Defined.
#[global] Instance linked_dec h : Decision (linked h).
Proof. unfold linked. apply _. Defined.

(** The heap is the task graph under [root]. *)
Definition rooted (h : heap) (root : loc) : Prop :=
  ∀ l, l ∈ dom h → reachable h root l.

#[global] Instance child_link_dec h p c : Decision (child_link h p c).
Proof. unfold child_link. apply _. Defined.
#[global] Instance depends_dec h t p : Decision (depends h t p).
Proof. unfold depends. apply _. Defined.

(** A dependency cycle: each task of [cyc] depends on the next one, and the
    last one on the first. *)
Definition dependency_cycle (h : heap) (cyc : list loc) : Prop :=
  Forall2 (depends h) cyc (rotate 1 cyc).

#[global] Instance dependency_cycle_dec h cyc : Decision (dependency_cycle h cyc).
Proof. unfold dependency_cycle. apply _. Defined.

(** [p] stands before [t] in the order [ts]. *)
Definition before (ts : list loc) (p t : loc) : Prop :=
  ∃ i j, ts !! i = Some p ∧ ts !! j = Some t ∧ i < j.

(** The tasks popped by the next [n] iterations. *)
Fixpoint popped (n : nat) (s : fit_state) : list loc :=
  match n with
  | O => []
  | S n' =>
      match pop (st_queue s) with
      | None => []
      | Some (task, _) =>
          task :: match fit_body s with
                  | Continue s' => popped n' s'
                  | _ => []
                  end
      end
  end.

(** A task the loop body would append to the order. *)
Definition eligible (h : heap) (task : loc) : bool :=
  negb (is_terminated h task) && negb (is_waiting h task).

(** [l[i]]: a negative index counts from the end; an index outside the list
    raises. *)
Definition item {A} (l : list A) (i : Z) : result A :=
  let j := if (i <? 0)%Z then (i + len l)%Z else i in
  if (j <? 0)%Z then Raise (IndexError "list index out of range")
  else match l !! Z.to_nat j with
       | Some x => Return x
       | None => Raise (IndexError "list index out of range")
       end.

(** [task.name == m.name]. *)
Definition same_name (h : heap) (task m : loc) : bool :=
  String.eqb (get_name h task) (get_name h m).

(** The loop of [in_memory], at most [fuel] iterations. *)
Fixpoint in_memory_loop (fuel : nat) (h : heap) (task : loc) (memory : list loc)
    (found : bool) (index : Z) : option (result bool) :=
  match fuel with
  | O => None
  | S fuel' =>
      if negb found || (0 <=? index)%Z then
        match item memory index with
        | Raise e => Some (Raise e)
        | Return m =>
            in_memory_loop fuel' h task memory (same_name h task m) (index - 1)
        end
      else Some (Return found)
  end.

(** [in_memory(task, memory)]. *)
Definition in_memory (h : heap) (task : loc) (memory : list loc) : option (result bool) :=
  in_memory_loop (2 * length memory + 2) h task memory false (len memory - 1).

End Pipeline.

(** ** The cases of the loop body and the invariants of the loop *)

Module Invariants.

Import Task Pipeline.

(** The five ways through [fit_body]. *)
Inductive body_case (s : fit_state) : step → Prop :=
| case_empty :
    st_queue s = [] → body_case s (Done s)
| case_loop task queue :
    st_queue s = queue ++ [task] →
    is_terminated (st_heap s) task = false →
    is_waiting (st_heap s) task = true →
    st_count s = 0%Z →
    body_case s
      (let s' := mk_state (st_heap s) queue (st_count s) (st_tasks s)
                          (Logger.emit Logger.ERROR loop_detected (st_logger s)) in
       if Logger.error_raises (st_logger s)
       then Abort s' (Exception loop_detected) else Continue s')
| case_requeue task queue :
    st_queue s = queue ++ [task] →
    is_terminated (st_heap s) task = false →
    is_waiting (st_heap s) task = true →
    st_count s ≠ 0%Z →
    body_case s
      (Continue (mk_state (st_heap s) (task :: queue) (st_count s - 1)
                          (st_tasks s) (st_logger s)))
| case_place task queue :
    st_queue s = queue ++ [task] →
    is_terminated (st_heap s) task = false →
    is_waiting (st_heap s) task = false →
    body_case s
      (Continue (mk_state (set_terminated (st_heap s) task true)
                          (get_children (st_heap s) task ++ queue)
                          (st_count s + len (get_children (st_heap s) task))
                          (st_tasks s ++ [task]) (st_logger s)))
| case_drop task queue :
    st_queue s = queue ++ [task] →
    is_terminated (st_heap s) task = true →
    body_case s
      (Continue (mk_state (st_heap s) queue (st_count s) (st_tasks s) (st_logger s))).

(** The links are never changed, and only ordered tasks are terminated. *)
Record run_inv (h0 : heap) (lg0 : Logger.t) (s : fit_state) : Prop := {
  ri_parents : ∀ x, get_parents (st_heap s) x = get_parents h0 x;
  ri_children : ∀ x, get_children (st_heap s) x = get_children h0 x;
  ri_dom : dom (st_heap s) = dom h0;
  ri_terminated : ∀ l, is_terminated (st_heap s) l = true → l ∈ st_tasks s;
  ri_raises : Logger.error_raises (st_logger s) = Logger.error_raises lg0
}.

(** No task of the cycle is ever ordered; and as long as no loop has been
    reported, the root and the children of ordered tasks are ordered or
    queued. *)
Record cycle_inv (h0 : heap) (root : loc) (lg0 : Logger.t) (cyc : list loc)
    (s : fit_state) : Prop := {
  ci_run : run_inv h0 lg0 s;
  ci_cycle : ∀ t, t ∈ cyc → t ∉ st_tasks s;
  ci_frontier :
    Logger.reported Logger.ERROR loop_detected (st_logger s) ∨
    ((root ∈ st_tasks s ∨ root ∈ st_queue s) ∧
     ∀ p c, p ∈ st_tasks s → c ∈ get_children h0 p →
            c ∈ st_tasks s ∨ c ∈ st_queue s)
}.

(** The order holds each task once, after its parents, and only tasks that
    are reachable from the root. *)
Record order_inv (h0 : heap) (root : loc) (lg0 : Logger.t) (s : fit_state) : Prop := {
  oi_run : run_inv h0 lg0 s;
  oi_queue : ∀ l, l ∈ st_queue s → l ∈ dom h0;
  oi_tasks : ∀ l, l ∈ st_tasks s → is_terminated (st_heap s) l = true;
  oi_nodup : NoDup (st_tasks s);
  oi_before : ∀ t p, t ∈ st_tasks s → depends h0 t p → before (st_tasks s) p t;
  oi_reach : ∀ l, l ∈ st_tasks s ∨ l ∈ st_queue s → reachable h0 root l
}.

(** A task whose parents are all ordered is ordered or queued. *)
Record complete_inv (h0 : heap) (root : loc) (lg0 : Logger.t) (s : fit_state) : Prop := {
  mi_order : order_inv h0 root lg0 s;
  mi_root : root ∈ st_tasks s ∨ root ∈ st_queue s;
  mi_ready : ∀ t, t ∉ st_tasks s → get_parents h0 t ≠ [] →
    (∀ p, depends h0 t p → p ∈ st_tasks s) → t ∈ st_queue s
}.

End Invariants.

(** ** Arrays and data frames *)

Module Numpy.

(** The numbers held by arrays.  Floating-point arithmetic is not modelled:
    the operations the code applies to them are the members of this class.
    [same_kind a x] tells whether the in-place addition [a += x] can store
    its sums in the array [a]: numpy refuses it when the sums have another
    kind than the array (an array of integers does not take a float). *)
Class Scalar (V : Type) : Type := {
  one : V;
  add : V → V → V;
  divide : V → V → V;
  isnan : V → bool;
  same_kind : list V → V → bool
}.

(** A loop that stops at the first exception. *)
Fixpoint traverse {A B} (f : A → result B) (l : list A) : result (list B) :=
  match l with
  | [] => Return []
  | x :: l' => y <- f x ;; ys <- traverse f l' ;; Return (y :: ys)
  end.

Section arrays.

Context {V : Type}.

(** A two-dimensional array: its rows, and its number of columns (known
    also when there is no row). *)
Record ndarray : Type := mk_array { ncols : nat; rows : list (list V) }.

Inductive array : Type :=
| Vec (v : list V)
| Mat (m : ndarray).

Definition atleast_2d (a : array) : ndarray :=
  match a with
  | Vec v => mk_array (length v) [v]
  | Mat m => m
  end.

(** [np.vstack]: the arrays, made two-dimensional, one below the other; their
    widths must agree. *)
Definition vstack (arrs : list array) : result ndarray :=
  match map atleast_2d arrs with
  | [] => Raise (ValueError "need at least one array to concatenate")
  | m :: ms =>
      if forallb (fun m' => Nat.eqb (ncols m') (ncols m)) ms
      then Return (mk_array (ncols m) (concat (map rows (m :: ms))))
      else Raise (ValueError "all the input array dimensions except for the concatenation axis must match exactly")
  end.

(** Rows side by side. *)
Definition beside (rs : list (list V)) (ms : list (list (list V))) : list (list V) :=
  foldl (zip_with app) rs ms.

(** [np.hstack]: the arrays side by side; their heights must agree. *)
Definition hstack (ms : list ndarray) : result ndarray :=
  match ms with
  | [] => Raise (ValueError "need at least one array to concatenate")
  | m :: ms' =>
      if forallb (fun m' => Nat.eqb (length (rows m')) (length (rows m))) ms'
      then Return (mk_array (sum_list (map ncols ms)) (beside (rows m) (map rows ms')))
      else Raise (ValueError "all the input array dimensions except for the concatenation axis must match exactly")
  end.

(** A column index, possibly negative, of an array with [n] columns. *)
Definition column_index (n : nat) (j : Z) : option nat :=
  if ((0 <=? j) && (j <? Z.of_nat n))%Z then Some (Z.to_nat j)
  else if ((- Z.of_nat n <=? j) && (j <? 0))%Z then Some (Z.to_nat (j + Z.of_nat n))
  else None.

(** [a[:, index]]. *)
Definition take_columns (a : ndarray) (index : list Z) : result ndarray :=
  match mapM (column_index (ncols a)) index with
  | None => Raise (IndexError "index is out of bounds for axis 1")
  | Some js =>
      match mapM (fun row => mapM (fun j => row !! j) js) (rows a) with
      | Some rs => Return (mk_array (length index) rs)
      | None => Raise (IndexError "index is out of bounds for axis 1")
      end
  end.

Definition ceil_div (a b : Z) : Z := (- ((- a) / b))%Z.

(** [np.arange(0.0, stop, step)] for integers [stop] and [step]: numpy
    divides [stop - 0.0] by [step], which raises for a step of zero, takes
    the ceiling of the quotient as the length, and fills the array with the
    multiples of the step.  On integers (below 2^53) the double-precision
    arithmetic of numpy is exact; [arange_length] below is the length for a
    step that is not an integer. *)
Definition arange (stop step : Z) : result (list Z) :=
  if (step =? 0)%Z then Raise (ZeroDivisionError "float division by zero")
  else Return (map (fun i => Z.of_nat i * step)%Z (seq 0 (Z.to_nat (ceil_div stop step)))).

End arrays.

Arguments ndarray : clear implicits.
Arguments array : clear implicits.

End Numpy.

(** ** Double precision *)

Module Doubles.

(** The ceiling of a double that is a finite number. *)
Definition ceil (x : PrimFloat.float) : option Z :=
  match FloatOps.Prim2SF x with
  | SpecFloat.S754_zero _ => Some 0%Z
  | SpecFloat.S754_finite s m e =>
      Some (if (0 <=? e)%Z
            then (if s then - (Z.pos m * 2 ^ e) else Z.pos m * 2 ^ e)%Z
            else if s then (- (Z.pos m / 2 ^ (- e)))%Z
            else (- ((- Z.pos m) / 2 ^ (- e)))%Z)
  | _ => None
  end.

(** A Python integer (below 2^63 in size) as a double. *)
Definition of_int (n : Z) : PrimFloat.float :=
  if (n <? 0)%Z then PrimFloat.opp (PrimFloat.of_uint63 (Uint63.of_Z (- n)))
  else PrimFloat.of_uint63 (Uint63.of_Z n).

(** The length of [np.arange(0.0, n * tr, tr)] for an integer [n] and a
    double [tr], as numpy computes it: the ceiling of [(n * tr - 0.0) / tr]
    in double precision, and no entry when it is negative; [None] when the
    quotient is not a finite number (numpy raises). *)
Definition arange_length (n : Z) (tr : PrimFloat.float) : option nat :=
  Z.to_nat <$>
  ceil (PrimFloat.div (PrimFloat.sub (PrimFloat.mul (of_int n) tr) PrimFloat.zero) tr).

(** The double nearest to 1.49. *)
Definition tr_149 : PrimFloat.float := PrimFloat.div (of_int 149) (of_int 100).

End Doubles.

Module Pandas.

Import Numpy.

Section frames.

Context {V : Type} {num : Scalar V}.

(** A data frame: column labels and rows.  The labels of a default index
    are the decimal numerals. *)
Record frame : Type := mk_frame { labels : list string; body : list (list V) }.

(** [pd.DataFrame(a)]. *)
Definition DataFrame (a : ndarray V) : frame :=
  mk_frame (map pretty (seq 0 (ncols a))) (rows a).

(** [df.dropna(axis=0)]: the rows without a missing value. *)
Definition dropna (df : frame) : frame :=
  mk_frame (labels df) (List.filter (forallb (fun x => negb (isnan x))) (body df)).

(** The column at position [pos]. *)
Definition column (df : frame) (pos : nat) : result (list V) :=
  match mapM (fun row => row !! pos) (body df) with
  | Some v => Return v
  | None => Raise (IndexError "column position out of range")
  end.

(** [df[label].values]. *)
Definition getitem (df : frame) (label : string) : result (list V) :=
  match list_find (fun l => l = label) (labels df) with
  | Some (pos, _) => column df pos
  | None => Raise (KeyError label)
  end.

(** [df.values]. *)
Definition values (df : frame) : ndarray V :=
  mk_array (length (labels df)) (body df).

(** [pd.concat(frames, axis=1)] for frames with the same default row index. *)
Definition concat_columns (frames : list frame) : result frame :=
  match frames with
  | [] => Raise (ValueError "No objects to concatenate")
  | f :: fs =>
      Return (mk_frame (concat (map labels frames)) (beside (body f) (map body fs)))
  end.

End frames.

Arguments frame : clear implicits.

End Pandas.

(** ** utils.py *)

Module Utils.

Import Numpy Pandas.

(** The csv files on disk: [None] where [os.path.exists] is false. *)
Class Files (V : Type) : Type := { read_csv : string → option (frame V) }.

Fixpoint last_char (s : string) : option ascii :=
  match s with
  | EmptyString => None
  | String c EmptyString => Some c
  | String _ s' => last_char s'
  end.

(** [os.path.join(a, *p)]. *)
Definition join2 (path b : string) : string :=
  if String.prefix "/" b then b
  else match last_char path with
       | None => path +:+ b
       | Some c => if Ascii.eqb c "/"%char then path +:+ b else path +:+ "/" +:+ b
       end.

Definition os_path_join (a : string) (p : list string) : string :=
  foldl join2 a p.

(** [run_index[-1]]. *)
Definition last_index (run_index : string) : result string :=
  match last_char run_index with
  | Some c => Return (String c EmptyString)
  | None => Raise (IndexError "string index out of range")
  end.

Definition offsets_file (offset_type index offset_path language : string) : string :=
  os_path_join offset_path [language; offset_type +:+ "_run" +:+ index +:+ ".csv"].

Definition durations_file (duration_type index duration_path : string) : string :=
  os_path_join duration_path ["durations"; duration_type +:+ "_run" +:+ index +:+ ".csv"].

Definition missing_offsets (path : string) : string :=
  "Please specify an offset file at: " +:+ path.

Section fetch.

Context {V : Type} {num : Scalar V} {disk : Files V}.

Definition fetch_offsets (offset_type run_index offset_path language : string)
  : result (list V) :=
  index <- last_index run_index ;;
  let path := offsets_file offset_type index offset_path language in
  match read_csv path with
  | None => Raise (Exception (missing_offsets path))
  | Some df => getitem df "offsets"
  end.

Definition fetch_duration (duration_type run_index duration_path : string)
    (default_size : nat) : result (array V) :=
  index <- last_index run_index ;;
  let path := durations_file duration_type index duration_path in
  match read_csv path with
  | None => Return (Vec (replicate default_size one))
  | Some df => Return (Mat (values df))
  end.

End fetch.

End Utils.

(** ** data_transformation.py *)

Module Transformer.

Import Numpy Pandas Utils.

(** The library routines the transformer calls: the scaler of scikit-learn
    (fitted on a matrix and applied to it), the mean of the vector norms of
    a matrix, and the HRF regressor.

    Modelled from the spec: the HRF kernel service, given a condition array,
    a kernel name, a frame-time grid and an oversampling factor, returns the
    convolved signal sampled at the frame times, one row per frame time, and
    the names of its columns.  [hrf_raises] is the exception with which the
    library refuses its arguments, if it does (it needs at least two frame
    times). *)
Class Services (V : Type) : Type := {
  standard_scaler : bool → bool → ndarray V → result (ndarray V);
  mean_norm : pyval → Z → ndarray V → result V;
  hrf_sample : string → Z → ndarray V → list Z → Z → list V;
  hrf_names : string → list string;
  hrf_raises : string → Z → ndarray V → list Z → option exn
}.

Section transformer.

Context {V : Type} {num : Scalar V} {disk : Files V} {lib : Services V}.

(** The settings of [__init__]; [tr] is an integer, as its docstring says. *)
Record t : Type := mk {
  tr : Z;
  nscans : gmap string Z;
  indexes : list (list Z);
  scaling_types : list string;
  centering : list bool;
  scaling_axis : Z;
  order : list pyval;
  offset_type_dict : gmap string (list string);
  duration_type_dict : gmap string (list string);
  offset_path : string;
  duration_path : string;
  language : string;
  temporal_shifting : V;
  hrf : string;
  oversampling : Z;
  with_mean : bool;
  with_std : bool
}.

(** The dictionary returned by the scalers. *)
Record split : Type := mk_split {
  X_train : list (ndarray V);
  X_test : list (ndarray V)
}.

(** [{'X_train': matrices[:-len(X_test)], 'X_test': matrices[-len(X_test):]}]. *)
Definition split_back (matrices test : list (ndarray V)) : split :=
  mk_split (slice_to matrices (- len test)) (slice_from matrices (- len test)).

Definition standardize (self : t) (train test : list (ndarray V)) : result split :=
  matrices <- traverse (standard_scaler (with_mean self) (with_std self))
                       (train ++ test) ;;
  Return (split_back matrices test).

Definition identity (self : t) (train test : list (ndarray V)) (centering : bool)
  : result split :=
  matrices <- (if centering
               then traverse (standard_scaler centering false) (train ++ test)
               else Return (train ++ test)) ;;
  Return (split_back matrices test).

Definition scalar_divide (m : ndarray V) (c : V) : ndarray V :=
  mk_array (ncols m) (map (map (fun x => divide x c)) (rows m)).

Definition normalize_one (order : pyval) (centering : bool) (scaling_axis : Z)
    (m : ndarray V) : result (ndarray V) :=
  m1 <- standard_scaler centering false m ;;
  c <- mean_norm order scaling_axis m1 ;;
  Return (scalar_divide m1 c).

Definition normalize (self : t) (train test : list (ndarray V)) (order : pyval)
    (centering : bool) (scaling_axis : Z) : result split :=
  matrices <- traverse (normalize_one order centering scaling_axis) (train ++ test) ;;
  Return (split_back matrices test).

(** The regressors of one column of the data frame: the condition array, the
    frame times, the call of the kernel, which may refuse its arguments, and
    the data frame of its signal, which pandas refuses when a row of the
    signal has not one entry per column name. *)
Definition column_regressor (self : t) (dataframe : frame V) (run_index : string)
    (offsets : list V) (duration : array V) (it : nat * string) : result (frame V) :=
  let (pos, col) := it in
  amplitudes <- column dataframe pos ;;
  conditions <- vstack [Vec offsets; duration; Vec amplitudes] ;;
  n <- match nscans self !! run_index with
       | Some n => Return n
       | None => Raise (KeyError run_index)
       end ;;
  frame_times <- arange (n * tr self) (tr self) ;;
  _ <- match hrf_raises (hrf self) (oversampling self) conditions frame_times with
       | Some e => Raise e
       | None => Return tt
       end ;;
  let signal :=
    map (hrf_sample (hrf self) (oversampling self) conditions frame_times) frame_times in
  let columns :=
    col :: map (fun item => col +:+ "_" +:+ item) (tail (hrf_names (hrf self))) in
  if forallb (fun row => Nat.eqb (length row) (length columns)) signal
  then Return (mk_frame columns signal)
  else Raise (ValueError "Shape of passed values does not match the columns").

(** [compute_regressor] once offsets and durations are at hand: the in-place
    shift of the offsets, which numpy refuses when the sums are of another
    kind than the offsets, and the regressors of the columns side by side. *)
Definition regressors_of (self : t) (dataframe : frame V) (run_index : string)
    (offsets : list V) (duration : array V) : result (ndarray V) :=
  offsets <- (if same_kind offsets (temporal_shifting self)
              then Return (map (fun o => add o (temporal_shifting self)) offsets)
              else Raise (TypeError "Cannot cast ufunc 'add' output to the type of the array")) ;;
  regressors <- traverse (column_regressor self dataframe run_index offsets duration)
                         (imap pair (labels dataframe)) ;;
  matrix <- concat_columns regressors ;;
  Return (values matrix).

Definition compute_regressor (self : t) (dataframe : frame V)
    (offset_type duration_type run_index : string) : result (ndarray V) :=
  let dataframe := dropna dataframe in
  offsets <- fetch_offsets offset_type run_index (offset_path self) (language self) ;;
  duration <- fetch_duration duration_type run_index (duration_path self)
                             (length (body dataframe)) ;;
  regressors_of self dataframe run_index offsets duration.

(** The dictionary returned by [make_regressor]. *)
Record regressed : Type := mk_regressed {
  R_train : list (ndarray V);
  R_test : list (ndarray V);
  run_train : list Z;
  run_test : list Z
}.

Definition lookup_key (d : gmap string (list string)) (key : string) (i : nat)
  : result string :=
  match d !! key with
  | None => Raise (KeyError key)
  | Some l => match l !! i with
              | Some x => Return x
              | None => Raise (IndexError "list index out of range")
              end
  end.

(** One element of the comprehension of [make_regressor]. *)
Definition model_regressor (self : t) (runs : list Z) (array_index : nat)
    (a : ndarray V) (it : nat * list Z) : result (ndarray V) :=
  let (i, index) := it in
  sub <- take_columns a index ;;
  run <- match runs !! array_index with
         | Some r => Return r
         | None => Raise (IndexError "list index out of range")
         end ;;
  let run_index := "run" +:+ pretty (run + 1)%Z in
  offset_type <- lookup_key (offset_type_dict self) run_index i ;;
  duration_type <- lookup_key (duration_type_dict self) run_index i ;;
  compute_regressor self (DataFrame sub) offset_type duration_type run_index.

(** [matrices[x : x + step] for x in range(0, len(matrices), step)]. *)
Fixpoint chunks {A} (n step : nat) (l : list A) : list (list A) :=
  match n with
  | O => []
  | S n' =>
      match l with
      | [] => []
      | _ => take step l :: chunks n' step (drop step l)
      end
  end.

Definition make_regressor (self : t) (train test : list (ndarray V))
    (run_train run_test : list Z) : result regressed :=
  let matrices_ := train ++ test in
  let runs := run_train ++ run_test in
  per_array <- traverse (fun '(array_index, a) =>
                  traverse (model_regressor self runs array_index a)
                           (imap pair (indexes self)))
               (imap pair matrices_) ;;
  let matrices := concat per_array in
  let step := length (indexes self) in
  if Nat.eqb step 0 then Raise (ValueError "range() arg 3 must not be zero")
  else
    matrices <- traverse hstack (chunks (length matrices) step matrices) ;;
    Return (mk_regressed (slice_to matrices (- len test))
                         (slice_from matrices (- len test)) run_train run_test).

(** The flattened list [matrices], cut back into a train and a test list. *)
Definition sliced (train test matrices out_train out_test : list (ndarray V)) : Prop :=
  length matrices = length train + length test ∧
  out_train = slice_to matrices (- len test) ∧
  out_test = slice_from matrices (- len test) ∧
  (test ≠ [] → length out_train = length train ∧ length out_test = length test) ∧
  (test = [] → out_train = [] ∧ out_test = matrices).

(** The frame times [0, tr, 2 * tr, ...], [n] of them. *)
Definition frame_times_of (n tr : Z) : list Z :=
  map (fun i => Z.of_nat i * tr)%Z (seq 0 (Z.to_nat n)).

(** The regressors of one input matrix of [make_regressor]: those of its
    models, side by side. *)
Definition array_regressor (self : t) (runs : list Z) (it : nat * ndarray V)
  : result (ndarray V) :=
  let (array_index, a) := it in
  regressors <- traverse (model_regressor self runs array_index a)
                         (imap pair (indexes self)) ;;
  hstack regressors.

End transformer.

Arguments t : clear implicits.
Arguments split : clear implicits.
Arguments regressed : clear implicits.

End Transformer.

(** ** utils.py: dictionaries, names and settings *)

(** One entry of [parameters['models']].  [columns_to_retrieve] holds the
    list that [eval] gives for the string of the settings file, and
    [ncomponents] is an integer. *)
Module Model.

Record t : Type := mk {
  data_compression : option string;
  ncomponents : Z;
  columns_to_retrieve : list Z;
  offset_type : string;
  duration_type : string;
  scaling_type : option string;
  centering : bool;
  order : pyval
}.

End Model.

(** The keys of [parameters] that the functions below read. *)
Module Parameters.

Record t (V : Type) : Type := mk {
  nb_runs : Z;
  models : list Model.t;
  tr : Z;
  language : string;
  offset_path : string;
  duration_path : string;
  hrf : string;
  scaling_axis : Z;
  temporal_shifting : V;
  manifold_args : pyval;
  manifold_method : pyval
}.

Arguments mk {V}.
Arguments nb_runs {V}.
Arguments models {V}.
Arguments tr {V}.
Arguments language {V}.
Arguments offset_path {V}.
Arguments duration_path {V}.
Arguments hrf {V}.
Arguments scaling_axis {V}.
Arguments temporal_shifting {V}.
Arguments manifold_args {V}.
Arguments manifold_method {V}.

End Parameters.

(** The dictionary returned by [get_compression_information]. *)
Module Compression.

Record t : Type := mk {
  indexes : list (list Z);
  compression_types : list string;
  n_components_list : list Z;
  manifold_args : pyval;
  manifold_method : pyval
}.

End Compression.

(** The dictionary returned by [get_data_transformation_information]. *)
Module Information.

Record t (V : Type) : Type := mk {
  indexes : list (list Z);
  offset_type_dict : gmap string (list string);
  duration_type_dict : gmap string (list string);
  tr : Z;
  nscans : gmap string Z;
  offset_path : string;
  duration_path : string;
  language : string;
  hrf : string;
  scaling_types : list string;
  centering : list bool;
  scaling_axis : Z;
  order : list pyval;
  temporal_shifting : V
}.

Arguments mk {V}.
Arguments indexes {V}.
Arguments offset_type_dict {V}.
Arguments duration_type_dict {V}.
Arguments tr {V}.
Arguments nscans {V}.
Arguments offset_path {V}.
Arguments duration_path {V}.
Arguments language {V}.
Arguments hrf {V}.
Arguments scaling_types {V}.
Arguments centering {V}.
Arguments scaling_axis {V}.
Arguments order {V}.
Arguments temporal_shifting {V}.

End Information.

Module Helpers.

Import Numpy.

(** A loop over [l] that threads a state and stops at the first exception. *)
Fixpoint foldM {A S} (f : S → A → result S) (s : S) (l : list A) : result S :=
  match l with
  | [] => Return s
  | x :: l' => s' <- f s x ;; foldM f s' l'
  end.

(** [merge_dict]: the comprehension writes the items of every dictionary in
    turn.  (The order of the keys of a dictionary is not modelled.) *)
Definition merge_dict {V} (list_of_dict : list (gmap string V)) : gmap string V :=
  foldl (fun result '(key, value) => <[key := value]> result) ∅
        (list_of_dict ≫= map_to_list).

(** [filter_args], given the argument names [keys] of [func]. *)
Definition filter_args {V} (keys : list string) (d : gmap string V) : gmap string V :=
  foldl (fun args key =>
           if negb (String.eqb key "self")
           then match d !! key with
                | Some value => <[key := value]> args
                | None => args
                end
           else args) ∅ keys.

(** [clean_nan_rows], for a two-dimensional array. *)
Definition clean_nan_rows {V} {num : Scalar V} (a : ndarray V) : result (ndarray V) :=
  let filtered := map (List.filter (fun x => negb (isnan x))) (rows a) in
  vstack (map Vec (List.filter (fun row => Nat.ltb 0 (length row)) filtered)).

(** The argument of [get_subject_name]: a string or an integer. *)
Inductive subject_id : Type :=
| Name (s : string)
| Number (n : Z).

Definition get_subject_name (id : subject_id) : string :=
  match id with
  | Name s => "sub-" +:+ s
  | Number n =>
      if (n <? 10)%Z then "sub-00" +:+ pretty n
      else if (n <? 100)%Z then "sub-0" +:+ pretty n
      else "sub-" +:+ pretty n
  end.

Definition english_nscans : list (string * Z) :=
  [("run1", 282); ("run2", 298); ("run3", 340); ("run4", 303); ("run5", 265);
   ("run6", 343); ("run7", 325); ("run8", 292); ("run9", 368)]%Z.

Definition french_nscans : list (string * Z) :=
  [("run1", 309); ("run2", 326); ("run3", 354); ("run4", 315); ("run5", 293);
   ("run6", 378); ("run7", 332); ("run8", 294); ("run9", 336)]%Z.

Definition get_nscans (language : string) : result (gmap string Z) :=
  if String.eqb language "english" then Return (list_to_map english_nscans)
  else if String.eqb language "french" then Return (list_to_map french_nscans)
  else Raise (KeyError language).

(** The truth value of a string or [None]. *)
Definition truthy (s : option string) : bool :=
  match s with
  | Some (String _ _) => true
  | _ => false
  end.

(** [s if s else 'identity']. *)
Definition or_identity (s : option string) : string :=
  match s with
  | Some (String c s') => String c s'
  | _ => "identity"
  end.

(** [np.arange(start, stop)] on integers. *)
Definition arange_from (start stop : Z) : list Z := seqZ start (stop - start).

Definition get_compression_information {V} (parameters : Parameters.t V)
  : Compression.t :=
  let '(_, indexes, compression_types, n_components_list) :=
    foldl (fun '(i, indexes, compression_types, n_components_list) model =>
             ((i + len (Model.columns_to_retrieve model))%Z,
              indexes ++ [arange_from i (len (Model.columns_to_retrieve model) + i)],
              compression_types ++ [or_identity (Model.data_compression model)],
              n_components_list ++ [Model.ncomponents model]))
          (0%Z, [], [], []) (Parameters.models parameters) in
  Compression.mk indexes compression_types n_components_list
                 (Parameters.manifold_args parameters)
                 (Parameters.manifold_method parameters).

(** ['run{}'.format(i)]. *)
Definition run_key (i : Z) : string := "run" +:+ pretty i.

(** [{'run{}'.format(i): [] for i in range(1, nb_runs + 1)}]. *)
Definition runs_dict (nb_runs : Z) : gmap string (list string) :=
  foldl (fun d i => <[run_key i := []]> d) ∅ (seqZ 1 nb_runs).

(** [d[key].append(item)]. *)
Definition append_at (d : gmap string (list string)) (key item : string)
  : result (gmap string (list string)) :=
  match d !! key with
  | Some l => Return (<[key := l ++ [item]]> d)
  | None => Raise (KeyError key)
  end.

(** The state of the loop of [get_data_transformation_information]:
    [i_], [new_indexes], [offset_type_dict] and [duration_type_dict]. *)
Definition gathered : Type :=
  Z * list (list Z) * gmap string (list string) * gmap string (list string).

Definition gather (nb_runs : Z) (st : gathered) (model : Model.t) : result gathered :=
  let '(i_, new_indexes, offset_type_dict, duration_type_dict) := st in
  let '(new_indexes, i_) :=
    if truthy (Model.data_compression model)
    then (new_indexes ++ [arange_from i_ (i_ + Model.ncomponents model)],
          (i_ + Model.ncomponents model)%Z)
    else (new_indexes
            ++ [arange_from i_ (len (Model.columns_to_retrieve model) + i_)],
          (i_ + len (Model.columns_to_retrieve model))%Z) in
  dicts <- foldM (fun '(offsets, durations) run_index =>
                    offsets <- append_at offsets (run_key run_index)
                                         (Model.offset_type model) ;;
                    durations <- append_at durations (run_key run_index)
                                           (Model.duration_type model) ;;
                    Return (offsets, durations))
                 (offset_type_dict, duration_type_dict) (seqZ 1 nb_runs) ;;
  Return (i_, new_indexes, dicts.1, dicts.2).

Definition get_data_transformation_information {V} (parameters : Parameters.t V)
  : result (Information.t V) :=
  let nb_runs := Parameters.nb_runs parameters in
  let models := Parameters.models parameters in
  st <- foldM (gather nb_runs) (0%Z, [], runs_dict nb_runs, runs_dict nb_runs) models ;;
  let '(_, new_indexes, offset_type_dict, duration_type_dict) := st in
  nscans <- get_nscans (Parameters.language parameters) ;;
  Return (Information.mk new_indexes offset_type_dict duration_type_dict
            (Parameters.tr parameters) nscans
            (Parameters.offset_path parameters) (Parameters.duration_path parameters)
            (Parameters.language parameters) (Parameters.hrf parameters)
            (map (fun model => or_identity (Model.scaling_type model)) models)
            (map Model.centering models)
            (Parameters.scaling_axis parameters)
            (map Model.order models)
            (Parameters.temporal_shifting parameters)).

(** The number of columns that a model takes in the transformed data. *)
Definition width (model : Model.t) : Z :=
  if truthy (Model.data_compression model) then Model.ncomponents model
  else len (Model.columns_to_retrieve model).

(** Consecutive ranges of the given widths, from [start] on. *)
Fixpoint ranges (start : Z) (widths : list Z) : list (list Z) :=
  match widths with
  | [] => []
  | w :: ws => seqZ start w :: ranges (start + w) ws
  end.

Definition total (widths : list Z) : Z := foldr Z.add 0%Z widths.

(** The dictionary that holds [items] at every key of [keys], and no other
    key. *)
Definition holds_at (keys items : list string) (d : gmap string (list string)) : Prop :=
  ∀ key, d !! key = if decide (key ∈ keys) then Some items else None.

(** Two models, the second one compressed to two components, and settings
    with two runs. *)
Definition glove : Model.t :=
  Model.mk None 0 [0; 1; 2]%Z "word" "word" None false PyNone.
Definition bert : Model.t :=
  Model.mk (Some "pca") 2 [0; 1; 2; 3; 4]%Z "word+punctuation" "word" (Some "standardize")
           true (PyStr "std").
Definition settings : Parameters.t (option Z) :=
  Parameters.mk 2 [glove; bert] 2 "english" "offsets" "durations" "spm" 0 (Some 0%Z)
                PyNone PyNone.

End Helpers.

(** ** data_transformation.py: [scale] *)

Module Scaling.

Import Numpy Pandas Utils Transformer.

(** The value that pandas puts where a frame has no row. *)
Class Missing (V : Type) : Type := { nan : V }.

(** The scaling methods of the transformer.  [scaling_types] may name any
    attribute of the object; only these three are modelled. *)
Inductive method : Type := Standardize | Identity | Normalize.

(** [getattr(self, name)] for the names of the scaling methods. *)
Definition getattr (name : string) : option method :=
  if String.eqb name "standardize" then Some Standardize
  else if String.eqb name "identity" then Some Identity
  else if String.eqb name "normalize" then Some Normalize
  else None.

Section scaling.

Context {V : Type} {num : Scalar V} {miss : Missing V} {lib : Services V}.

(** The call of [func] on the dictionary filtered by [filter_args]: of its
    five entries, [func] gets those that its signature names. *)
Definition call (func : method) (self : Transformer.t V)
    (X_train_ X_test_ : list (ndarray V)) (centering : bool) (order : pyval)
    (scaling_axis : Z) : result (split V) :=
  match func with
  | Standardize => standardize self X_train_ X_test_
  | Identity => identity self X_train_ X_test_ centering
  | Normalize => normalize self X_train_ X_test_ order centering scaling_axis
  end.

(** [l[index]] for an index that is not negative. *)
Definition at_index {A} (l : list A) (index : nat) : result A :=
  match l !! index with
  | Some x => Return x
  | None => Raise (IndexError "list index out of range")
  end.

(** The dictionary that one round of the loop of [scale] appends to the
    bucket; [None] when the scaling type is not one of the three methods. *)
Definition scaled (self : Transformer.t V) (train test : list (ndarray V))
    (index : nat) (indexes : list Z) : option (result (split V)) :=
  match scaling_types self !! index with
  | None => Some (Raise (IndexError "list index out of range"))
  | Some name =>
      match getattr name with
      | None => None
      | Some func =>
          Some (X_train_ <- traverse (fun X => take_columns X indexes) train ;;
                X_test_ <- traverse (fun X => take_columns X indexes) test ;;
                centering <- at_index (centering self) index ;;
                order <- at_index (order self) index ;;
                call func self X_train_ X_test_ centering order (scaling_axis self))
      end
  end.

(** The loop of [scale]: the bucket it leaves, and whether it raised. *)
Fixpoint scale_loop (self : Transformer.t V) (train test : list (ndarray V))
    (bucket : list (split V)) (its : list (nat * list Z))
  : option (list (split V) * result unit) :=
  match its with
  | [] => Some (bucket, Return tt)
  | (index, indexes) :: its' =>
      match scaled self train test index indexes with
      | None => None
      | Some (Raise e) => Some (bucket, Raise e)
      | Some (Return data) => scale_loop self train test (bucket ++ [data]) its'
      end
  end.

(** The row [i] of a frame in a concatenation along the columns. *)
Definition frame_row (f : frame V) (i : nat) : list V :=
  match body f !! i with
  | Some row => row
  | None => replicate (length (labels f)) nan
  end.

(** [pd.concat(frames, axis=1)] for frames with a default row index: the
    rows are aligned on the index, and a frame gives NaN where it has no
    row. *)
Definition concat_aligned (frames : list (frame V)) : result (frame V) :=
  match frames with
  | [] => Raise (ValueError "No objects to concatenate")
  | _ =>
      let n := max_list (map (fun f => length (body f)) frames) in
      Return (mk_frame (concat (map labels frames))
                       (map (fun i => concat (map (fun f => frame_row f i) frames))
                            (seq 0 n)))
  end.

(** [pd.concat([pd.DataFrame(data[key][run_index]) for data in bucket],
    axis=1).values]. *)
Definition gather_run (bucket : list (split V)) (key : split V → list (ndarray V))
    (run_index : nat) : result (ndarray V) :=
  frames <- traverse (fun data => m <- at_index (key data) run_index ;;
                                  Return (DataFrame m)) bucket ;;
  df <- concat_aligned frames ;;
  Return (values df).

Definition clean_bucket (bucket : list (split V)) : list (split V) := [].

(** [scale], from the bucket [bucket]: the bucket it leaves and its result. *)
Definition scale (self : Transformer.t V) (bucket : list (split V))
    (train test : list (ndarray V)) : option (list (split V) * result (split V)) :=
  match scale_loop self train test bucket (imap pair (indexes self)) with
  | None => None
  | Some (bucket, Raise e) => Some (bucket, Raise e)
  | Some (bucket, Return _) =>
      match bucket with
      | [] => Some (bucket, Raise (IndexError "list index out of range"))
      | first :: _ =>
          match (X_train <- traverse (gather_run bucket X_train)
                                     (seq 0 (length (X_train first))) ;;
                 X_test <- traverse (gather_run bucket X_test)
                                    (seq 0 (length (X_test first))) ;;
                 Return (mk_split X_train X_test)) with
          | Raise e => Some (bucket, Raise e)
          | Return result => Some (clean_bucket bucket, Return result)
          end
      end
  end.

(** An entry of the bucket made from [train] and [test]: it holds one
    matrix per input matrix, cut after the train matrices. *)
Definition entry_of (train test : list (ndarray V)) (data : split V) : Prop :=
  ∃ matrices, sliced train test matrices (X_train data) (X_test data).

End scaling.

End Scaling.

(** ** Concrete data for the transformer *)

Module Data.

Import Numpy Pandas Utils Transformer.

(** Numbers with a missing value. *)
Definition lift2 (f : Z → Z → Z) (x y : option Z) : option Z :=
  match x, y with
  | Some a, Some b => Some (f a b)
  | _, _ => None
  end.

Definition numbers : Scalar (option Z) :=
  {| one := Some 1%Z; add := lift2 Z.add; divide := lift2 Z.div;
     isnan := fun x => bool_decide (x = None);
     same_kind := fun _ _ => true |}.

Definition offsets_csv : frame (option Z) :=
  mk_frame ["offsets"] [[Some 0%Z]; [Some 2%Z]; [Some 4%Z]].

(** A disk with the offsets of run 1 and no durations. *)
Definition disk : Files (option Z) :=
  {| read_csv := fun path =>
       if String.eqb path "offsets/en/word_run1.csv" then Some offsets_csv else None |}.

(** A disk without any file. *)
Definition empty_disk : Files (option Z) := {| read_csv := fun _ => None |}.

(** A scaler that removes the first row from every row when centering, a
    constant norm, and a kernel that returns the frame time and refuses
    fewer than two frame times. *)
Definition center (m : ndarray (option Z)) : ndarray (option Z) :=
  match rows m with
  | [] => m
  | r :: _ => mk_array (ncols m) (map (fun row => zip_with (lift2 Z.sub) row r) (rows m))
  end.

Definition library : Services (option Z) :=
  {| standard_scaler := fun with_mean _ m => Return (if with_mean then center m else m);
     mean_norm := fun _ _ _ => Return (Some 2%Z);
     hrf_sample := fun _ _ _ _ time => [Some time];
     hrf_names := fun _ => ["cond"];
     hrf_raises := fun _ _ _ frame_times =>
       if Nat.ltb (length frame_times) 2
       then Some (ValueError "at least two frame times are needed")
       else None |}.

Definition transformer : Transformer.t (option Z) :=
  {| tr := 2; nscans := {["run1" := 100%Z]}; indexes := [[0%Z]];
     scaling_types := ["identity"]; centering := [false]; scaling_axis := 1;
     order := [PyNone];
     offset_type_dict := {["run1" := ["word"]]};
     duration_type_dict := {["run1" := ["word"]]};
     offset_path := "offsets"; duration_path := "data"; language := "en";
     temporal_shifting := Some 0%Z; hrf := "spm"; oversampling := 10;
     with_mean := true; with_std := true |}.

(** Three events with one feature, and one event whose feature is missing. *)
Definition events : frame (option Z) :=
  mk_frame ["0"] [[Some 1%Z]; [Some 5%Z]; [Some 7%Z]].

Definition m1 : ndarray (option Z) := mk_array 1 [[Some 1%Z]; [Some 5%Z]; [Some 7%Z]].
Definition m2 : ndarray (option Z) := mk_array 1 [[Some 2%Z]; [Some 4%Z]; [Some 6%Z]].
Definition m3 : ndarray (option Z) := mk_array 1 [[Some 3%Z]; [Some 3%Z]; [Some 9%Z]].

End Data.

(** ** Concrete data for [scale] *)

Module Scales.

Import Numpy Transformer Scaling.

Definition missing : Missing (option Z) := {| nan := None |}.

Definition wide : ndarray (option Z) :=
  mk_array 2 [[Some 1%Z; Some 2%Z]; [Some 3%Z; Some 4%Z]].
Definition wide' : ndarray (option Z) :=
  mk_array 2 [[Some 5%Z; Some 6%Z]].

(** Two models without scaling: the second column, then the first one. *)
Definition swapping : Transformer.t (option Z) :=
  {| tr := 2; nscans := ∅; indexes := [[1%Z]; [0%Z]];
     scaling_types := ["identity"; "identity"]; centering := [false; false];
     scaling_axis := 1; order := [PyNone; PyNone];
     offset_type_dict := ∅; duration_type_dict := ∅;
     offset_path := "offsets"; duration_path := "data"; language := "en";
     temporal_shifting := Some 0%Z; hrf := "spm"; oversampling := 10;
     with_mean := true; with_std := true |}.

(** Two models, the second one on a column that the matrices do not have. *)
Definition broken : Transformer.t (option Z) :=
  {| tr := 2; nscans := ∅; indexes := [[0%Z]; [5%Z]];
     scaling_types := ["identity"; "identity"]; centering := [false; false];
     scaling_axis := 1; order := [PyNone; PyNone];
     offset_type_dict := ∅; duration_type_dict := ∅;
     offset_path := "offsets"; duration_path := "data"; language := "en";
     temporal_shifting := Some 0%Z; hrf := "spm"; oversampling := 10;
     with_mean := true; with_std := true |}.

End Scales.

(** ** Checks on concrete graphs, and some graphs *)

Module Graphs.

Import Task Pipeline.

(** The first [n] iterations of the loop, when it goes on that long. *)
Fixpoint fit_steps (n : nat) (s : fit_state) : option fit_state :=
  match n with
  | O => Some s
  | S n' =>
      match fit_body s with
      | Continue s' => fit_steps n' s'
      | _ => None
      end
  end.

(** Every task has a higher rank than its parents. *)
Definition ranked (h : heap) (rank : loc → nat) : Prop :=
  map_Forall (fun l k => Forall (fun p => rank p < rank l) (parents k)) h.

(** The tasks met within [n] child links of [l]. *)
Fixpoint descendants (n : nat) (h : heap) (l : loc) : list loc :=
  match n with
  | O => [l]
  | S n' => l :: flat_map (descendants n' h) (get_children h l)
  end.

Definition covers (n : nat) (h : heap) (root : loc) : Prop :=
  Forall (fun l => l ∈ descendants n h root) (elements (dom h)).

#[global] Instance ranked_dec h rank : Decision (ranked h rank).
Proof. unfold ranked. apply _. Defined.
#[global] Instance covers_dec n h root : Decision (covers n h root).
Proof. unfold covers. apply _. Defined.

Definition task (nm : string) (ps cs : list loc) : Task.t :=
  Task.mk nm (fun ins => PyList ins) ps cs false PyNone.

(** A logger whose [error] returns, and one whose [error] raises. *)
Definition quiet : Logger.t := Logger.mk false [].
Definition strict : Logger.t := Logger.mk true [].

(** root -> a, root -> b, a -> c, b -> c. *)
Definition diamond : heap :=
  list_to_map [(0, task "root" [] [1; 2]); (1, task "a" [0] [3]);
               (2, task "b" [0] [3]); (3, task "c" [1; 2] [])].

(** root -> a, root -> b, b -> c. *)
Definition fork : heap :=
  list_to_map [(0, task "root" [] [1; 2]); (1, task "a" [0] []);
               (2, task "b" [0] [3]); (3, task "c" [2] [])].

(** [fit] on [fork] after two iterations: root and b are ordered. *)
Definition fork_after_two : fit_state :=
  mk_state (set_terminated (set_terminated fork 0 true) 2 true) [3; 1] 4 [0; 2] quiet.

(** root -> a, and a second source x -> a. *)
Definition two_sources : heap :=
  list_to_map [(0, task "root" [] [1]); (1, task "a" [0; 2] []);
               (2, task "x" [] [1])].

(** root -> a -> b -> a. *)
Definition looped : heap :=
  list_to_map [(0, task "root" [] [1]); (1, task "a" [0; 2] [2]);
               (2, task "b" [1] [1])].

(** root -> a -> b -> c -> d, and two tasks w1, w2 that wait for root and d. *)
Definition comb : heap :=
  list_to_map [(0, task "root" [] [1; 5; 6]); (1, task "a" [0] [2]);
               (2, task "b" [1] [3]); (3, task "c" [2] [4]);
               (4, task "d" [3] [5; 6]); (5, task "w1" [0; 4] []);
               (6, task "w2" [0; 4] [])].

(** a <-> b, with a as the root. *)
Definition two_cycle : heap :=
  list_to_map [(0, task "a" [1] [1]); (1, task "b" [0] [0])].

(** The diamond after one call of [compute] with the inputs 1 and 2, and its
    root, which has the input task of that call as parent. *)
Definition fed : heap :=
  run_heap (after (compute diamond (mk (Some [0; 2; 1; 3])) (PyInt 1) (PyInt 2)
                     "out" quiet)).
Definition fed_root : Task.t := from_option id Task.new (fed !! 0).

End Graphs.

(** * Properties of the scheduler *)

Module PipelineFacts.

Import Task Pipeline Invariants.

(** ** The queue *)

Lemma pop_snoc {A} (q : list A) (x : A) : pop (q ++ [x]) = Some (x, q).
Proof.
  unfold pop. rewrite last_snoc. by rewrite removelast_last.
Qed.

Lemma pop_Some {A} (l q : list A) (x : A) : pop l = Some (x, q) → l = q ++ [x].
Proof.
  destruct l as [|a l] using rev_ind; [done|].
  rewrite pop_snoc. by intros [= -> ->].
Qed.

Lemma pop_None {A} (l : list A) : pop l = None → l = [].
Proof.
  destruct l as [|a l] using rev_ind; [done|]. by rewrite pop_snoc.
Qed.

(** ** Reads after [set_terminated] *)

Lemma get_parents_set_terminated h l b x :
  get_parents (set_terminated h l b) x = get_parents h x.
Proof.
  unfold get_parents, set_terminated. rewrite lookup_alter.
  case_decide; subst; [|done]. by destruct (h !! x).
Qed.

Lemma get_children_set_terminated h l b x :
  get_children (set_terminated h l b) x = get_children h x.
Proof.
  unfold get_children, set_terminated. rewrite lookup_alter.
  case_decide; subst; [|done]. by destruct (h !! x).
Qed.

Lemma is_terminated_set_ne h l b x :
  x ≠ l → is_terminated (set_terminated h l b) x = is_terminated h x.
Proof.
  intros. unfold is_terminated, set_terminated. rewrite lookup_alter.
  by case_decide.
Qed.

Lemma is_terminated_set_eq h l b :
  l ∈ dom h → is_terminated (set_terminated h l b) l = b.
Proof.
  intros [k Hk]%elem_of_dom. unfold is_terminated, set_terminated.
  rewrite lookup_alter. case_decide; [|done]. by rewrite Hk.
Qed.

Lemma is_terminated_set_true h l x :
  is_terminated (set_terminated h l true) x = true →
  x = l ∨ is_terminated h x = true.
Proof.
  destruct (decide (x = l)) as [->|]; [by left|].
  rewrite is_terminated_set_ne by done. by right.
Qed.

Lemma is_terminated_dom h l : is_terminated h l = true → l ∈ dom h.
Proof.
  unfold is_terminated. intros H. apply elem_of_dom.
  destruct (h !! l); [done|discriminate].
Qed.

Lemma dom_set_terminated h l b : dom (set_terminated h l b) = dom h.
Proof. unfold set_terminated. apply dom_alter_L. Qed.

Lemma is_waiting_false h t p :
  is_waiting h t = false → p ∈ get_parents h t → is_terminated h p = true.
Proof.
  unfold is_waiting. intros Hw Hp.
  destruct (is_terminated h p) eqn:E; [done|].
  assert (existsb (fun p => negb (is_terminated h p)) (get_parents h t) = true)
    as Hex; [|congruence].
  apply existsb_exists. exists p. split; [by apply list_elem_of_In|].
  by rewrite E.
Qed.

Lemma is_waiting_true h t :
  is_waiting h t = true →
  ∃ p, p ∈ get_parents h t ∧ is_terminated h p = false.
Proof.
  unfold is_waiting. intros (p & Hp & Hn)%existsb_exists.
  exists p. split; [by apply list_elem_of_In|].
  by destruct (is_terminated h p).
Qed.

(** ** The cases of the loop body *)

Lemma fit_body_case s : body_case s (fit_body s).
Proof.
  unfold fit_body. destruct (pop (st_queue s)) as [[task queue]|] eqn:Hpop.
  - apply pop_Some in Hpop.
    destruct (is_terminated (st_heap s) task) eqn:Ht; simpl.
    + by eapply case_drop.
    + destruct (is_waiting (st_heap s) task) eqn:Hw; simpl.
      * destruct (Z.eqb_spec (st_count s) 0) as [Hc|Hc].
        -- pose proof (case_loop s task queue Hpop Ht Hw Hc) as H.
           simpl in H. by destruct (Logger.error_raises (st_logger s)).
        -- by eapply case_requeue.
      * by eapply case_place.
  - apply pop_None in Hpop. by apply case_empty.
Qed.

(** ** Termination of the loop *)

Lemma weight_insert (h : heap) l k :
  h !! l = None → weight (<[l:=k]> h) = task_weight k + weight h.
Proof.
  intros. unfold weight. rewrite map_fold_insert_L; [done| |done].
  intros. lia.
Qed.

Lemma weight_lookup (h : heap) l k :
  h !! l = Some k → weight h = task_weight k + weight (delete l h).
Proof.
  intros Hl. rewrite <-(insert_delete_id h l k Hl) at 1.
  apply weight_insert, lookup_delete_eq.
Qed.

Lemma weight_set_terminated (h : heap) l k :
  h !! l = Some k → terminated k = false →
  weight h = weight (set_terminated h l true) + 2 * length (children k) + 1.
Proof.
  intros Hl Hk. rewrite (weight_lookup h l k Hl).
  rewrite (weight_lookup (set_terminated h l true) l (with_terminated true k)).
  - unfold set_terminated. rewrite delete_alter_eq.
    unfold task_weight. rewrite Hk. simpl. lia.
  - unfold set_terminated. rewrite lookup_alter. case_decide; [|done].
    by rewrite Hl.
Qed.

Lemma measure_decreases s s' :
  (0 ≤ st_count s)%Z → fit_body s = Continue s' →
  (0 ≤ st_count s')%Z ∧ measure s' < measure s.
Proof.
  intros Hc Hb. destruct (fit_body_case s) as
    [Hq|task queue Hq Ht Hw Hz|task queue Hq Ht Hw Hz|task queue Hq Ht Hw|task queue Hq Ht];
    try discriminate.
  - simpl in Hb. destruct (Logger.error_raises _); [discriminate|].
    injection Hb as <-. unfold measure; simpl. rewrite Hq, length_app. simpl. lia.
  - injection Hb as <-. unfold measure; simpl. rewrite Hq, length_app. simpl. lia.
  - injection Hb as <-. unfold measure, len; simpl.
    rewrite Hq, !length_app. simpl. split; [lia|].
    destruct (st_heap s !! task) as [k|] eqn:Hk.
    + rewrite (weight_set_terminated (st_heap s) task k Hk).
      * unfold get_children. rewrite Hk. simpl. lia.
      * unfold is_terminated in Ht. by rewrite Hk in Ht.
    + assert (set_terminated (st_heap s) task true = st_heap s) as ->.
      { unfold set_terminated. apply map_eq. intros i.
        rewrite lookup_alter. case_decide; subst; [|done]. by rewrite Hk. }
      unfold get_children. rewrite Hk. simpl. lia.
  - injection Hb as <-. unfold measure; simpl. rewrite Hq, length_app. simpl. lia.
Qed.

Lemma fit_loop_terminates fuel s :
  (0 ≤ st_count s)%Z → measure s < fuel → is_Some (fit_loop fuel s).
Proof.
  revert s. induction fuel as [|fuel IH]; intros s Hc Hm; [lia|].
  simpl. destruct (fit_body s) as [s'|s'|s' e] eqn:Hb; [|done..].
  destruct (measure_decreases s s' Hc Hb). apply IH; [done|lia].
Qed.

Lemma fit_loop_more fuel fuel' s r :
  fit_loop fuel s = Some r → fuel ≤ fuel' → fit_loop fuel' s = Some r.
Proof.
  revert fuel' s. induction fuel as [|fuel IH]; intros fuel' s; [done|].
  destruct fuel' as [|fuel']; [lia|]. simpl.
  destruct (fit_body s); [|done..]. intros. apply IH; [done|lia].
Qed.

(** An invariant of the loop holds when the loop is left. *)
Lemma fit_loop_invariant (P : fit_state → Prop) fuel s s' r :
  (∀ s1 s2, P s1 → fit_body s1 = Continue s2 → P s2) →
  (∀ s1 s2 e, P s1 → fit_body s1 = Abort s2 e → P s2) →
  P s → fit_loop fuel s = Some (s', r) → P s'.
Proof.
  intros Hstep Habort. revert s. induction fuel as [|fuel IH]; intros s Hs; [done|].
  simpl. destruct (fit_body s) as [s1|s1|s1 e] eqn:Hb.
  - intros. eapply IH; [|done]. by eapply Hstep.
  - destruct (fit_body_case s); try discriminate.
    + intros [= <- <-]. by injection Hb as <-.
    + simpl in Hb. by destruct (Logger.error_raises _).
  - intros [= <- <-]. by eapply Habort.
Qed.

Lemma fit_loop_final fuel s s' r :
  fit_loop fuel s = Some (s', r) →
  match r with
  | None => st_queue s' = []
  | Some e => e = Exception loop_detected ∧
              Logger.error_raises (st_logger s') = true ∧
              Logger.reported Logger.ERROR loop_detected (st_logger s')
  end.
Proof.
  revert s. induction fuel as [|fuel IH]; intros s; [done|].
  simpl. destruct (fit_body_case s) as
    [Hq|task queue Hq Ht Hw Hz|task queue Hq Ht Hw Hz|task queue Hq Ht Hw|task queue Hq Ht];
    try (by apply IH).
  - by intros [= <- <-].
  - simpl. destruct (Logger.error_raises (st_logger s)) eqn:E; [|by apply IH].
    intros [= <- <-]. simpl. split; [done|]. split; [done|].
    unfold Logger.reported. simpl. apply elem_of_app. right.
    by apply list_elem_of_singleton.
Qed.

Lemma reported_emit lvl msg lvl' msg' lg :
  Logger.reported lvl msg lg → Logger.reported lvl msg (Logger.emit lvl' msg' lg).
Proof. unfold Logger.reported. simpl. intros. apply elem_of_app. by left. Qed.

Lemma all_pending_not_terminated h l : all_pending h → is_terminated h l = false.
Proof.
  intros Hp. unfold is_terminated. destruct (h !! l) as [k|] eqn:Hk; [|done].
  simpl. by apply (Hp l k).
Qed.

Lemma fit_fuel_enough h root lg fuel :
  measure (fit_init h root lg) < fuel →
  fit_fuel fuel h root lg = fit h root lg.
Proof.
  intros Hm. unfold fit, fit_fuel.
  destruct (fit_loop_terminates (S (measure (fit_init h root lg)))
              (fit_init h root lg)) as [r Hr]; [simpl; lia|lia|].
  rewrite Hr. by rewrite (fit_loop_more _ fuel _ _ Hr) by lia.
Qed.

Lemma fit_is_Some h root lg : is_Some (fit h root lg).
Proof.
  unfold fit, fit_fuel. apply fmap_is_Some, fit_loop_terminates; simpl; lia.
Qed.

(** ** Facts that hold in every run *)

Section run.

Variables (h0 : heap) (root : loc) (lg0 : Logger.t).

Lemma run_inv_init : all_pending h0 → run_inv h0 lg0 (fit_init h0 root lg0).
Proof.
  intros Hp. split; simpl; try done.
  intros l. by rewrite all_pending_not_terminated.
Qed.

Lemma run_inv_step s st :
  run_inv h0 lg0 s → fit_body s = st →
  match st with Continue s' | Done s' | Abort s' _ => run_inv h0 lg0 s' end.
Proof.
  intros [Hpa Hch Hd Ht Hr] <-.
  destruct (fit_body_case s) as
    [Hq|task queue Hq Hnt Hw Hz|task queue Hq Hnt Hw Hz|task queue Hq Hnt Hw|task queue Hq Hnt].
  - by split.
  - simpl. destruct (Logger.error_raises (st_logger s)) eqn:E; split; try done.
    all: simpl; congruence.
  - by split.
  - split; simpl; try done.
    + intros x. by rewrite get_parents_set_terminated.
    + intros x. by rewrite get_children_set_terminated.
    + by rewrite dom_set_terminated.
    + intros l [->|Hl]%is_terminated_set_true; apply elem_of_app.
      * right. by apply list_elem_of_singleton.
      * left. by apply Ht.
  - by split.
Qed.

Lemma run_inv_final fuel s r :
  all_pending h0 → fit_loop fuel (fit_init h0 root lg0) = Some (s, r) → run_inv h0 lg0 s.
Proof.
  intros Hp. apply (fit_loop_invariant (run_inv h0 lg0)).
  - intros s1 s2 H1 Hb. apply (run_inv_step s1 _ H1 Hb).
  - intros s1 s2 e H1 Hb. apply (run_inv_step s1 _ H1 Hb).
  - by apply run_inv_init.
Qed.

End run.

(** ** Graphs with a dependency cycle *)

Section cycle.

Variables (h0 : heap) (root : loc) (lg0 : Logger.t) (cyc : list loc).
Hypothesis pending : all_pending h0.
Hypothesis cycle : dependency_cycle h0 cyc.

Lemma cycle_parent t : t ∈ cyc → ∃ p, p ∈ cyc ∧ depends h0 t p.
Proof.
  intros [i Hi]%list_elem_of_lookup.
  destruct (Forall2_lookup_l _ _ _ i t cycle Hi) as (p & Hp & Hd).
  exists p. split; [|done].
  apply list_elem_of_lookup_2 in Hp. unfold rotate in Hp.
  apply elem_of_app in Hp as [Hp|Hp].
  - by eapply subseteq_drop.
  - by eapply subseteq_take.
Qed.

Lemma cycle_inv_init : cycle_inv h0 root lg0 cyc (fit_init h0 root lg0).
Proof.
  split; simpl.
  - by apply run_inv_init.
  - intros t _. apply not_elem_of_nil.
  - right. split.
    + right. by apply list_elem_of_singleton.
    + intros p c Hp. by apply elem_of_nil in Hp.
Qed.

Lemma cycle_inv_step s st :
  cycle_inv h0 root lg0 cyc s → fit_body s = st →
  match st with Continue s' | Done s' | Abort s' _ => cycle_inv h0 root lg0 cyc s' end.
Proof.
  intros [Hrun Hcyc Hfr] Hb.
  pose proof (run_inv_step h0 lg0 s st Hrun Hb) as Hrun'.
  subst st. destruct (fit_body_case s) as
    [Hq|task queue Hq Hnt Hw Hz|task queue Hq Hnt Hw Hz|task queue Hq Hnt Hw|task queue Hq Hnt].
  - done.
  - assert (Logger.reported Logger.ERROR loop_detected
              (Logger.emit Logger.ERROR loop_detected (st_logger s))) as Hrep.
    { unfold Logger.reported. simpl. apply elem_of_app. right.
      by apply list_elem_of_singleton. }
    simpl in *. destruct (Logger.error_raises (st_logger s));
      (split; simpl; [done|done|by left]).
  - split; simpl; [done|done|].
    destruct Hfr as [?|[Hroot Hkids]]; [by left|right].
    rewrite Hq in Hroot, Hkids. split.
    + destruct Hroot as [?|Hr]; [by left|right].
      apply elem_of_app in Hr as [?| ->%list_elem_of_singleton];
        [by apply elem_of_cons; right|by apply elem_of_cons; left].
    + intros p c Hp Hc. destruct (Hkids p c Hp Hc) as [?|Hr]; [by left|right].
      apply elem_of_app in Hr as [?| ->%list_elem_of_singleton];
        [by apply elem_of_cons; right|by apply elem_of_cons; left].
  - split; simpl; [done| |].
    + intros t Ht [Hin| ->%list_elem_of_singleton]%elem_of_app.
      * by apply (Hcyc t).
      * destruct (cycle_parent task Ht) as (p & Hp & Hd).
        apply (Hcyc p Hp), (ri_terminated h0 lg0 s Hrun).
        apply (is_waiting_false _ task); [done|].
        by rewrite (ri_parents h0 lg0 s Hrun).
    + destruct Hfr as [?|[Hroot Hkids]]; [by left|right].
      rewrite Hq in Hroot, Hkids.
      rewrite (ri_children h0 lg0 s Hrun). split.
      * destruct Hroot as [?|Hr]; [left; apply elem_of_app; by left|].
        apply elem_of_app in Hr as [?| ->%list_elem_of_singleton].
        -- right. apply elem_of_app. by right.
        -- left. apply elem_of_app. right. by apply list_elem_of_singleton.
      * intros p c [Hp| ->%list_elem_of_singleton]%elem_of_app Hc.
        -- destruct (Hkids p c Hp Hc) as [?|Hr]; [left; apply elem_of_app; by left|].
           apply elem_of_app in Hr as [?| ->%list_elem_of_singleton].
           ++ right. apply elem_of_app. by right.
           ++ left. apply elem_of_app. right. by apply list_elem_of_singleton.
        -- right. apply elem_of_app. by left.
  - split; simpl; [done|done|].
    destruct Hfr as [?|[Hroot Hkids]]; [by left|right].
    rewrite Hq in Hroot, Hkids.
    pose proof (ri_terminated h0 lg0 s Hrun task Hnt) as Htask. split.
    + destruct Hroot as [?|Hr]; [by left|].
      apply elem_of_app in Hr as [?| ->%list_elem_of_singleton]; [by right|by left].
    + intros p c Hp Hc. destruct (Hkids p c Hp Hc) as [?|Hr]; [by left|].
      apply elem_of_app in Hr as [?| ->%list_elem_of_singleton]; [by right|by left].
Qed.

Lemma cycle_inv_final fuel s r :
  fit_loop fuel (fit_init h0 root lg0) = Some (s, r) → cycle_inv h0 root lg0 cyc s.
Proof.
  apply (fit_loop_invariant (cycle_inv h0 root lg0 cyc)).
  - intros s1 s2 H1 Hb. apply (cycle_inv_step s1 _ H1 Hb).
  - intros s1 s2 e H1 Hb. apply (cycle_inv_step s1 _ H1 Hb).
  - apply cycle_inv_init.
Qed.

Lemma cycle_reported fuel s r t :
  t ∈ cyc → reachable h0 root t →
  fit_loop fuel (fit_init h0 root lg0) = Some (s, r) →
  Logger.reported Logger.ERROR loop_detected (st_logger s).
Proof.
  intros Ht Hreach Hloop.
  destruct (cycle_inv_final fuel s r Hloop) as [Hrun Hcyc [?|[Hroot Hkids]]]; [done|].
  pose proof (fit_loop_final fuel _ s r Hloop) as Hfin.
  destruct r as [e|]; [by destruct Hfin as (_ & _ & ?)|].
  rewrite Hfin in Hroot, Hkids. exfalso. apply (Hcyc t Ht).
  clear Ht. revert t Hreach. apply rtc_ind_r.
  - destruct Hroot as [?|[]%elem_of_nil]; done.
  - intros x y _ Hxy IH. destruct (Hkids x y IH Hxy) as [?|[]%elem_of_nil]; done.
Qed.

End cycle.

(** ** Graphs whose links stay inside the heap *)

Lemma closed_children h l c :
  closed h → c ∈ get_children h l → c ∈ dom h.
Proof.
  intros Hc Hin. unfold get_children in Hin.
  destruct (h !! l) as [k|] eqn:Hk; simpl in Hin; [|by apply elem_of_nil in Hin].
  specialize (Hc l k Hk). rewrite Forall_forall in Hc. apply Hc.
  apply elem_of_app. by right.
Qed.

Lemma closed_parents h l p :
  closed h → p ∈ get_parents h l → p ∈ dom h.
Proof.
  intros Hc Hin. unfold get_parents in Hin.
  destruct (h !! l) as [k|] eqn:Hk; simpl in Hin; [|by apply elem_of_nil in Hin].
  specialize (Hc l k Hk). rewrite Forall_forall in Hc. apply Hc.
  apply elem_of_app. by left.
Qed.

Lemma linked_parent h t p : linked h → depends h t p → child_link h p t.
Proof.
  intros Hl Hin. unfold depends, get_parents in Hin.
  destruct (h !! t) as [k|] eqn:Hk; simpl in Hin; [|by apply elem_of_nil in Hin].
  destruct (Hl t k Hk) as [Hp _]. rewrite Forall_forall in Hp. by apply Hp.
Qed.

Lemma linked_child h p c : linked h → child_link h p c → depends h c p.
Proof.
  intros Hl Hin. unfold child_link, get_children in Hin.
  destruct (h !! p) as [k|] eqn:Hk; simpl in Hin; [|by apply elem_of_nil in Hin].
  destruct (Hl p k Hk) as [_ Hc]. rewrite Forall_forall in Hc. by apply Hc.
Qed.

Lemma before_app ts x p t : before ts p t → before (ts ++ [x]) p t.
Proof.
  intros (i & j & Hi & Hj & Hij). exists i, j.
  split; [by apply lookup_app_l_Some|]. split; [by apply lookup_app_l_Some|done].
Qed.

Lemma before_snoc ts p t : p ∈ ts → before (ts ++ [t]) p t.
Proof.
  intros [i Hi]%list_elem_of_lookup. exists i, (length ts).
  split; [by apply lookup_app_l_Some|]. split.
  - by rewrite list_lookup_middle.
  - by eapply lookup_lt_Some.
Qed.

Section order.

Variables (h0 : heap) (root : loc) (lg0 : Logger.t).
Hypothesis pending : all_pending h0.
Hypothesis links_closed : closed h0.
Hypothesis root_dom : root ∈ dom h0.

Lemma order_inv_init : order_inv h0 root lg0 (fit_init h0 root lg0).
Proof.
  split; simpl.
  - by apply run_inv_init.
  - by intros l ->%list_elem_of_singleton.
  - by intros l ?%elem_of_nil.
  - constructor.
  - by intros t p ?%elem_of_nil.
  - intros l [?%elem_of_nil| ->%list_elem_of_singleton]; [done|]. apply rtc_refl.
Qed.

Lemma order_inv_step s st :
  order_inv h0 root lg0 s → fit_body s = st →
  match st with Continue s' | Done s' | Abort s' _ => order_inv h0 root lg0 s' end.
Proof.
  intros [Hrun Hqd Hts Hnd Hbef Hreach] Hb.
  pose proof (run_inv_step h0 lg0 s st Hrun Hb) as Hrun'.
  subst st. destruct (fit_body_case s) as
    [Hq|task queue Hq Hnt Hw Hz|task queue Hq Hnt Hw Hz|task queue Hq Hnt Hw|task queue Hq Hnt].
  - by split.
  - simpl in *. rewrite Hq in Hqd, Hreach.
    destruct (Logger.error_raises (st_logger s)); (split; simpl; try done).
    all: try (intros l Hl; apply Hqd, elem_of_app; by left).
    all: intros l [?|?]; apply Hreach; [by left|right; apply elem_of_app; by left].
  - rewrite Hq in Hqd, Hreach. split; simpl; try done.
    + intros l [->|?]%elem_of_cons; apply Hqd, elem_of_app;
        [right; by apply list_elem_of_singleton|by left].
    + intros l [?|[->|?]%elem_of_cons]; apply Hreach;
        [by left|right; apply elem_of_app; right; by apply list_elem_of_singleton
        |right; apply elem_of_app; by left].
  - rewrite Hq in Hqd, Hreach.
    assert (task ∈ dom h0) as Htd.
    { apply Hqd, elem_of_app. right. by apply list_elem_of_singleton. }
    assert (reachable h0 root task) as Hrt.
    { apply Hreach. right. apply elem_of_app. right. by apply list_elem_of_singleton. }
    split; simpl; try done.
    + rewrite (ri_children h0 lg0 s Hrun).
      intros l [?|?]%elem_of_app; [by eapply closed_children|].
      apply Hqd, elem_of_app. by left.
    + intros l Hl. destruct (decide (l = task)) as [->|Hne].
      * apply is_terminated_set_eq. by rewrite (ri_dom h0 lg0 s Hrun).
      * rewrite is_terminated_set_ne by done.
        apply elem_of_app in Hl as [?|?%list_elem_of_singleton]; [by apply Hts|done].
    + apply NoDup_app. split; [done|]. split; [|apply NoDup_singleton].
      intros x Hx ->%list_elem_of_singleton. apply Hts in Hx. congruence.
    + intros t p [?| ->%list_elem_of_singleton]%elem_of_app Hd.
      * by apply before_app, Hbef.
      * apply before_snoc, (ri_terminated h0 lg0 s Hrun).
        apply (is_waiting_false _ task); [done|].
        by rewrite (ri_parents h0 lg0 s Hrun).
    + rewrite (ri_children h0 lg0 s Hrun).
      intros l [[?| ->%list_elem_of_singleton]%elem_of_app|[Hc|?]%elem_of_app].
      * apply Hreach. by left.
      * done.
      * by eapply rtc_r.
      * apply Hreach. right. apply elem_of_app. by left.
  - rewrite Hq in Hqd, Hreach. split; simpl; try done.
    + intros l Hl. apply Hqd, elem_of_app. by left.
    + intros l [?|?]; apply Hreach; [by left|right; apply elem_of_app; by left].
Qed.

Lemma order_inv_final fuel s r :
  fit_loop fuel (fit_init h0 root lg0) = Some (s, r) → order_inv h0 root lg0 s.
Proof.
  apply (fit_loop_invariant (order_inv h0 root lg0)).
  - intros s1 s2 H1 Hb. apply (order_inv_step s1 _ H1 Hb).
  - intros s1 s2 e H1 Hb. apply (order_inv_step s1 _ H1 Hb).
  - apply order_inv_init.
Qed.

End order.

(** ** Acyclic graphs under one root *)

Lemma tc_target {A} (R : relation A) x y : tc R x y → ∃ z, R z y.
Proof. induction 1; eauto. Qed.

Lemma reachable_depends h x y :
  linked h → reachable h x y → rtc (depends h) y x.
Proof.
  intros Hl. induction 1 as [|x y z Hxy _ IH]; [apply rtc_refl|].
  eapply rtc_r; [done|]. by apply linked_child.
Qed.

Lemma depends_sn h t : closed h → acyclic h → sn (depends h) t.
Proof.
  intros Hc Ha. apply tc_finite_sn; [done|].
  exists (elements (dom h)). intros y [z Hz]%tc_target.
  apply elem_of_elements. by eapply closed_parents.
Qed.

Section complete.

Variables (h0 : heap) (root : loc) (lg0 : Logger.t).
Hypothesis pending : all_pending h0.
Hypothesis links_closed : closed h0.
Hypothesis links_mirror : linked h0.
Hypothesis no_cycle : acyclic h0.
Hypothesis root_dom : root ∈ dom h0.
Hypothesis one_root : rooted h0 root.

Lemma root_no_parents : get_parents h0 root = [].
Proof.
  destruct (get_parents h0 root) as [|p ps] eqn:Hp; [done|]. exfalso.
  assert (depends h0 root p) as Hd.
  { unfold depends. rewrite Hp. by apply elem_of_cons; left. }
  apply (no_cycle root). eapply tc_rtc_r; [by apply tc_once|].
  apply reachable_depends; [done|]. apply one_root. by eapply closed_parents.
Qed.

Lemma complete_inv_init : complete_inv h0 root lg0 (fit_init h0 root lg0).
Proof.
  split; simpl.
  - by apply order_inv_init.
  - right. by apply list_elem_of_singleton.
  - intros t _ Hne Hall. destruct (get_parents h0 t) as [|p ps] eqn:Hp; [done|].
    destruct (not_elem_of_nil p). apply Hall. unfold depends. rewrite Hp.
    by apply elem_of_cons; left.
Qed.

Lemma complete_inv_step s st :
  complete_inv h0 root lg0 s → fit_body s = st →
  match st with Continue s' | Done s' | Abort s' _ => complete_inv h0 root lg0 s' end.
Proof.
  intros [Hord Hroot Hready] Hb.
  pose proof (order_inv_step h0 root lg0 links_closed s st Hord Hb) as Hord'.
  pose proof (oi_run _ _ _ _ Hord) as Hrun.
  subst st. destruct (fit_body_case s) as
    [Hq|task queue Hq Hnt Hw Hz|task queue Hq Hnt Hw Hz|task queue Hq Hnt Hw|task queue Hq Hnt].
  - by split.
  - assert (root ≠ task) as Hrt.
    { intros <-. apply is_waiting_true in Hw as (p & Hp & _).
      rewrite (ri_parents h0 lg0 s Hrun), root_no_parents in Hp.
      by apply elem_of_nil in Hp. }
    assert (∀ t, t ∉ st_tasks s → get_parents h0 t ≠ [] →
              (∀ p, depends h0 t p → p ∈ st_tasks s) → t ∈ queue) as Hready'.
    { intros t Ht Hne Hall. specialize (Hready t Ht Hne Hall).
      rewrite Hq in Hready.
      apply elem_of_app in Hready as [?| ->%list_elem_of_singleton]; [done|].
      apply is_waiting_true in Hw as (p & Hp & Hpt).
      rewrite (ri_parents h0 lg0 s Hrun) in Hp.
      apply Hall, (oi_tasks _ _ _ _ Hord) in Hp. congruence. }
    rewrite Hq in Hroot.
    assert (root ∈ st_tasks s ∨ root ∈ queue) as Hroot'.
    { destruct Hroot as [?|[?|?%list_elem_of_singleton]%elem_of_app];
        [by left|by right|done]. }
    simpl in *. by destruct (Logger.error_raises (st_logger s)); split.
  - rewrite Hq in Hroot. split; simpl; [done| |].
    + destruct Hroot as [?|[?| ->%list_elem_of_singleton]%elem_of_app];
        [by left|right; by apply elem_of_cons; right|right; by apply elem_of_cons; left].
    + intros t Ht Hne Hall. specialize (Hready t Ht Hne Hall). rewrite Hq in Hready.
      apply elem_of_app in Hready as [?| ->%list_elem_of_singleton];
        [by apply elem_of_cons; right|by apply elem_of_cons; left].
  - rewrite Hq in Hroot. split; simpl; [done| |].
    + destruct Hroot as [?|[?| ->%list_elem_of_singleton]%elem_of_app].
      * left. apply elem_of_app. by left.
      * right. apply elem_of_app. by right.
      * left. apply elem_of_app. right. by apply list_elem_of_singleton.
    + rewrite (ri_children h0 lg0 s Hrun).
      intros t Ht Hne Hall. apply elem_of_app.
      destruct (decide (task ∈ get_parents h0 t)) as [Hd|Hd].
      * left. by apply linked_parent.
      * right. assert (t ∈ st_queue s) as Hin.
        { apply Hready; [|done|].
          - intros ?. apply Ht, elem_of_app. by left.
          - intros p Hp.
            pose proof (Hall p Hp) as Hin.
            apply elem_of_app in Hin as [?| ->%list_elem_of_singleton]; done. }
        rewrite Hq in Hin.
        apply elem_of_app in Hin as [?| ->%list_elem_of_singleton]; [done|].
        destruct Ht. apply elem_of_app. right. by apply list_elem_of_singleton.
  - pose proof (ri_terminated h0 lg0 s Hrun task Hnt) as Htask.
    rewrite Hq in Hroot. split; simpl; [done| |].
    + destruct Hroot as [?|[?| ->%list_elem_of_singleton]%elem_of_app];
        [by left|by right|by left].
    + intros t Ht Hne Hall. specialize (Hready t Ht Hne Hall). rewrite Hq in Hready.
      apply elem_of_app in Hready as [?| ->%list_elem_of_singleton]; done.
Qed.

Lemma complete_inv_final fuel s r :
  fit_loop fuel (fit_init h0 root lg0) = Some (s, r) → complete_inv h0 root lg0 s.
Proof.
  apply (fit_loop_invariant (complete_inv h0 root lg0)).
  - intros s1 s2 H1 Hb. apply (complete_inv_step s1 _ H1 Hb).
  - intros s1 s2 e H1 Hb. apply (complete_inv_step s1 _ H1 Hb).
  - apply complete_inv_init.
Qed.

(** When the loop ends with an empty queue, every task is in the order. *)
Lemma complete_all s t :
  complete_inv h0 root lg0 s → st_queue s = [] → reachable h0 root t → t ∈ st_tasks s.
Proof.
  intros [Hord Hroot Hready] Hq. rewrite Hq in Hroot, Hready.
  induction (depends_sn h0 t links_closed no_cycle) as [t _ IH].
  intros Hreach. destruct (decide (t ∈ st_tasks s)) as [|Hnot]; [done|].
  exfalso. apply rtc_inv_r in Hreach as [<-|(y & Hy & Hyt)].
  - destruct Hroot as [?|?%elem_of_nil]; done.
  - apply (not_elem_of_nil t), Hready; [done| |].
    + apply (linked_child _ _ _ links_mirror) in Hyt. unfold depends in Hyt.
      intros Hnil. rewrite Hnil in Hyt. by apply elem_of_nil in Hyt.
    + intros p Hp. apply IH; [done|].
      apply one_root. by eapply closed_parents.
Qed.

End complete.

(** ** What [compute] executes *)

Lemma imap_snd {A B} (f : nat → A → B * A) (l : list A) :
  (∀ i x, (f i x).2 = x) → (imap f l).*2 = l.
Proof.
  revert f. induction l as [|x l IH]; intros f Hf; [done|].
  simpl. rewrite Hf. f_equal. apply IH. intros. apply Hf.
Qed.

Lemma compute_loop_executed r (its : list (nat * loc)) :
  run_executed (foldl compute_body r its) = run_executed r ++ its.*2.
Proof.
  revert r. induction its as [|[i t] its IH]; intros r; simpl.
  - by rewrite app_nil_r.
  - rewrite IH. simpl. by rewrite <-app_assoc.
Qed.

Lemma last_cons_default {A} (x : A) (l : list A) :
  last (x :: l) = Some (List.last l x).
Proof.
  destruct l as [|a l _] using rev_ind; [done|].
  rewrite app_comm_cons, last_snoc. by rewrite List.last_last.
Qed.

Lemma compute_fitted h ts X Y path lg :
  ts ≠ [] →
  let c := compute h (mk (Some ts)) X Y path lg in
  run_executed (after c) = ts ∧
  ∃ t, last ts = Some t ∧ returned c = Return (get_output (run_heap (after c)) t).
Proof.
  destruct ts as [|first rest]; [done|]. intros _. simpl. split.
  - rewrite compute_loop_executed. simpl.
    change (imap (pair ∘ S) rest) with (imap (fun i x => (S i, x)) rest).
    by rewrite imap_snd.
  - exists (List.last rest first). split; [apply last_cons_default|done].
Qed.

(** ** Checks on concrete graphs *)

Import Graphs.

Lemma ranked_acyclic h rank : ranked h rank → acyclic h.
Proof.
  intros Hr.
  assert (∀ t p, tc (depends h) t p → rank p < rank t) as Hlt.
  { induction 1 as [t p Hd|t q p Hd _ IH].
    - unfold depends, get_parents in Hd.
      destruct (h !! t) as [k|] eqn:Hk; simpl in Hd; [|by apply elem_of_nil in Hd].
      specialize (Hr t k Hk). rewrite Forall_forall in Hr. by apply Hr.
    - assert (rank q < rank t); [|lia].
      unfold depends, get_parents in Hd.
      destruct (h !! t) as [k|] eqn:Hk; simpl in Hd; [|by apply elem_of_nil in Hd].
      specialize (Hr t k Hk). rewrite Forall_forall in Hr. by apply Hr. }
  intros t Ht. apply Hlt in Ht. lia.
Qed.

Lemma descendants_sound n h l x : x ∈ descendants n h l → reachable h l x.
Proof.
  revert l. induction n as [|n IH]; intros l; simpl.
  - intros ->%list_elem_of_singleton. apply rtc_refl.
  - intros [->|Hin]%elem_of_cons; [apply rtc_refl|].
    apply list_elem_of_In, in_flat_map in Hin as (c & Hc & Hx).
    eapply rtc_l; [by apply list_elem_of_In|]. by apply IH, list_elem_of_In.
Qed.

Lemma checked (P : Prop) `{Decision P} : bool_decide P = true → P.
Proof. apply bool_decide_eq_true_1. Qed.

Lemma covers_rooted n h root : covers n h root → rooted h root.
Proof.
  intros Hc l Hl. apply (descendants_sound n).
  unfold covers in Hc. rewrite Forall_forall in Hc. by apply Hc, elem_of_elements.
Qed.

(** ** The fitted order and its execution *)

(** C1 (as amended).  For every acyclic task graph whose tasks all start
    not terminated and are all reachable from the root via child links
    (links mirrored and inside the graph), [fit] returns without raising
    whenever the logger's [error] returns; and whenever [fit] returns, its
    order holds every task reachable from the root exactly once, each task
    after all of its parents, and a subsequent [compute] executes the tasks
    in that order, once each, and returns the output of the last one. *)
Theorem fit_then_compute (h : heap) (root : loc) (lg : Logger.t) :
  all_pending h → closed h → linked h → acyclic h → root ∈ dom h → rooted h root →
  ∃ out, fit h root lg = Some out ∧
    (Logger.error_raises lg = false → out_result out = Return tt) ∧
    (out_result out = Return tt →
     ∃ ts, tasks (out_self out) = Some ts ∧ NoDup ts ∧
       (∀ t, t ∈ ts ↔ reachable h root t) ∧
       (∀ t p, t ∈ ts → depends h t p → before ts p t) ∧
       ∀ X Y path lg',
         let c := compute (out_heap out) (out_self out) X Y path lg' in
         run_executed (after c) = ts ∧
         ∃ t, last ts = Some t ∧
              returned c = Return (get_output (run_heap (after c)) t)).
Proof.
  intros Hpend Hclosed Hlinked Hacyc Hroot Hrooted.
  destruct (fit_is_Some h root lg) as [out Hout]. exists out. split; [done|].
  unfold fit, fit_fuel in Hout. apply fmap_Some in Hout as ([s r] & Hloop & ->).
  pose proof (complete_inv_final h root lg Hpend Hclosed Hlinked Hacyc Hroot Hrooted
                _ s r Hloop) as Hinv.
  pose proof (fit_loop_final _ _ s r Hloop) as Hfin.
  destruct Hinv as [Hord Hr Hready].
  destruct r as [e|]; simpl.
  - destruct Hfin as (_ & Hraise & _). split; [|done].
    rewrite (ri_raises _ _ _ (oi_run _ _ _ _ Hord)) in Hraise. congruence.
  - split; [done|]. intros _. exists (st_tasks s). split; [done|].
    split; [apply (oi_nodup _ _ _ _ Hord)|]. split; [|split].
    + intros t. split.
      * intros Ht. apply (oi_reach _ _ _ _ Hord). by left.
      * apply (complete_all h root lg Hclosed Hlinked Hacyc Hrooted s t); [|done].
        by split.
    + apply (oi_before _ _ _ _ Hord).
    + intros X Y path lg'. apply compute_fitted.
      rewrite Hfin in Hr. destruct Hr as [Hr|Hr%elem_of_nil]; [|done].
      intros Hnil. rewrite Hnil in Hr. by apply elem_of_nil in Hr.
Qed.

Lemma fit_then_compute_diamond :
  ∃ out, fit diamond 0 quiet = Some out ∧
    (Logger.error_raises quiet = false → out_result out = Return tt) ∧
    (out_result out = Return tt →
     ∃ ts, tasks (out_self out) = Some ts ∧ NoDup ts ∧
       (∀ t, t ∈ ts ↔ reachable diamond 0 t) ∧
       (∀ t p, t ∈ ts → depends diamond t p → before ts p t) ∧
       ∀ X Y path lg',
         let c := compute (out_heap out) (out_self out) X Y path lg' in
         run_executed (after c) = ts ∧
         ∃ t, last ts = Some t ∧
              returned c = Return (get_output (run_heap (after c)) t)).
Proof.
  apply (fit_then_compute diamond 0 quiet).
  - apply (checked _). vm_compute. reflexivity.
  - apply (checked _). vm_compute. reflexivity.
  - apply (checked _). vm_compute. reflexivity.
  - apply (ranked_acyclic _ (fun l => l)). apply (checked _). vm_compute. reflexivity.
  - apply (checked _). vm_compute. reflexivity.
  - apply (covers_rooted 2). apply (checked _). vm_compute. reflexivity.
Defined.

(** C1 as stated fails: in the acyclic graph [two_sources] the task [a] is
    a child of the root, but it also depends on the source [x], which no
    child link from the root reaches; [fit] returns the order [root] and
    never collects [a]. *)
Lemma fit_misses_child_of_second_source :
  ¬ (∀ h root lg,
       all_pending h → closed h → linked h → acyclic h → root ∈ dom h →
       ∃ out ts, fit h root lg = Some out ∧ tasks (out_self out) = Some ts ∧
                 ∀ t, reachable h root t → t ∈ ts).
Proof.
  intros Hclaim.
  destruct (Hclaim two_sources 0 quiet) as (out & ts & Hfit & Hts & Hall).
  - apply (checked _). vm_compute. reflexivity.
  - apply (checked _). vm_compute. reflexivity.
  - apply (checked _). vm_compute. reflexivity.
  - apply (ranked_acyclic _ (fun l => match l with 1 => 1 | _ => 0 end)).
    apply (checked _). vm_compute. reflexivity.
  - apply (checked _). vm_compute. reflexivity.
  - assert (tasks ∘ out_self <$> fit two_sources 0 quiet = Some (Some [0])) as Hrun
      by (vm_compute; reflexivity).
    rewrite Hfit in Hrun. simpl in Hrun. injection Hrun as Hrun.
    rewrite Hts in Hrun. injection Hrun as ->.
    assert (1 ∈ [0]) as Hin.
    { apply Hall, rtc_once. apply (checked _). vm_compute. reflexivity. }
    apply list_elem_of_singleton in Hin. discriminate.
Qed.

(** The retry budget can run out on an acyclic graph: on [comb] the loop
    is reported although every task is ordered in the end; a logger whose
    [error] raises then ends the call with the order still incomplete. *)
Lemma fit_false_alarm :
  acyclic comb ∧ rooted comb 0 ∧
  out_logger <$> fit comb 0 quiet =
    Some (Logger.mk false [(Logger.ERROR, loop_detected);
                           (Logger.INFO, fitted_without_error)]) ∧
  out_self <$> fit comb 0 quiet = Some (mk (Some [0; 1; 2; 3; 4; 6; 5])) ∧
  out_result <$> fit comb 0 strict = Some (Raise (Exception loop_detected)) ∧
  out_self <$> fit comb 0 strict = Some (mk (Some [0; 1; 2; 3])).
Proof.
  split; [|split].
  - apply (ranked_acyclic _ (fun l => match l with 5 | 6 => 10 | _ => l end)).
    apply (checked _). vm_compute. reflexivity.
  - apply (covers_rooted 5). apply (checked _). vm_compute. reflexivity.
  - repeat split; vm_compute; reflexivity.
Qed.

Example fit_fork_order :
  out_self <$> fit fork 0 quiet = Some (mk (Some [0; 2; 1; 3])).
Proof. vm_compute. reflexivity. Qed.

(** ** The retry budget *)

(** A task that is popped while waiting: with no budget left the loop is
    reported and the task leaves the queue; the call goes on unless the
    logger itself raises.  Otherwise the task goes to the front of the queue
    and the budget drops by one. *)
Lemma fit_body_waiting s task queue :
  st_queue s = queue ++ [task] →
  is_terminated (st_heap s) task = false → is_waiting (st_heap s) task = true →
  fit_body s =
    if (st_count s =? 0)%Z then
      let s' := mk_state (st_heap s) queue (st_count s) (st_tasks s)
                         (Logger.emit Logger.ERROR loop_detected (st_logger s)) in
      if Logger.error_raises (st_logger s)
      then Abort s' (Exception loop_detected) else Continue s'
    else
      Continue (mk_state (st_heap s) (task :: queue) (st_count s - 1)
                         (st_tasks s) (st_logger s)).
Proof.
  intros Hq Ht Hw. unfold fit_body. rewrite Hq, pop_snoc, Ht, Hw. simpl.
  destruct (st_count s =? 0)%Z; [|done].
  by destruct (Logger.error_raises (st_logger s)).
Qed.

(** C2.  On the two-task cycle [two_cycle], with a logger whose [error]
    returns, [fit] reports the loop, drops the waiting task, leaves the loop
    with an empty order and then reports that the pipeline was fitted
    without error; it returns normally. *)
Theorem fit_reports_loop_then_success :
  out_logger <$> fit two_cycle 0 quiet =
    Some (Logger.mk false [(Logger.ERROR, loop_detected);
                           (Logger.INFO, fitted_without_error)]) ∧
  out_result <$> fit two_cycle 0 quiet = Some (Return tt) ∧
  out_self <$> fit two_cycle 0 quiet = Some (mk (Some [])).
Proof. repeat split; vm_compute; reflexivity. Qed.

(** With a logger whose [error] raises, the same call ends with that
    exception and without the success report. *)
Lemma fit_strict_aborts :
  out_logger <$> fit two_cycle 0 strict =
    Some (Logger.mk true [(Logger.ERROR, loop_detected)]) ∧
  out_result <$> fit two_cycle 0 strict = Some (Raise (Exception loop_detected)).
Proof. repeat split; vm_compute; reflexivity. Qed.

(** ** [compute] without a fitted order *)

(** C3.  On a pipeline that was never fitted, [compute] raises
    [AttributeError] before anything is logged; on an empty order it logs
    the warning and the final report, executes nothing, and raises
    [UnboundLocalError] at [return task.output]. *)
Theorem compute_without_order (h : heap) (X Y : pyval) (path : string) (lg : Logger.t) :
  (let c := compute h init X Y path lg in
   returned c = Raise (AttributeError "'Pipeline' object has no attribute 'tasks'") ∧
   run_logger (after c) = lg ∧ run_executed (after c) = [] ∧ run_heap (after c) = h) ∧
  (let c := compute h (mk (Some [])) X Y path lg in
   returned c =
     Raise (UnboundLocalError "local variable 'task' referenced before assignment") ∧
   run_logger (after c) =
     Logger.info executed_without_error (Logger.warning not_fitted lg) ∧
   run_executed (after c) = [] ∧ run_heap (after c) = h).
Proof. by repeat split. Qed.

(** ** Dependency cycles *)

(** C4.  For every task graph whose tasks all start not terminated and in
    which a task of a dependency cycle (of any length, so in particular
    among two or more tasks) is reachable from the root via child links, the
    loop of [fit] ends after finitely many iterations, whatever the logger,
    and the loop has been reported as an error. *)
Theorem fit_cycle_terminates_and_reports
    (h : heap) (root : loc) (lg : Logger.t) (cyc : list loc) (t : loc) :
  all_pending h → dependency_cycle h cyc → t ∈ cyc → reachable h root t →
  ∃ n out, (∀ fuel, n ≤ fuel → fit_fuel fuel h root lg = Some out) ∧
           Logger.reported Logger.ERROR loop_detected (out_logger out).
Proof.
  intros Hpend Hcyc Ht Hreach.
  destruct (fit_is_Some h root lg) as [out Hout].
  exists (S (measure (fit_init h root lg))), out. split.
  - intros fuel Hfuel. rewrite fit_fuel_enough by lia. done.
  - unfold fit, fit_fuel in Hout. apply fmap_Some in Hout as ([s r] & Hloop & ->).
    pose proof (cycle_reported h root lg cyc Hpend Hcyc _ s r t Ht Hreach Hloop) as Hrep.
    destruct r as [e|]; simpl; [done|]. by apply reported_emit.
Qed.

Lemma fit_cycle_looped :
  ∃ n out, (∀ fuel, n ≤ fuel → fit_fuel fuel looped 0 quiet = Some out) ∧
           Logger.reported Logger.ERROR loop_detected (out_logger out).
Proof.
  apply (fit_cycle_terminates_and_reports looped 0 quiet [1; 2] 1).
  - apply (checked _). vm_compute. reflexivity.
  - apply (checked _). vm_compute. reflexivity.
  - apply (checked _). vm_compute. reflexivity.
  - apply (descendants_sound 1). apply (checked _). vm_compute. reflexivity.
Defined.

(** ** The order of the queue *)

Lemma fit_body_raises s :
  match fit_body s with
  | Continue s' | Done s' | Abort s' _ =>
      Logger.error_raises (st_logger s') = Logger.error_raises (st_logger s)
  end.
Proof.
  destruct (fit_body_case s); try done.
  cbv zeta. by destruct (Logger.error_raises (st_logger s)) eqn:E.
Qed.

Lemma popped_fifo (old : list loc) : ∀ s front,
  st_queue s = front ++ old → Logger.error_raises (st_logger s) = false →
  popped (length old) s = reverse old.
Proof.
  induction old as [|x old IH] using rev_ind; intros s front Hq Hlg; [done|].
  rewrite length_app, Nat.add_1_r, reverse_snoc. simpl.
  rewrite app_assoc in Hq. rewrite Hq, pop_snoc. f_equal.
  pose proof (fit_body_raises s) as Hr.
  destruct (fit_body_case s) as
    [Hq'|task queue Hq' Hnt Hw Hz|task queue Hq' Hnt Hw Hz|task queue Hq' Hnt Hw|task queue Hq' Hnt];
    rewrite Hq in Hq'.
  - by destruct (front ++ old).
  - apply app_inj_tail in Hq' as [<- <-]. simpl in *. rewrite Hlg in *.
    by apply (IH _ front).
  - apply app_inj_tail in Hq' as [<- <-].
    apply (IH _ (x :: front)); [done|congruence].
  - apply app_inj_tail in Hq' as [<- <-].
    apply (IH _ (get_children (st_heap s) x ++ front)); [|congruence].
    simpl. by rewrite app_assoc.
  - apply app_inj_tail in Hq' as [<- <-]. apply (IH _ front); [done|congruence].
Qed.

(** C9 (as amended).  Tasks are popped from the back of the queue while
    children and requeued tasks go to its front: the task at the back is
    popped first and, when it is neither terminated nor waiting, appended to
    the order with its children put in front of everything queued; the
    tasks already queued are then popped from the back, oldest first, before
    anything pushed later (first in, first out). *)
Theorem fit_queue_is_fifo (s : fit_state) (front old : list loc) (task : loc) :
  st_queue s = front ++ old ++ [task] →
  Logger.error_raises (st_logger s) = false →
  popped (S (length old)) s = task :: reverse old ∧
  (eligible (st_heap s) task = true →
   ∃ s', fit_body s = Continue s' ∧ st_tasks s' = st_tasks s ++ [task] ∧
         st_queue s' = get_children (st_heap s) task ++ front ++ old).
Proof.
  intros Hq Hlg. split.
  - rewrite <-(reverse_snoc old task).
    replace (S (length old)) with (length (old ++ [task]))
      by (rewrite length_app; simpl; lia).
    by apply (popped_fifo _ s front).
  - unfold eligible. intros [Ht Hw]%andb_true_iff.
    apply negb_true_iff in Ht, Hw. eexists. split; [|split].
    + unfold fit_body. rewrite Hq, !app_assoc, pop_snoc, Ht, Hw. simpl. reflexivity.
    + done.
    + simpl. by rewrite app_assoc.
Qed.

Lemma fit_queue_is_fifo_fork :
  fit_steps 2 (fit_init fork 0 quiet) = Some fork_after_two ∧
  popped 2 fork_after_two = [1; 3] ∧
  ∃ s', fit_body fork_after_two = Continue s' ∧
        st_tasks s' = st_tasks fork_after_two ++ [1] ∧
        st_queue s' = get_children (st_heap fork_after_two) 1 ++ [] ++ [3].
Proof.
  split; [vm_compute; reflexivity|].
  assert (st_queue fork_after_two = [] ++ [3] ++ [1]) as Hq by reflexivity.
  assert (Logger.error_raises (st_logger fork_after_two) = false) as Hlg by reflexivity.
  destruct (fit_queue_is_fifo fork_after_two [] [3] 1 Hq Hlg) as [Hpop Hplace].
  split; [exact Hpop|]. apply Hplace. vm_compute. reflexivity.
Defined.

(** C9 as stated fails: after two iterations on [fork] the queue holds [c]
    (pushed last, at the front) and [a]; both are neither terminated nor
    waiting, and the next iteration appends [a], not [c]. *)
Lemma fit_not_most_recent_first :
  ¬ (∀ h root lg n s newest rest,
       fit_steps n (fit_init h root lg) = Some s →
       st_queue s = newest :: rest →
       eligible (st_heap s) newest = true →
       (∃ other, other ∈ rest ∧ eligible (st_heap s) other = true) →
       ∃ s', fit_body s = Continue s' ∧ st_tasks s' = st_tasks s ++ [newest]).
Proof.
  intros Hclaim.
  destruct (Hclaim fork 0 quiet 2 fork_after_two 3 [1]) as (s' & Hb & Hts).
  - vm_compute. reflexivity.
  - reflexivity.
  - vm_compute. reflexivity.
  - exists 1. split; [by apply list_elem_of_singleton|]. vm_compute. reflexivity.
  - assert (st_tasks <$> (match fit_body fork_after_two with
                          | Continue s1 => Some s1 | _ => None end)
            = Some [0; 2; 1]) as Hrun by (vm_compute; reflexivity).
    rewrite Hb in Hrun. simpl in Hrun. rewrite Hts in Hrun. discriminate.
Qed.

End PipelineFacts.

(** * Properties of the transformer *)

Module TransformerFacts.

Import Numpy Pandas Utils Transformer Data.

(** ** Loops and slices *)

Lemma traverse_Forall2 {A B} (f : A → result B) l ys :
  traverse f l = Return ys → Forall2 (fun x y => f x = Return y) l ys.
Proof.
  revert ys. induction l as [|x l IH]; intros ys; simpl.
  - intros [= <-]. constructor.
  - destruct (f x) as [y|e] eqn:Hx; simpl; [|done].
    destruct (traverse f l) as [ys'|e]; simpl; [|done].
    intros [= <-]. constructor; [done|]. by apply IH.
Qed.

Lemma traverse_length {A B} (f : A → result B) l ys :
  traverse f l = Return ys → length ys = length l.
Proof. intros H%traverse_Forall2. symmetry. by eapply Forall2_length. Qed.

Lemma traverse_Return {A B} (f : A → result B) l :
  Forall (fun x => ∃ y, f x = Return y) l → ∃ ys, traverse f l = Return ys.
Proof.
  induction 1 as [|x l [y Hy] _ [ys IH]]; simpl; [by eexists|].
  rewrite Hy, IH. simpl. by eexists.
Qed.

Lemma slice_bound_neg_len {A B} (l : list A) (k : list B) :
  slice_bound l (- len k) = match k with [] => 0 | _ => length l - length k end.
Proof.
  unfold slice_bound, len. destruct k as [|b k]; simpl length.
  - simpl. lia.
  - destruct (Z.ltb_spec (- Z.of_nat (S (length k))) 0); lia.
Qed.

Lemma slices_append {A} (l : list A) (i : Z) : slice_to l i ++ slice_from l i = l.
Proof. unfold slice_to, slice_from. apply take_drop. Qed.

Section facts.

Context {V : Type} {num : Scalar V} {disk : Files V} {lib : Services V}.

Lemma split_back_flat (ms test : list (ndarray V)) :
  X_train (split_back ms test) ++ X_test (split_back ms test) = ms.
Proof. apply slices_append. Qed.

Lemma split_back_sliced (train test ms : list (ndarray V)) :
  length ms = length train + length test →
  sliced train test ms (X_train (split_back ms test)) (X_test (split_back ms test)).
Proof.
  intros Hlen. unfold sliced, split_back. simpl.
  split; [done|]. split; [done|]. split; [done|].
  unfold slice_to, slice_from. rewrite !slice_bound_neg_len. split.
  - intros Hne. destruct test as [|x test]; [done|].
    rewrite length_take, length_drop. simpl in *. lia.
  - intros ->. simpl. by rewrite drop_0.
Qed.

(** ** [identity] *)

Lemma identity_off (self : Transformer.t V) (train test : list (ndarray V)) :
  identity self train test false = Return (split_back (train ++ test) test).
Proof. done. Qed.

Lemma identity_off_flat (self : Transformer.t V) (train test : list (ndarray V)) :
  ∃ r, identity self train test false = Return r ∧
       X_train r ++ X_test r = train ++ test.
Proof. eexists. split; [apply identity_off|apply split_back_flat]. Qed.

Lemma identity_off_nonempty (self : Transformer.t V) (train test : list (ndarray V)) :
  test ≠ [] → identity self train test false = Return (mk_split train test).
Proof.
  intros Hne. rewrite identity_off. f_equal. unfold split_back, slice_to, slice_from.
  rewrite !slice_bound_neg_len. destruct test as [|x test]; [done|].
  rewrite length_app. replace (_ + _ - _) with (length train) by lia.
  by rewrite take_app_length, drop_app_length.
Qed.

(** C7.  With an empty test list, [identity] with centering disabled does
    not hand the lists back: the train list comes back empty and the train
    matrices are returned as the test list. *)
Theorem identity_off_empty_test (self : Transformer.t V) (train : list (ndarray V)) :
  identity self train [] false = Return (mk_split [] train).
Proof.
  rewrite identity_off, app_nil_r. unfold split_back, slice_to, slice_from.
  by rewrite !(slice_bound_neg_len train (@nil (ndarray V))), take_0, drop_0.
Qed.

(** ** One matrix at a time *)

Lemma traverse_at {A B} (f : A → result B) l ys k x :
  traverse f l = Return ys → l !! k = Some x →
  ∃ y, f x = Return y ∧ ys !! k = Some y.
Proof.
  intros H%traverse_Forall2 Hk.
  destruct (Forall2_lookup_l _ _ _ k x H Hk) as (y & Hy & Hf). by exists y.
Qed.

Lemma traverse_same {A B} (f : A → result B) l1 l2 ys1 ys2 k x :
  traverse f l1 = Return ys1 → traverse f l2 = Return ys2 →
  l1 !! k = Some x → l2 !! k = Some x → ys1 !! k = ys2 !! k.
Proof.
  intros H1 H2 Hk1 Hk2.
  destruct (traverse_at f l1 ys1 k x H1 Hk1) as (y1 & Hy1 & ->).
  destruct (traverse_at f l2 ys2 k x H2 Hk2) as (y2 & Hy2 & ->). congruence.
Qed.

(** C8.  For each of [standardize], [identity] and [normalize]: when two
    calls (with the same settings) have the same k-th matrix in their
    flattened train+test lists, their k-th transformed matrices are equal,
    whatever the other matrices are. *)
Theorem scaling_is_per_matrix (self : Transformer.t V)
    (train1 test1 train2 test2 : list (ndarray V)) (k : nat) (m : ndarray V) :
  (train1 ++ test1) !! k = Some m → (train2 ++ test2) !! k = Some m →
  (∀ r1 r2,
     standardize self train1 test1 = Return r1 →
     standardize self train2 test2 = Return r2 →
     (X_train r1 ++ X_test r1) !! k = (X_train r2 ++ X_test r2) !! k) ∧
  (∀ centering r1 r2,
     identity self train1 test1 centering = Return r1 →
     identity self train2 test2 centering = Return r2 →
     (X_train r1 ++ X_test r1) !! k = (X_train r2 ++ X_test r2) !! k) ∧
  (∀ order centering axis r1 r2,
     normalize self train1 test1 order centering axis = Return r1 →
     normalize self train2 test2 order centering axis = Return r2 →
     (X_train r1 ++ X_test r1) !! k = (X_train r2 ++ X_test r2) !! k).
Proof.
  intros Hk1 Hk2. split; [|split].
  - intros r1 r2. unfold standardize.
    destruct (traverse _ (train1 ++ test1)) as [ms1|] eqn:H1; simpl; [|done].
    destruct (traverse _ (train2 ++ test2)) as [ms2|] eqn:H2; simpl; [|done].
    intros [= <-] [= <-]. rewrite !split_back_flat. by eapply traverse_same.
  - intros [] r1 r2; unfold identity.
    + destruct (traverse _ (train1 ++ test1)) as [ms1|] eqn:H1; simpl; [|done].
      destruct (traverse _ (train2 ++ test2)) as [ms2|] eqn:H2; simpl; [|done].
      intros [= <-] [= <-]. rewrite !split_back_flat. by eapply traverse_same.
    + simpl. intros [= <-] [= <-]. rewrite !split_back_flat. congruence.
  - intros order centering axis r1 r2. unfold normalize.
    destruct (traverse _ (train1 ++ test1)) as [ms1|] eqn:H1; simpl; [|done].
    destruct (traverse _ (train2 ++ test2)) as [ms2|] eqn:H2; simpl; [|done].
    intros [= <-] [= <-]. rewrite !split_back_flat. by eapply traverse_same.
Qed.

(** ** The returned split *)

Lemma concat_length_uniform {A} (ls : list (list A)) n :
  Forall (fun l => length l = n) ls → length (concat ls) = length ls * n.
Proof.
  induction 1 as [|l ls Hl _ IH]; [done|]. simpl. rewrite length_app, IH. lia.
Qed.

Lemma chunks_length {A} k : ∀ (l : list A) n step,
  0 < step → length l = k * step → length l ≤ n → length (chunks n step l) = k.
Proof.
  induction k as [|k IH]; intros l n step Hstep Hlen Hn.
  - destruct l; [|done]. by destruct n.
  - destruct n as [|n]; [simpl in *; lia|].
    destruct l as [|x l]; [simpl in *; lia|].
    cbn [chunks length]. f_equal. apply IH; [done| |]; rewrite length_drop;
      simpl in *; lia.
Qed.

Lemma chunks_concat {A} (ls : list (list A)) : ∀ n step,
  0 < step → Forall (fun l => length l = step) ls → length (concat ls) ≤ n →
  chunks n step (concat ls) = ls.
Proof.
  induction ls as [|l ls IH]; intros n step Hstep Hall Hn.
  - by destruct n.
  - inversion Hall as [|? ? Hl Hls]; subst. simpl in Hn. rewrite length_app in Hn.
    destruct n as [|n]; [lia|]. cbn [chunks concat].
    destruct (l ++ concat ls) as [|a rest] eqn:Happ.
    { apply (f_equal length) in Happ. rewrite length_app in Happ. simpl in Happ. lia. }
    rewrite <-Happ. rewrite take_app_length, drop_app_length. f_equal.
    apply IH; [done|done|lia].
Qed.

Lemma traverse_of_Forall2 {A B} (f : A → result B) l ys :
  Forall2 (fun x y => f x = Return y) l ys → traverse f l = Return ys.
Proof. induction 1 as [|x y l ys Hx _ IH]; simpl; [done|]. by rewrite Hx, IH. Qed.

Lemma traverse_bind {A B C} (f : A → result B) (g : B → result C)
    (h : A → result C) l ys zs :
  (∀ x, h x = (y <- f x ;; g y)) →
  traverse f l = Return ys → traverse g ys = Return zs → traverse h l = Return zs.
Proof.
  intros Hh Hf%traverse_Forall2 Hg%traverse_Forall2. apply traverse_of_Forall2.
  revert zs Hg. induction Hf as [|x y l ys Hx _ IH]; intros zs Hg.
  - inversion Hg. constructor.
  - inversion Hg as [|? z ? zs' Hy Hg']; subst. constructor; [|by apply IH].
    by rewrite Hh, Hx.
Qed.

Lemma traverse_all {A B} (f : A → result B) (Q : B → Prop) l ys :
  traverse f l = Return ys → (∀ x y, f x = Return y → Q y) → Forall Q ys.
Proof.
  intros H%traverse_Forall2 HQ. induction H; constructor; eauto.
Qed.

Lemma make_regressor_length (self : Transformer.t V) train test run_train run_test r :
  make_regressor self train test run_train run_test = Return r →
  ∃ ms, traverse (array_regressor self (run_train ++ run_test))
                 (imap pair (train ++ test)) = Return ms ∧
        length ms = length train + length test ∧
        R_train r = slice_to ms (- len test) ∧ R_test r = slice_from ms (- len test).
Proof.
  unfold make_regressor.
  destruct (traverse _ (imap pair (train ++ test))) as [per_array|] eqn:Hper;
    simpl; [|done].
  destruct (Nat.eqb_spec (length (indexes self)) 0) as [|Hstep]; [done|].
  destruct (traverse hstack _) as [ms|] eqn:Hms; simpl; [|done].
  intros [= <-]. exists ms.
  assert (Forall (fun l => length l = length (indexes self)) per_array) as Hall.
  { eapply traverse_all; [exact Hper|]. intros [i a] y Hy.
    apply traverse_length in Hy. by rewrite length_imap in Hy. }
  rewrite chunks_concat in Hms by (done || lia).
  split; [|split; [|done]].
  - eapply traverse_bind; [|exact Hper|exact Hms]. by intros [i a].
  - rewrite (traverse_length _ _ _ Hms), (traverse_length _ _ _ Hper).
    by rewrite length_imap, length_app.
Qed.

Lemma sliced_of_length (train test ms : list (ndarray V)) :
  length ms = length train + length test →
  sliced train test ms (slice_to ms (- len test)) (slice_from ms (- len test)).
Proof. apply split_back_sliced. Qed.

(** C10.  Whenever [standardize], [identity], [normalize] or
    [make_regressor] returns, there is the flattened list of the transformed
    matrices (the scaled, centred, normalised matrices, or the regressors of
    the input matrices, train matrices first), it has one matrix per input
    matrix, and the result holds its slices [[:-len(X_test)]] and
    [[-len(X_test):]]: for a non-empty test list the returned lists are as
    long as the input lists, and for an empty test list the returned train
    list is empty and the returned test list holds all the transformed
    matrices. *)
Theorem returned_split_is_sliced (self : Transformer.t V) (train test : list (ndarray V)) :
  (∀ r, standardize self train test = Return r →
        ∃ ms, traverse (standard_scaler (with_mean self) (with_std self))
                       (train ++ test) = Return ms ∧
              sliced train test ms (X_train r) (X_test r)) ∧
  (∀ centering r, identity self train test centering = Return r →
        ∃ ms, (if centering
               then traverse (standard_scaler true false) (train ++ test)
               else Return (train ++ test)) = Return ms ∧
              sliced train test ms (X_train r) (X_test r)) ∧
  (∀ order centering axis r,
        normalize self train test order centering axis = Return r →
        ∃ ms, traverse (normalize_one order centering axis) (train ++ test)
                = Return ms ∧
              sliced train test ms (X_train r) (X_test r)) ∧
  (∀ run_train run_test r,
        make_regressor self train test run_train run_test = Return r →
        ∃ ms, traverse (array_regressor self (run_train ++ run_test))
                       (imap pair (train ++ test)) = Return ms ∧
              sliced train test ms (R_train r) (R_test r)).
Proof.
  split; [|split; [|split]].
  - intros r. unfold standardize.
    destruct (traverse _ (train ++ test)) as [ms|] eqn:Hms; simpl; [|done].
    intros [= <-]. exists ms. split; [done|]. apply split_back_sliced.
    by rewrite (traverse_length _ _ _ Hms), length_app.
  - intros [] r; unfold identity.
    + destruct (traverse _ (train ++ test)) as [ms|] eqn:Hms; simpl; [|done].
      intros [= <-]. exists ms. split; [done|]. apply split_back_sliced.
      by rewrite (traverse_length _ _ _ Hms), length_app.
    + simpl. intros [= <-]. exists (train ++ test). split; [done|].
      apply split_back_sliced. by rewrite length_app.
  - intros order centering axis r. unfold normalize.
    destruct (traverse _ (train ++ test)) as [ms|] eqn:Hms; simpl; [|done].
    intros [= <-]. exists ms. split; [done|]. apply split_back_sliced.
    by rewrite (traverse_length _ _ _ Hms), length_app.
  - intros run_train run_test r Hr.
    destruct (make_regressor_length _ _ _ _ _ _ Hr) as (ms & Hms & Hlen & -> & ->).
    exists ms. split; [done|]. by apply sliced_of_length.
Qed.

(** ** Offsets and durations *)

Lemma last_index_Some run_index c :
  last_char run_index = Some c → last_index run_index = Return (String c EmptyString).
Proof. unfold last_index. by intros ->. Qed.

Lemma fetch_offsets_missing (offset_type run_index offset_path language : string) c :
  last_char run_index = Some c →
  read_csv (offsets_file offset_type (String c EmptyString) offset_path language) = None →
  fetch_offsets (V:=V) offset_type run_index offset_path language
    = Raise (Exception ("Please specify an offset file at: " +:+
               offsets_file offset_type (String c EmptyString) offset_path language)).
Proof.
  intros Hc Hmiss. unfold fetch_offsets. rewrite (last_index_Some _ _ Hc). simpl.
  by rewrite Hmiss.
Qed.

Lemma fetch_duration_missing (duration_type run_index duration_path : string) c n :
  last_char run_index = Some c →
  read_csv (durations_file duration_type (String c EmptyString) duration_path) = None →
  fetch_duration duration_type run_index duration_path n
    = Return (Vec (replicate n one)).
Proof.
  intros Hc Hmiss. unfold fetch_duration. rewrite (last_index_Some _ _ Hc). simpl.
  by rewrite Hmiss.
Qed.

Lemma compute_regressor_unit_durations (self : Transformer.t V) df
    (offset_type duration_type run_index : string) c :
  last_char run_index = Some c →
  read_csv (durations_file duration_type (String c EmptyString) (duration_path self))
    = None →
  compute_regressor self df offset_type duration_type run_index
    = (offsets <- fetch_offsets offset_type run_index (offset_path self) (language self) ;;
       regressors_of self (dropna df) run_index offsets
         (Vec (replicate (length (body (dropna df))) one))).
Proof.
  intros Hc Hmiss. unfold compute_regressor.
  by rewrite (fetch_duration_missing _ _ _ c _ Hc Hmiss).
Qed.

(** C6.  When the offsets file is missing, [fetch_offsets] (and with it
    [compute_regressor]) raises an exception whose message ends with the
    expected path; when the durations file is missing, [fetch_duration]
    returns a vector of ones of the requested length, and
    [compute_regressor] goes on with as many ones as the data frame has rows
    after the removal of the rows with a missing value. *)
Theorem missing_files (self : Transformer.t V) (df : frame V)
    (offset_type duration_type run_index : string) (c : ascii) :
  last_char run_index = Some c →
  let index := String c EmptyString in
  let offsets_path := offsets_file offset_type index (offset_path self) (language self) in
  (read_csv offsets_path = None →
   fetch_offsets (V:=V) offset_type run_index (offset_path self) (language self)
     = Raise (Exception ("Please specify an offset file at: " +:+ offsets_path)) ∧
   compute_regressor self df offset_type duration_type run_index
     = Raise (Exception ("Please specify an offset file at: " +:+ offsets_path))) ∧
  (read_csv (durations_file duration_type index (duration_path self)) = None →
   (∀ default_size,
      fetch_duration duration_type run_index (duration_path self) default_size
        = Return (Vec (replicate default_size one))) ∧
   compute_regressor self df offset_type duration_type run_index
     = (offsets <- fetch_offsets offset_type run_index (offset_path self) (language self) ;;
        regressors_of self (dropna df) run_index offsets
          (Vec (replicate (length (body (dropna df))) one)))).
Proof.
  intros Hc index offsets_path. split.
  - intros Hmiss.
    pose proof (fetch_offsets_missing offset_type run_index (offset_path self)
                  (language self) c Hc Hmiss) as Hfetch.
    split; [done|]. unfold compute_regressor. by rewrite Hfetch.
  - intros Hmiss. split.
    + intros n. by apply (fetch_duration_missing _ _ _ c).
    + by apply (compute_regressor_unit_durations _ _ _ _ _ c).
Qed.

(** ** The rows of a regressor *)

Lemma ceil_div_mul (n step : Z) : step ≠ 0%Z → ceil_div (n * step) step = n.
Proof.
  intros. unfold ceil_div. rewrite <-Z.mul_opp_l, Z.div_mul by done. lia.
Qed.

Lemma arange_frame_times (n step : Z) (times : list Z) :
  arange (n * step) step = Return times → step ≠ 0%Z ∧ times = frame_times_of n step.
Proof.
  unfold arange, frame_times_of. destruct (Z.eqb_spec step 0); [done|].
  intros [= <-]. by rewrite ceil_div_mul.
Qed.

Lemma frame_times_length (n step : Z) : length (frame_times_of n step) = Z.to_nat n.
Proof. unfold frame_times_of. by rewrite length_map, length_seq. Qed.

Lemma beside_length (rs : list (list V)) (ms : list (list (list V))) n :
  length rs = n → Forall (fun m => length m = n) ms → length (beside rs ms) = n.
Proof.
  unfold beside. intros Hrs Hms. revert rs Hrs.
  induction Hms as [|m ms Hm _ IH]; intros rs Hrs; [done|].
  simpl. apply IH. rewrite length_zip_with. lia.
Qed.



(** What a returning call of [column_regressor] has done. *)
Lemma column_regressor_inv (self : Transformer.t V) df run offsets duration it fr :
  column_regressor self df run offsets duration it = Return fr →
  ∃ amplitudes conditions n,
    column df it.1 = Return amplitudes ∧
    vstack [Vec offsets; duration; Vec amplitudes] = Return conditions ∧
    nscans self !! run = Some n ∧ tr self ≠ 0%Z ∧
    labels fr = it.2 :: map (fun item => it.2 +:+ "_" +:+ item)
                            (tail (hrf_names (hrf self))) ∧
    body fr = map (hrf_sample (hrf self) (oversampling self) conditions
                              (frame_times_of n (tr self)))
                  (frame_times_of n (tr self)).
Proof.
  unfold column_regressor. destruct it as [pos col].
  destruct (column df pos) as [amplitudes|] eqn:Ha; simpl; [|done].
  destruct (vstack _) as [conditions|] eqn:Hc; simpl; [|done].
  destruct (nscans self !! run) as [n|] eqn:Hn; simpl; [|done].
  destruct (arange _ _) as [times|] eqn:Ht; simpl; [|done].
  apply arange_frame_times in Ht as [Htr ->].
  destruct (hrf_raises _ _ _ _); simpl; [done|].
  destruct (forallb _ _); [|done]. intros [= <-].
  by exists amplitudes, conditions, n.
Qed.

Lemma column_regressor_rows (self : Transformer.t V) df run offsets duration it fr n :
  nscans self !! run = Some n →
  column_regressor self df run offsets duration it = Return fr →
  length (body fr) = Z.to_nat n.
Proof.
  intros Hn (a & c & n' & _ & _ & Hn' & _ & _ & ->)%column_regressor_inv.
  rewrite length_map, frame_times_length. congruence.
Qed.

(** What a returning call of [regressors_of] has done. *)
Lemma regressors_of_inv (self : Transformer.t V) df run offsets duration m :
  regressors_of self df run offsets duration = Return m →
  ∃ f fs,
    traverse (column_regressor self df run
                (map (fun o => add o (temporal_shifting self)) offsets) duration)
             (imap pair (labels df)) = Return (f :: fs) ∧
    m = mk_array (length (concat (map labels (f :: fs))))
                 (beside (body f) (map body fs)).
Proof.
  unfold regressors_of. destruct (same_kind _ _); simpl; [|done].
  destruct (traverse _ _) as [[|f fs]|] eqn:Hr; simpl; [done| |done].
  intros [= <-]. by exists f, fs.
Qed.

Lemma regressors_of_rows (self : Transformer.t V) df run offsets duration m n :
  nscans self !! run = Some n →
  regressors_of self df run offsets duration = Return m →
  length (rows m) = Z.to_nat n.
Proof.
  intros Hn (f & fs & Hr & ->)%regressors_of_inv. simpl.
  assert (Forall (fun fr => length (body fr) = Z.to_nat n) (f :: fs)) as Hall.
  { eapply traverse_all; [exact Hr|]. intros it fr. by apply column_regressor_rows. }
  inversion Hall as [|? ? Hf Hfs]; subst.
  apply beside_length; [done|]. by apply Forall_fmap.
Qed.

Lemma Forall2_middle {A B C} (P : A → C → Prop) (Q : B → C → Prop) l k :
  Forall2 (fun x y => ∃ z, Q y z ∧ P x z) l k →
  ∃ zs, Forall2 Q k zs ∧ Forall2 P l zs.
Proof.
  induction 1 as [|x y l k (z & Hy & Hx) _ (zs & H1 & H2)].
  - exists []. by split.
  - exists (z :: zs). by split; constructor.
Qed.


(** The restriction to an integer repetition time is needed: in double
    precision the frame times of 368 scans at a repetition time of 1.49 are
    369, while those of 282 scans are 282. *)
Lemma arange_length_float_tr :
  Doubles.arange_length 368 Doubles.tr_149 = Some 369 ∧
  Doubles.arange_length 282 Doubles.tr_149 = Some 282 ∧
  Doubles.arange_length 100 (Doubles.of_int 2) = Some 100.
Proof. by vm_compute. Qed.

End facts.

Lemma missing_files_data :
  fetch_offsets (disk:=empty_disk) (V:=option Z) "word" "run1" "offsets" "en"
    = Raise (Exception "Please specify an offset file at: offsets/en/word_run1.csv") ∧
  fetch_duration (num:=numbers) (disk:=disk) "word" "run1" "data" 3
    = Return (Vec [Some 1%Z; Some 1%Z; Some 1%Z]).
Proof.
  split.
  - destruct (missing_files (num:=numbers) (disk:=empty_disk) (lib:=library)
                transformer events "word" "word" "run1" "1"%char eq_refl) as [Ho _].
    destruct (Ho eq_refl) as [Hfetch _]. exact Hfetch.
  - destruct (missing_files (num:=numbers) (disk:=disk) (lib:=library)
                transformer events "word" "word" "run1" "1"%char eq_refl) as [_ Hd].
    destruct (Hd eq_refl) as [Hfetch _]. exact (Hfetch 3).
Defined.


(** The in-place shift of the offsets is refused for sums of another kind. *)
Lemma regressors_of_cast {V} {num : Scalar V} {lib : Services V}
    (self : Transformer.t V) df run offsets duration :
  same_kind offsets (temporal_shifting self) = false →
  regressors_of self df run offsets duration
    = Raise (TypeError "Cannot cast ufunc 'add' output to the type of the array").
Proof. intros H. unfold regressors_of. by rewrite H. Qed.


Lemma scaling_is_per_matrix_data :
  ∃ r1 r2,
    normalize (num:=numbers) (lib:=library) transformer [m1; m2] [m3] PyNone true 1
      = Return r1 ∧
    normalize (num:=numbers) (lib:=library) transformer [m3; m2] [] PyNone true 1
      = Return r2 ∧
    (X_train r1 ++ X_test r1) !! 1 = (X_train r2 ++ X_test r2) !! 1.
Proof.
  eexists _, _. split; [vm_compute; reflexivity|]. split; [vm_compute; reflexivity|].
  destruct (scaling_is_per_matrix (num:=numbers) (lib:=library) transformer
              [m1; m2] [m3] [m3; m2] [] 1 m2 eq_refl eq_refl) as (_ & _ & Hn).
  apply (Hn PyNone true 1%Z); vm_compute; reflexivity.
Defined.

Lemma returned_split_is_sliced_data :
  ∃ r1 r2 r3 r4,
    standardize (lib:=library) transformer [m1; m2] [m3] = Return r1 ∧
    identity (lib:=library) transformer [m1; m2] [] true = Return r2 ∧
    normalize (num:=numbers) (lib:=library) transformer [m1; m2] [m3] PyNone true 1
      = Return r3 ∧
    make_regressor (num:=numbers) (disk:=disk) (lib:=library) transformer
      [m1; m2] [] [0; 0]%Z [] = Return r4 ∧
    (∃ ms, traverse (standard_scaler (Services:=library) true true) ([m1; m2] ++ [m3])
             = Return ms ∧
           sliced [m1; m2] [m3] ms (X_train r1) (X_test r1)) ∧
    (∃ ms, traverse (standard_scaler (Services:=library) true false) ([m1; m2] ++ [])
             = Return ms ∧
           sliced [m1; m2] [] ms (X_train r2) (X_test r2)) ∧
    (∃ ms, traverse (normalize_one (num:=numbers) (lib:=library) PyNone true 1)
                    ([m1; m2] ++ [m3]) = Return ms ∧
           sliced [m1; m2] [m3] ms (X_train r3) (X_test r3)) ∧
    (∃ ms, traverse (array_regressor (num:=numbers) (disk:=disk) (lib:=library)
                       transformer ([0; 0]%Z ++ []))
                    (imap pair ([m1; m2] ++ [])) = Return ms ∧
           sliced [m1; m2] [] ms (R_train r4) (R_test r4)).
Proof.
  destruct (returned_split_is_sliced (num:=numbers) (disk:=disk) (lib:=library)
              transformer [m1; m2] [m3]) as (H1 & _ & H3 & _).
  destruct (returned_split_is_sliced (num:=numbers) (disk:=disk) (lib:=library)
              transformer [m1; m2] []) as (_ & H2 & _ & H4).
  eexists _, _, _, _.
  split; [vm_compute; reflexivity|]. split; [vm_compute; reflexivity|].
  split; [vm_compute; reflexivity|]. split; [vm_compute; reflexivity|].
  split; [apply H1; vm_compute; reflexivity|].
  split; [apply (H2 true); vm_compute; reflexivity|].
  split; [apply (H3 PyNone true 1%Z); vm_compute; reflexivity|].
  apply (H4 [0; 0]%Z []); vm_compute; reflexivity.
Defined.

End TransformerFacts.

(** * Further properties of the scheduler *)

Module PipelineMore.

Import Task Pipeline Invariants Graphs PipelineFacts.

(** ** [in_memory] *)

Section in_memory.

Variables (h : heap) (task : loc) (memory : list loc).

Abbreviation same := (same_name h task).

Lemma item_nonneg (i : nat) m :
  memory !! i = Some m → item memory (Z.of_nat i) = Return m.
Proof.
  intros Hm. unfold item.
  destruct (Z.ltb_spec (Z.of_nat i) 0); [lia|].
  destruct (Z.ltb_spec (Z.of_nat i) 0); [lia|].
  by rewrite Nat2Z.id, Hm.
Qed.

Lemma item_from_end (j : nat) m :
  reverse memory !! j = Some m → item memory (- Z.of_nat (S j)) = Return m.
Proof.
  intros Hm. pose proof (lookup_lt_Some _ _ _ Hm) as Hj.
  rewrite length_reverse in Hj. unfold item, len.
  destruct (Z.ltb_spec (- Z.of_nat (S j)) 0); [|lia].
  destruct (Z.ltb_spec (- Z.of_nat (S j) + Z.of_nat (length memory)) 0); [lia|].
  rewrite reverse_lookup in Hm by done.
  replace (Z.to_nat _) with (length memory - S j) by lia. by rewrite Hm.
Qed.

Lemma item_before_start :
  item memory (- Z.of_nat (S (length memory))) =
    Raise (IndexError "list index out of range").
Proof.
  unfold item, len.
  destruct (Z.ltb_spec (- Z.of_nat (S (length memory))) 0); [|lia].
  by destruct (Z.ltb_spec (- Z.of_nat (S (length memory)) + Z.of_nat (length memory)) 0);
    [|lia].
Qed.

(** From an index inside the list down to index 0 the loop goes on whatever
    has been found. *)
Lemma in_memory_down (m0 : loc) (i : nat) : ∀ fuel found,
  memory !! 0 = Some m0 → i < length memory →
  in_memory_loop (S i + fuel) h task memory found (Z.of_nat i) =
  in_memory_loop fuel h task memory (same m0) (-1).
Proof.
  intros fuel found H0. revert fuel found.
  induction i as [|i IH]; intros fuel found Hi.
  - cbn [Nat.add in_memory_loop]. change (Z.of_nat 0) with 0%Z.
    cbn [Z.leb Z.compare]. rewrite orb_true_r.
    change 0%Z with (Z.of_nat 0). by rewrite (item_nonneg 0 m0 H0).
  - destruct (lookup_lt_is_Some_2 memory (S i) Hi) as [m Hm].
    cbn [Nat.add in_memory_loop].
    destruct (Z.leb_spec 0 (Z.of_nat (S i))); [|lia]. rewrite orb_true_r.
    rewrite (item_nonneg (S i) m Hm).
    replace (Z.of_nat (S i) - 1)%Z with (Z.of_nat i) by lia.
    apply IH. lia.
Qed.

(** Below index 0 the loop scans the list from its end and stops at the
    first task with that name, or runs off the list. *)
Lemma in_memory_wrap (k : nat) : ∀ j fuel,
  j + k = length memory → k + 2 ≤ fuel →
  in_memory_loop fuel h task memory false (- Z.of_nat (S j)) =
  Some (if existsb same (drop j (reverse memory)) then Return true
        else Raise (IndexError "list index out of range")).
Proof.
  induction k as [|k IH]; intros j fuel Hj Hfuel.
  - destruct fuel as [|fuel]; [lia|]. cbn [in_memory_loop negb orb].
    replace j with (length memory) by lia. rewrite item_before_start.
    by rewrite drop_ge by (rewrite length_reverse; lia).
  - destruct fuel as [|fuel]; [lia|]. cbn [in_memory_loop negb orb].
    destruct (lookup_lt_is_Some_2 (reverse memory) j) as [m Hm];
      [rewrite length_reverse; lia|].
    rewrite (item_from_end j m Hm), (drop_S _ _ _ Hm). cbn [existsb].
    fold (same m). destruct (same m) eqn:Hsame.
    + destruct fuel as [|fuel]; [lia|]. cbn [in_memory_loop negb orb].
      by destruct (Z.leb_spec 0 (- Z.of_nat (S j) - 1)); [lia|].
    + replace (- Z.of_nat (S j) - 1)%Z with (- Z.of_nat (S (S j)))%Z by lia.
      apply IH; lia.
Qed.

Lemma existsb_reverse {A} (f : A → bool) (l : list A) :
  existsb f (reverse l) = existsb f l.
Proof.
  apply eq_true_iff_eq. rewrite !existsb_exists. split.
  - intros (x & Hx & Hf). exists x. split; [|done].
    by apply list_elem_of_In, elem_of_reverse, list_elem_of_In.
  - intros (x & Hx & Hf). exists x. split; [|done].
    by apply list_elem_of_In, elem_of_reverse, list_elem_of_In.
Qed.

(** X1.  [in_memory] never returns [False]: it returns [True] when a task of
    [memory] has the name of [task], and raises [IndexError] otherwise, in
    particular on an empty [memory]. *)
Theorem in_memory_true_or_raises :
  in_memory h task memory =
    Some (if existsb same memory then Return true
          else Raise (IndexError "list index out of range")).
Proof.
  unfold in_memory, len. destruct memory as [|m0 rest] eqn:Hmem.
  - reflexivity.
  - rewrite <-Hmem.
    assert (length memory = S (length rest)) as Hlen by (by rewrite Hmem).
    replace (Z.of_nat (length memory) - 1)%Z with (Z.of_nat (length rest)) by lia.
    replace (2 * length memory + 2) with (S (length rest) + (length memory + 2)) by lia.
    rewrite (in_memory_down m0); [|by rewrite Hmem|lia].
    assert (existsb same memory = same m0 || existsb same rest) as Hex
      by (by rewrite Hmem).
    destruct (same m0) eqn:Hsame.
    + rewrite Hex. simpl.
      replace (length memory + 2) with (S (length memory + 1)) by lia.
      by cbn [in_memory_loop negb orb Z.leb].
    + rewrite (in_memory_wrap (length memory) 0) by lia.
      by rewrite drop_0, existsb_reverse.
Qed.

End in_memory.

(** ** The order of any graph *)

Lemma fit_unfold h root lg out :
  fit h root lg = Some out →
  ∃ fuel s r, fit_loop fuel (fit_init h root lg) = Some (s, r) ∧ out = fit_end (s, r).
Proof.
  unfold fit, fit_fuel. intros ([s r] & Hloop & ->)%fmap_Some. by eexists _, s, r.
Qed.

(** X2.  Whatever the graph is (cyclic, with several sources, ...), as long
    as its links stay inside the heap and its tasks start not terminated,
    the order that [fit] leaves in [self.tasks] -- also when the call is
    aborted -- never holds a task twice, never holds a task that is not
    reachable from the root, and holds every parent of each of its tasks
    before that task. *)
Theorem fit_order_is_safe (h : heap) (root : loc) (lg : Logger.t) :
  all_pending h → closed h → root ∈ dom h →
  ∃ out ts, fit h root lg = Some out ∧ tasks (out_self out) = Some ts ∧
    NoDup ts ∧
    (∀ t, t ∈ ts → reachable h root t) ∧
    (∀ t p, t ∈ ts → depends h t p → before ts p t).
Proof.
  intros Hpend Hclosed Hroot.
  destruct (fit_is_Some h root lg) as [out Hout].
  destruct (fit_unfold _ _ _ _ Hout) as (fuel & s & r & Hloop & ->).
  pose proof (order_inv_final h root lg Hpend Hclosed Hroot fuel s r Hloop) as Hord.
  exists (fit_end (s, r)), (st_tasks s). split; [done|].
  split; [by destruct r|]. split; [apply (oi_nodup _ _ _ _ Hord)|]. split.
  - intros t Ht. apply (oi_reach _ _ _ _ Hord). by left.
  - apply (oi_before _ _ _ _ Hord).
Qed.

Lemma fit_order_is_safe_looped :
  ∃ out ts, fit looped 0 strict = Some out ∧ tasks (out_self out) = Some ts ∧
    NoDup ts ∧
    (∀ t, t ∈ ts → reachable looped 0 t) ∧
    (∀ t p, t ∈ ts → depends looped t p → before ts p t).
Proof.
  apply (fit_order_is_safe looped 0 strict).
  - apply (checked _). vm_compute. reflexivity.
  - apply (checked _). vm_compute. reflexivity.
  - apply (checked _). vm_compute. reflexivity.
Defined.

(** ** The flags after [fit] *)

Lemma with_terminated_twice b b' k :
  with_terminated b (with_terminated b' k) = with_terminated b k.
Proof. done. Qed.

Lemma with_terminated_same k : with_terminated (terminated k) k = k.
Proof. by destruct k. Qed.

Lemma reset_tasks_lookup ts : ∀ (h : heap) l,
  reset_tasks ts h !! l =
    if decide (l ∈ ts) then with_terminated false <$> h !! l else h !! l.
Proof.
  unfold reset_tasks. induction ts as [|t ts IH]; intros h l; cbn [foldl].
  - destruct (decide (l ∈ [])) as [[]%elem_of_nil|]; done.
  - rewrite IH. unfold set_terminated. rewrite lookup_alter.
    destruct (decide (l ∈ ts)) as [Hin|Hnot];
      destruct (decide (l ∈ t :: ts)) as [Hin'|Hnot'];
      destruct (decide (t = l)) as [->|Hne]; try done.
    + by destruct (h !! l).
    + destruct Hnot'. by apply elem_of_cons; right.
    + destruct Hnot'. by apply elem_of_cons; right.
    + by apply elem_of_cons in Hin' as [->|?].
    + destruct Hnot'. by apply elem_of_cons; left.
Qed.

(** During the loop a task differs from what it was only by its flag. *)
Lemma fit_loop_flags h root lg fuel s r :
  fit_loop fuel (fit_init h root lg) = Some (s, r) →
  ∀ l, st_heap s !! l = h !! l ∨ st_heap s !! l = with_terminated true <$> h !! l.
Proof.
  apply (fit_loop_invariant (fun s => ∀ l,
    st_heap s !! l = h !! l ∨ st_heap s !! l = with_terminated true <$> h !! l)).
  - intros s1 s2 H1 Hb l. destruct (fit_body_case s1) as
      [Hq|task queue Hq Hnt Hw Hz|task queue Hq Hnt Hw Hz|task queue Hq Hnt Hw|task queue Hq Hnt];
      try discriminate.
    + simpl in Hb. destruct (Logger.error_raises _); [discriminate|].
      injection Hb as <-. apply H1.
    + injection Hb as <-. apply H1.
    + injection Hb as <-. simpl. unfold set_terminated. rewrite lookup_alter.
      case_decide; [subst l|apply H1]. right.
      destruct (H1 task) as [->| ->]; [done|]. by destruct (h !! task).
    + injection Hb as <-. apply H1.
  - intros s1 s2 e H1 Hb l. destruct (fit_body_case s1); try discriminate.
    simpl in Hb. destruct (Logger.error_raises _); [|discriminate].
    injection Hb as <- _. apply H1.
  - by left.
Qed.

(** X3.  A call of [fit] that returns leaves every task exactly as it found
    it (the flags set while ordering are all reset), provided the tasks
    started not terminated. *)
Theorem fit_leaves_heap_unchanged (h : heap) (root : loc) (lg : Logger.t)
    (out : outcome unit) :
  all_pending h → fit h root lg = Some out → out_result out = Return tt →
  out_heap out = h.
Proof.
  intros Hpend Hout Hret.
  destruct (fit_unfold _ _ _ _ Hout) as (fuel & s & r & Hloop & ->).
  destruct r as [e|]; [done|]. simpl. apply map_eq. intros l.
  pose proof (fit_loop_flags _ _ _ _ _ _ Hloop l) as Hflag.
  pose proof (run_inv_final h root lg fuel s None Hpend Hloop) as Hrun.
  rewrite reset_tasks_lookup.
  assert (with_terminated false <$> h !! l = h !! l) as Hsame.
  { destruct (h !! l) as [k|] eqn:Hk; [|done]. simpl. f_equal.
    rewrite <-(Hpend l k Hk). apply with_terminated_same. }
  destruct (decide (l ∈ st_tasks s)) as [Hin|Hnot].
  - destruct Hflag as [-> | ->]; [done|]. rewrite <-Hsame at 2.
    by destruct (h !! l).
  - destruct Hflag as [-> | Hflag]; [done|].
    destruct (h !! l) as [k|] eqn:Hk; [|done]. destruct Hnot.
    apply (ri_terminated _ _ _ Hrun). unfold is_terminated. by rewrite Hflag.
Qed.

Lemma fit_leaves_heap_unchanged_comb :
  ∃ out, fit comb 0 quiet = Some out ∧ out_heap out = comb.
Proof.
  destruct (fit_is_Some comb 0 quiet) as [out Hout]. exists out. split; [done|].
  apply (fit_leaves_heap_unchanged comb 0 quiet out).
  - apply (checked _). vm_compute. reflexivity.
  - exact Hout.
  - assert (out_result <$> fit comb 0 quiet = Some (Return tt)) as Hres
      by (vm_compute; reflexivity).
    rewrite Hout in Hres. by injection Hres.
Defined.

(** On a root that is already terminated the loop drops it at once. *)
Lemma fit_terminated_root (h : heap) (root : loc) (lg : Logger.t) :
  is_terminated h root = true →
  fit h root lg =
    Some (mk_outcome h (mk (Some [])) (Logger.info fitted_without_error lg) (Return tt)).
Proof.
  intros Ht. unfold fit, fit_fuel.
  assert (fit_loop 2 (fit_init h root lg) = Some (mk_state h [] 1 [] lg, None)) as Hloop.
  { unfold fit_loop, fit_body, fit_init. cbn -[is_terminated is_waiting].
    rewrite Ht. reflexivity. }
  rewrite (fit_loop_more 2 _ _ _ Hloop); [done|]. unfold measure. simpl. lia.
Qed.

(** X4.  A call of [fit] that is aborted by the logger does not reset the
    flags: every task ordered so far stays terminated, so that a new call
    of [fit] from any of them (the root, say) orders nothing and reports
    success. *)
Theorem fit_aborted_keeps_flags (h : heap) (root : loc) (lg : Logger.t)
    (out : outcome unit) (e : exn) :
  all_pending h → closed h → root ∈ dom h →
  fit h root lg = Some out → out_result out = Raise e →
  ∃ ts, tasks (out_self out) = Some ts ∧
    ∀ t, t ∈ ts →
      is_terminated (out_heap out) t = true ∧
      ∀ lg', fit (out_heap out) t lg' =
        Some (mk_outcome (out_heap out) (mk (Some []))
                (Logger.info fitted_without_error lg') (Return tt)).
Proof.
  intros Hpend Hclosed Hroot Hout Hraise.
  destruct (fit_unfold _ _ _ _ Hout) as (fuel & s & r & Hloop & ->).
  destruct r as [e'|]; [|done]. simpl in *. exists (st_tasks s). split; [done|].
  pose proof (order_inv_final h root lg Hpend Hclosed Hroot fuel s _ Hloop) as Hord.
  intros t Ht. pose proof (oi_tasks _ _ _ _ Hord t Ht) as Hterm.
  split; [done|]. intros lg'. by apply fit_terminated_root.
Qed.

Lemma fit_aborted_keeps_flags_comb :
  ∃ out ts, fit comb 0 strict = Some out ∧ tasks (out_self out) = Some ts ∧
    ∀ t, t ∈ ts →
      is_terminated (out_heap out) t = true ∧
      ∀ lg', fit (out_heap out) t lg' =
        Some (mk_outcome (out_heap out) (mk (Some []))
                (Logger.info fitted_without_error lg') (Return tt)).
Proof.
  destruct (fit_is_Some comb 0 strict) as [out Hout].
  assert (out_result <$> fit comb 0 strict = Some (Raise (Exception loop_detected)))
    as Hres by (vm_compute; reflexivity).
  rewrite Hout in Hres. injection Hres as Hres.
  destruct (fit_aborted_keeps_flags comb 0 strict out (Exception loop_detected))
    as (ts & Hts & Hall).
  - apply (checked _). vm_compute. reflexivity.
  - apply (checked _). vm_compute. reflexivity.
  - apply (checked _). vm_compute. reflexivity.
  - exact Hout.
  - exact Hres.
  - exists out, ts. split; [exact Hout|]. split; [exact Hts|exact Hall].
Defined.

(** ** The heap after [compute] *)

Lemma get_parents_execute h l x : get_parents (execute h l) x = get_parents h x.
Proof.
  unfold execute, get_parents. destruct (h !! l) as [k|] eqn:Hk; [|done].
  destruct (decide (l = x)) as [->|Hne].
  - by rewrite lookup_insert_eq, Hk.
  - by rewrite lookup_insert_ne.
Qed.

Lemma is_terminated_execute h l x : is_terminated (execute h l) x = is_terminated h x.
Proof.
  unfold execute, is_terminated. destruct (h !! l) as [k|] eqn:Hk; [|done].
  destruct (decide (l = x)) as [->|Hne].
  - by rewrite lookup_insert_eq, Hk.
  - by rewrite lookup_insert_ne.
Qed.

Lemma get_output_execute_ne h l x : x ≠ l → get_output (execute h l) x = get_output h x.
Proof.
  intros Hne. unfold execute, get_output. destruct (h !! l) as [k|]; [|done].
  by rewrite lookup_insert_ne.
Qed.

Lemma get_output_execute h l k :
  h !! l = Some k →
  get_output (execute h l) l = operation k (map (get_output h) (parents k)).
Proof.
  intros Hk. unfold execute. rewrite Hk. unfold get_output at 1.
  by rewrite lookup_insert_eq.
Qed.

Lemma executes_parents ts : ∀ h x,
  get_parents (foldl execute h ts) x = get_parents h x.
Proof.
  induction ts as [|t ts IH]; intros h x; [done|].
  simpl. by rewrite IH, get_parents_execute.
Qed.

Lemma executes_terminated ts : ∀ h x,
  is_terminated (foldl execute h ts) x = is_terminated h x.
Proof.
  induction ts as [|t ts IH]; intros h x; [done|].
  simpl. by rewrite IH, is_terminated_execute.
Qed.

Lemma executes_output ts : ∀ h x,
  x ∉ ts → get_output (foldl execute h ts) x = get_output h x.
Proof.
  induction ts as [|t ts IH]; intros h x Hx; [done|].
  apply not_elem_of_cons in Hx as [Hne Hx].
  simpl. by rewrite IH, get_output_execute_ne.
Qed.

Lemma compute_loop_heap r (its : list (nat * loc)) :
  run_heap (foldl compute_body r its) = foldl execute (run_heap r) its.*2.
Proof.
  revert r. induction its as [|[i t] its IH]; intros r; [done|].
  simpl. by rewrite IH.
Qed.

Section compute.

Variables (h : heap) (first : loc) (rest : list loc) (k : Task.t).
Variables (X Y : pyval) (path : string) (lg : Logger.t).
Hypothesis first_task : h !! first = Some k.
Hypothesis links_closed : closed h.

Abbreviation e := (fresh (dom h)).
Abbreviation payload :=
  (with_terminated true (with_output (inputs X Y) Task.new)).
Abbreviation linked_heap :=
  (add_input_dependencies (<[e := payload]> h) first e).

Lemma fresh_task : e ∉ dom h.
Proof. apply is_fresh. Qed.

Lemma fresh_not_first : e ≠ first.
Proof.
  intros Heq. apply fresh_task. rewrite Heq. apply elem_of_dom. by eexists.
Qed.

Lemma fresh_not_parent : e ∉ parents k.
Proof.
  intros Hin. apply fresh_task.
  specialize (links_closed first k first_task). rewrite Forall_forall in links_closed.
  apply links_closed, elem_of_app. by left.
Qed.

Lemma linked_first :
  linked_heap !! first = Some (with_parents (parents k ++ [e]) k).
Proof.
  unfold add_input_dependencies.
  rewrite lookup_alter_ne by apply fresh_not_first.
  rewrite lookup_alter_eq, lookup_insert_ne by apply fresh_not_first.
  rewrite first_task. simpl.
  by rewrite bool_decide_eq_false_2 by apply fresh_not_parent.
Qed.

Lemma linked_fresh :
  linked_heap !! e = Some (with_children [first] payload).
Proof.
  unfold add_input_dependencies.
  rewrite lookup_alter_eq, lookup_alter_ne by (apply not_eq_sym, fresh_not_first).
  by rewrite lookup_insert_eq.
Qed.

Lemma linked_other l : l ≠ first → l ≠ e → linked_heap !! l = h !! l.
Proof.
  intros H1 H2. unfold add_input_dependencies.
  rewrite lookup_alter_ne, lookup_alter_ne, lookup_insert_ne by done. done.
Qed.

Lemma linked_output p : p ∈ parents k → get_output linked_heap p = get_output h p.
Proof.
  intros Hp. unfold get_output. destruct (decide (p = first)) as [->|Hne].
  - by rewrite linked_first, first_task.
  - rewrite linked_other; [done|done|].
    intros ->. by apply fresh_not_parent.
Qed.

Lemma compute_heap :
  run_heap (after (compute h (mk (Some (first :: rest))) X Y path lg))
    = foldl execute linked_heap (first :: rest).
Proof.
  unfold compute. cbn [tasks after run_heap]. rewrite compute_loop_heap.
  cbn [run_heap]. f_equal. apply imap_snd. done.
Qed.

(** X5.  Each call of [compute] on a fitted order creates a new task, marks
    it terminated, and registers it as one more parent, the last one, of the
    first task of the order; the parent is still there when [compute]
    returns, so that the first task has one more parent after every call. *)
Theorem compute_adds_a_parent :
  let c := compute h (mk (Some (first :: rest))) X Y path lg in
  (e ∉ dom h) ∧
  get_parents (run_heap (after c)) first = get_parents h first ++ [e] ∧
  is_terminated (run_heap (after c)) e = true.
Proof.
  cbv zeta. rewrite compute_heap. split; [apply fresh_task|]. split.
  - rewrite executes_parents. unfold get_parents. by rewrite linked_first, first_task.
  - rewrite executes_terminated. unfold is_terminated. by rewrite linked_fresh.
Qed.

(** X6.  When the first task of the order does not come again later in the
    order, [compute] leaves as its output the result of its operation on
    the outputs its parents had before the call, followed by the initial
    inputs; this is what [compute] returns when the order is that single
    task.  On a second call the first task so gets the inputs of both
    calls. *)
Theorem compute_feeds_first_task :
  first ∉ rest →
  let c := compute h (mk (Some (first :: rest))) X Y path lg in
  let v := operation k (map (get_output h) (parents k) ++ [inputs X Y]) in
  get_output (run_heap (after c)) first = v ∧
  (rest = [] → returned c = Return v).
Proof.
  intros Hnot. cbv zeta.
  assert (get_output (run_heap (after (compute h (mk (Some (first :: rest))) X Y path lg)))
            first
          = operation k (map (get_output h) (parents k) ++ [inputs X Y])) as Hout.
  { rewrite compute_heap. cbn [foldl]. rewrite executes_output by done.
    rewrite (get_output_execute _ _ _ linked_first). simpl.
    rewrite map_app. f_equal. f_equal.
    - apply map_ext_in. intros p Hp. by apply linked_output, list_elem_of_In.
    - simpl. unfold get_output. by rewrite linked_fresh. }
  split; [done|]. intros ->. rewrite <-Hout. reflexivity.
Qed.

End compute.

Lemma compute_adds_a_parent_diamond :
  let c := compute diamond (mk (Some [0; 2; 1; 3])) PyNone PyNone "" quiet in
  (fresh (dom diamond) ∉ dom diamond) ∧
  get_parents (run_heap (after c)) 0 = get_parents diamond 0 ++ [fresh (dom diamond)] ∧
  is_terminated (run_heap (after c)) (fresh (dom diamond)) = true.
Proof.
  apply (compute_adds_a_parent diamond 0 [2; 1; 3] (task "root" [] [1; 2])).
  - vm_compute. reflexivity.
  - apply (checked _). vm_compute. reflexivity.
Defined.

Lemma compute_feeds_first_task_diamond :
  (let c := compute fed (mk (Some [0; 2; 1; 3])) (PyInt 3) (PyInt 4) "out" quiet in
   let v := operation fed_root
              (map (get_output fed) (parents fed_root) ++ [inputs (PyInt 3) (PyInt 4)]) in
   get_output (run_heap (after c)) 0 = v ∧
   ([2; 1; 3] = @nil loc → returned c = Return v)) ∧
  operation fed_root
    (map (get_output fed) (parents fed_root) ++ [inputs (PyInt 3) (PyInt 4)])
  = PyList [inputs (PyInt 1) (PyInt 2); inputs (PyInt 3) (PyInt 4)] ∧
  (let c := compute diamond (mk (Some [0])) (PyInt 1) (PyInt 2) "out" quiet in
   let v := PyList ([] ++ [inputs (PyInt 1) (PyInt 2)]) in
   get_output (run_heap (after c)) 0 = v ∧ ([] = @nil loc → returned c = Return v)).
Proof.
  split; [|split].
  - apply (compute_feeds_first_task fed 0 [2; 1; 3] fed_root).
    + vm_compute. reflexivity.
    + apply (checked _). vm_compute. reflexivity.
    + apply (checked _). vm_compute. reflexivity.
  - vm_compute. reflexivity.
  - apply (compute_feeds_first_task diamond 0 [] (task "root" [] [1; 2])).
    + vm_compute. reflexivity.
    + apply (checked _). vm_compute. reflexivity.
    + apply not_elem_of_nil.
Defined.

(** ** Termination *)

(** X24.  The loop of [fit] ends on every task graph, cyclic or not, and
    with every logger: it takes at most two iterations plus, for each task
    that is not terminated, one plus twice the number of its children, so
    that any higher bound on the iterations gives the result of [fit]. *)
Theorem fit_terminates_within (h : heap) (root : loc) (lg : Logger.t) (fuel : nat) :
  2 + weight h < fuel →
  ∃ out, fit_fuel fuel h root lg = Some out ∧ fit h root lg = Some out.
Proof.
  intros Hfuel. destruct (fit_is_Some h root lg) as [out Hout].
  exists out. split; [|done]. rewrite fit_fuel_enough; [done|].
  unfold measure. simpl. lia.
Qed.

Lemma fit_terminates_within_looped :
  ∃ out, fit_fuel 12 looped 0 quiet = Some out ∧ fit looped 0 quiet = Some out.
Proof.
  apply fit_terminates_within.
  assert (weight looped = 9) as -> by (by vm_compute). lia.
Defined.

End PipelineMore.

(** * Further properties of the transformer *)

Module TransformerMore.

Import Numpy Pandas Utils Transformer Data TransformerFacts.

(** ** Loops that raise *)

Lemma traverse_Raise {A B} (f : A → result B) l e :
  traverse f l = Raise e →
  ∃ j x, l !! j = Some x ∧ f x = Raise e ∧
         ∀ i y, i < j → l !! i = Some y → ∃ z, f y = Return z.
Proof.
  induction l as [|a l IH]; [done|]. simpl.
  destruct (f a) as [b|e'] eqn:Ha; simpl.
  - destruct (traverse f l) as [ys|e'] eqn:Hl; simpl; [done|].
    intros [= ->]. destruct (IH eq_refl) as (j & x & Hj & Hx & Hbefore).
    exists (S j), x. split; [done|]. split; [done|].
    intros [|i] y Hi Hy.
    + injection Hy as <-. by eexists.
    + apply (Hbefore i); [lia|done].
  - intros [= ->]. exists 0, a. split; [done|]. split; [done|]. intros; lia.
Qed.

Lemma traverse_Return_iff {A B} (f : A → result B) l :
  (∃ ys, traverse f l = Return ys) ↔ Forall (fun x => ∃ y, f x = Return y) l.
Proof.
  split; [|apply traverse_Return].
  intros [ys H%traverse_Forall2]. induction H; constructor; eauto.
Qed.

Section more.

Context {V : Type} {num : Scalar V} {disk : Files V} {lib : Services V}.

(** ** [standardize] and the errors of the scaler *)

(** X7.  [standardize] returns exactly when the scaler returns on every
    matrix of the train and test lists; otherwise it raises the exception
    of the first matrix (train before test) on which the scaler fails, and
    nothing is returned for the other matrices. *)
Theorem standardize_all_or_nothing (self : Transformer.t V)
    (train test : list (ndarray V)) :
  let scaler := standard_scaler (with_mean self) (with_std self) in
  ((∃ r, standardize self train test = Return r) ↔
   Forall (fun m => ∃ m', scaler m = Return m') (train ++ test)) ∧
  (∀ e, standardize self train test = Raise e →
     ∃ j m, (train ++ test) !! j = Some m ∧ scaler m = Raise e ∧
            ∀ i mi, i < j → (train ++ test) !! i = Some mi →
                    ∃ m', scaler mi = Return m').
Proof.
  cbv zeta. unfold standardize. split.
  - rewrite <-traverse_Return_iff. split.
    + intros [r Hr]. destruct (traverse _ _) as [ms|]; [by eexists|done].
    + intros [ms ->]. by eexists.
  - intros e He. apply traverse_Raise.
    by destruct (traverse _ _) as [ms|e']; simpl in He; [|injection He as ->].
Qed.

(** ** [make_regressor] *)

(** X8.  Without any model ([indexes] is empty) [make_regressor] raises
    [ValueError] on every input, also when there is no matrix at all. *)
Theorem make_regressor_without_models (self : Transformer.t V)
    (train test : list (ndarray V)) (run_train run_test : list Z) :
  indexes self = [] →
  make_regressor self train test run_train run_test
    = Raise (ValueError "range() arg 3 must not be zero").
Proof.
  intros Hidx. unfold make_regressor. rewrite Hidx.
  destruct (traverse_Return
    (fun '(array_index, a) =>
       traverse (model_regressor self (run_train ++ run_test) array_index a)
                (imap pair (@nil (list Z))))
    (imap pair (train ++ test))) as [per_array ->]; [|done].
  apply Forall_forall. intros [i a] _. by eexists.
Qed.

Lemma column_regressor_nscans (self : Transformer.t V) df run offsets duration it fr :
  column_regressor self df run offsets duration it = Return fr →
  is_Some (nscans self !! run) ∧ tr self ≠ 0%Z.
Proof.
  intros (a & c & n & _ & _ & Hn & Htr & _)%column_regressor_inv.
  split; [by eexists|done].
Qed.

Lemma regressors_of_needs (self : Transformer.t V) df run offsets duration m :
  regressors_of self df run offsets duration = Return m →
  labels df ≠ [] ∧ is_Some (nscans self !! run) ∧ tr self ≠ 0%Z.
Proof.
  intros (f & fs & Hr & _)%regressors_of_inv.
  pose proof (traverse_length _ _ _ Hr) as Hlen. rewrite length_imap in Hlen.
  destruct (labels df) as [|col cols] eqn:Hlab; [done|]. split; [done|].
  apply traverse_Forall2 in Hr. simpl in Hr.
  inversion Hr as [|? ? ? ? Hcol _]; subst.
  by eapply column_regressor_nscans.
Qed.

(** X9.  [compute_regressor] never returns a matrix unless the run name is
    not empty, the offsets file exists, the data frame has at least one
    column, the run has a scan count and [tr] is not zero. *)
Theorem compute_regressor_returns_only_if (self : Transformer.t V) (df : frame V)
    (offset_type duration_type run_index : string) (m : ndarray V) :
  compute_regressor self df offset_type duration_type run_index = Return m →
  (∃ c, last_char run_index = Some c ∧
        is_Some (read_csv (offsets_file offset_type (String c EmptyString)
                             (offset_path self) (language self)))) ∧
  labels df ≠ [] ∧ is_Some (nscans self !! run_index) ∧ tr self ≠ 0%Z.
Proof.
  unfold compute_regressor, fetch_offsets, last_index.
  destruct (last_char run_index) as [c|]; simpl; [|done].
  destruct (read_csv _) as [csv|] eqn:Hcsv; simpl; [|done].
  destruct (getitem csv "offsets") as [offsets|]; simpl; [|done].
  destruct (fetch_duration _ _ _ _) as [duration|]; simpl; [|done].
  intros Hm%regressors_of_needs. split; [|done]. exists c. by rewrite Hcsv.
Qed.

Lemma compute_regressor_Return_rows (self : Transformer.t V) df ot dt run m :
  compute_regressor self df ot dt run = Return m →
  ∃ n, nscans self !! run = Some n ∧ length (rows m) = Z.to_nat n.
Proof.
  intros Hm. unfold compute_regressor in Hm.
  destruct (fetch_offsets _ _ _ _) as [offsets|]; simpl in Hm; [|done].
  destruct (fetch_duration _ _ _ _) as [duration|]; simpl in Hm; [|done].
  destruct (regressors_of_needs _ _ _ _ _ _ Hm) as (_ & [n Hn] & _).
  exists n. split; [done|]. by eapply regressors_of_rows.
Qed.

Lemma model_regressor_Return (self : Transformer.t V) runs j a it m :
  model_regressor self runs j a it = Return m →
  ∃ run n, runs !! j = Some run ∧
    nscans self !! ("run" +:+ pretty (run + 1)%Z) = Some n ∧
    length (rows m) = Z.to_nat n.
Proof.
  unfold model_regressor. destruct it as [i index].
  destruct (take_columns a index); simpl; [|done].
  destruct (runs !! j) as [run|]; simpl; [|done].
  destruct (lookup_key _ _ _); simpl; [|done].
  destruct (lookup_key _ _ _); simpl; [|done].
  intros (n & Hn & Hrows)%compute_regressor_Return_rows. by exists run, n.
Qed.

Lemma hstack_rows (ms : list (ndarray V)) m0 m :
  head ms = Some m0 → hstack ms = Return m → length (rows m) = length (rows m0).
Proof.
  destruct ms as [|m1 ms]; [done|]. intros [= ->]. unfold hstack.
  destruct (forallb _ ms) eqn:Hall; [|done]. intros [= <-]. simpl.
  apply beside_length; [done|]. apply Forall_fmap, Forall_forall. intros x Hx.
  rewrite forallb_forall in Hall. apply Nat.eqb_eq, Hall. by apply list_elem_of_In.
Qed.

(** X10.  For an integer repetition time: whenever [make_regressor] returns,
    the k-th returned matrix (train matrices first) has as many rows as the
    scan count of the run of the k-th input matrix; in particular every
    input matrix has a run number and its run, numbered from 1, has a scan
    count.  (For a repetition time that is not an integer the frame times
    can be one more, see [arange_length_float_tr].) *)
Theorem make_regressor_rows (self : Transformer.t V)
    (train test : list (ndarray V)) (run_train run_test : list Z)
    (r : regressed V) (k : nat) (m : ndarray V) :
  make_regressor self train test run_train run_test = Return r →
  (R_train r ++ R_test r) !! k = Some m →
  ∃ run n, (run_train ++ run_test) !! k = Some run ∧
    nscans self !! ("run" +:+ pretty (run + 1)%Z) = Some n ∧
    length (rows m) = Z.to_nat n.
Proof.
  unfold make_regressor.
  destruct (traverse _ (imap pair (train ++ test))) as [per_array|] eqn:Hper;
    simpl; [|done].
  destruct (Nat.eqb_spec (length (indexes self)) 0) as [|Hstep]; [done|].
  destruct (traverse hstack _) as [ms|] eqn:Hms; simpl; [|done].
  intros [= <-]. simpl. rewrite slices_append. intros Hk.
  assert (Forall (fun l => length l = length (indexes self)) per_array) as Hall.
  { eapply traverse_all; [exact Hper|]. intros [i a] y Hy.
    apply traverse_length in Hy. by rewrite length_imap in Hy. }
  rewrite chunks_concat in Hms by (done || lia).
  apply traverse_Forall2 in Hms.
  destruct (Forall2_lookup_r _ _ _ k m Hms Hk) as (regs & Hregs & Hstack).
  apply traverse_Forall2 in Hper.
  destruct (Forall2_lookup_r _ _ _ k regs Hper Hregs) as ([j a] & Hja & Hinner).
  apply list_lookup_imap_Some in Hja as (a' & Ha' & [= -> ->]).
  destruct regs as [|m0 regs'] eqn:Hr.
  { rewrite Forall_forall in Hall. apply list_elem_of_lookup_2, Hall in Hregs.
    simpl in Hregs. lia. }
  apply traverse_Forall2 in Hinner.
  inversion Hinner as [|it ? its ? Hm0 _ Hits]; subst.
  destruct (model_regressor_Return _ _ _ _ _ _ Hm0) as (run & n & Hrun & Hn & Hrows).
  exists run, n. split; [done|]. split; [done|].
  by rewrite (hstack_rows (m0 :: regs') m0 m eq_refl Hstack).
Qed.

(** ** The columns of the regressors *)

Lemma column_regressor_labels (self : Transformer.t V) df run offsets duration it fr :
  column_regressor self df run offsets duration it = Return fr →
  length (labels fr) = S (length (tail (hrf_names (hrf self)))).
Proof.
  intros (a & c & n & _ & _ & _ & _ & -> & _)%column_regressor_inv.
  simpl. by rewrite length_map.
Qed.

Lemma regressors_of_ncols (self : Transformer.t V) df run offsets duration m :
  regressors_of self df run offsets duration = Return m →
  ncols m = length (labels df) * S (length (tail (hrf_names (hrf self)))).
Proof.
  intros (f & fs & Hr & ->)%regressors_of_inv. cbn [ncols].
  pose proof (traverse_length _ _ _ Hr) as Hlen. rewrite length_imap in Hlen.
  rewrite <-Hlen, <-length_map with (f := labels).
  apply concat_length_uniform, Forall_fmap.
  eapply traverse_all; [exact Hr|]. intros it fr Hfr. simpl.
  by eapply column_regressor_labels.
Qed.

Lemma model_regressor_ncols (self : Transformer.t V) runs j a it m :
  model_regressor self runs j a it = Return m →
  ncols m = length it.2 * S (length (tail (hrf_names (hrf self)))).
Proof.
  unfold model_regressor. destruct it as [i index].
  destruct (take_columns a index) as [sub|] eqn:Hsub; simpl; [|done].
  destruct (runs !! j) as [run|]; simpl; [|done].
  destruct (lookup_key _ _ _); simpl; [|done].
  destruct (lookup_key _ _ _); simpl; [|done].
  unfold compute_regressor.
  destruct (fetch_offsets _ _ _ _); simpl; [|done].
  destruct (fetch_duration _ _ _ _); simpl; [|done].
  intros ->%regressors_of_ncols. simpl. rewrite length_map, length_seq.
  unfold take_columns in Hsub. destruct (mapM _ index); [|done].
  destruct (mapM _ (rows a)); [|done]. by injection Hsub as <-.
Qed.

Lemma hstack_ncols (ms : list (ndarray V)) (m : ndarray V) :
  hstack ms = Return m → ncols m = sum_list (map ncols ms).
Proof.
  unfold hstack. destruct ms as [|m0 ms]; [done|].
  destruct (forallb _ ms); [|done]. by intros [= <-].
Qed.

(** X23.  Whenever [make_regressor] returns, every returned matrix has one
    column per model column and HRF regressor name: the number of entries
    of all the index lists, times the number of names of the HRF model (at
    least one). *)
Theorem make_regressor_columns (self : Transformer.t V)
    (train test : list (ndarray V)) (run_train run_test : list Z)
    (r : regressed V) (m : ndarray V) :
  make_regressor self train test run_train run_test = Return r →
  m ∈ R_train r ++ R_test r →
  ncols m = length (concat (indexes self))
            * S (length (tail (hrf_names (hrf self)))).
Proof.
  unfold make_regressor.
  destruct (traverse _ (imap pair (train ++ test))) as [per_array|] eqn:Hper;
    simpl; [|done].
  destruct (Nat.eqb_spec (length (indexes self)) 0) as [|Hstep]; [done|].
  destruct (traverse hstack _) as [ms|] eqn:Hms; simpl; [|done].
  intros [= <-]. simpl. rewrite slices_append. intros [k Hk]%list_elem_of_lookup.
  assert (Forall (fun l => length l = length (indexes self)) per_array) as Hall.
  { eapply traverse_all; [exact Hper|]. intros [i a] y Hy.
    apply traverse_length in Hy. by rewrite length_imap in Hy. }
  rewrite chunks_concat in Hms by (done || lia).
  apply traverse_Forall2 in Hms.
  destruct (Forall2_lookup_r _ _ _ k m Hms Hk) as (regs & Hregs & Hstack).
  apply traverse_Forall2 in Hper.
  destruct (Forall2_lookup_r _ _ _ k regs Hper Hregs) as ([j a] & Hja & Hinner).
  rewrite (hstack_ncols _ _ Hstack).
  apply traverse_Forall2 in Hinner.
  assert (Forall2 (fun index m' =>
            ncols m' = length index * S (length (tail (hrf_names (hrf self)))))
          (indexes self) regs) as Hcols.
  { rewrite <-(PipelineFacts.imap_snd pair (indexes self)) by done.
    apply Forall2_fmap_l. eapply Forall2_impl; [exact Hinner|].
    intros it m' Hm'. exact (model_regressor_ncols _ _ _ _ _ _ Hm'). }
  clear -Hcols. induction Hcols as [|index m' idxs regs Hm' _ IH]; [done|].
  simpl. rewrite length_app, IH, Hm'. lia.
Qed.

(** ** The run name *)

(** X11.  [fetch_offsets] and [fetch_duration] look at the last character
    of the run name only: two run names that end with the same character
    (such as run1 and run11) read the same files and give the same result. *)
Theorem fetch_uses_last_character (offset_type duration_type offset_path
    duration_path language run_index run_index' : string) (c : ascii) (n : nat) :
  last_char run_index = Some c → last_char run_index' = Some c →
  fetch_offsets (V:=V) offset_type run_index offset_path language
    = fetch_offsets offset_type run_index' offset_path language ∧
  fetch_duration duration_type run_index duration_path n
    = fetch_duration duration_type run_index' duration_path n.
Proof.
  intros H1 H2. unfold fetch_offsets, fetch_duration, last_index.
  by rewrite H1, H2.
Qed.

End more.

Lemma standardize_all_or_nothing_data :
  ∃ r, standardize (lib:=library) transformer [m1; m2] [m3] = Return r.
Proof.
  destruct (standardize_all_or_nothing (lib:=library) transformer [m1; m2] [m3])
    as [[_ Hret] _].
  apply Hret. repeat constructor; by eexists.
Defined.

Lemma make_regressor_without_models_data :
  make_regressor (num:=numbers) (disk:=disk) (lib:=library)
    {| tr := 2; nscans := ∅; indexes := []; scaling_types := []; centering := [];
       scaling_axis := 1; order := []; offset_type_dict := ∅;
       duration_type_dict := ∅; offset_path := "offsets"; duration_path := "data";
       language := "en"; temporal_shifting := None; hrf := "spm";
       oversampling := 10; with_mean := true; with_std := true |}
    [m1] [] [0%Z] []
  = Raise (ValueError "range() arg 3 must not be zero").
Proof. by apply make_regressor_without_models. Defined.

Lemma compute_regressor_returns_only_if_data :
  (∃ c, last_char "run1" = Some c ∧
        is_Some (read_csv (Files:=disk) (offsets_file "word" (String c EmptyString)
                             (offset_path transformer) (language transformer)))) ∧
  labels events ≠ [] ∧ is_Some (nscans transformer !! "run1") ∧ tr transformer ≠ 0%Z.
Proof.
  destruct (compute_regressor (num:=numbers) (disk:=disk) (lib:=library)
              transformer events "word" "word" "run1") as [m|e] eqn:Hm;
    [|by vm_compute in Hm].
  exact (compute_regressor_returns_only_if (num:=numbers) (disk:=disk) (lib:=library)
           transformer events "word" "word" "run1" m Hm).
Defined.

Lemma make_regressor_rows_data :
  ∃ r m, make_regressor (num:=numbers) (disk:=disk) (lib:=library) transformer
           [m1; m2] [m3] [0; 0]%Z [0]%Z = Return r ∧
         (R_train r ++ R_test r) !! 2 = Some m ∧
         ∃ run n, ([0; 0] ++ [0])%Z !! 2 = Some run ∧
           nscans transformer !! ("run" +:+ pretty (run + 1)%Z) = Some n ∧
           length (rows m) = Z.to_nat n.
Proof.
  destruct (make_regressor (num:=numbers) (disk:=disk) (lib:=library) transformer
              [m1; m2] [m3] [0; 0]%Z [0]%Z) as [r|e] eqn:Hr; [|by vm_compute in Hr].
  destruct ((R_train r ++ R_test r) !! 2) as [m|] eqn:Hm.
  - exists r, m. split; [done|]. split; [done|].
    exact (make_regressor_rows (num:=numbers) (disk:=disk) (lib:=library) transformer
             [m1; m2] [m3] [0; 0]%Z [0]%Z r 2 m Hr Hm).
  - exfalso. vm_compute in Hr. injection Hr as <-. by vm_compute in Hm.
Defined.

Lemma make_regressor_columns_data :
  ∃ r, make_regressor (num:=numbers) (disk:=disk) (lib:=library) transformer
         [m1; m2] [m3] [0; 0]%Z [0]%Z = Return r ∧
       Forall (fun m => ncols m = 1) (R_train r ++ R_test r).
Proof.
  destruct (make_regressor (num:=numbers) (disk:=disk) (lib:=library) transformer
              [m1; m2] [m3] [0; 0]%Z [0]%Z) as [r|e] eqn:Hr; [|by vm_compute in Hr].
  exists r. split; [done|]. apply Forall_forall. intros m Hm.
  exact (make_regressor_columns (num:=numbers) (disk:=disk) (lib:=library) transformer
           [m1; m2] [m3] [0; 0]%Z [0]%Z r m Hr Hm).
Defined.

Lemma fetch_uses_last_character_data :
  fetch_offsets (disk:=disk) "word" "run11" "offsets" "en"
    = Return [Some 0%Z; Some 2%Z; Some 4%Z].
Proof.
  destruct (fetch_uses_last_character (num:=numbers) (disk:=disk)
              "word" "word" "offsets" "data" "en" "run11" "run1" "1"%char 3
              eq_refl eq_refl) as [-> _].
  vm_compute. reflexivity.
Defined.

End TransformerMore.

(** * Properties of the helpers of utils.py *)

Module HelpersFacts.

Import Numpy Helpers.

(** ** [merge_dict] *)

Lemma foldl_insert_union {V} (l : list (string * V)) : ∀ acc : gmap string V,
  NoDup l.*1 →
  foldl (fun result '(key, value) => <[key := value]> result) acc l
    = list_to_map l ∪ acc.
Proof.
  induction l as [|[k v] l IH]; intros acc Hnd.
  - simpl. by rewrite (left_id_L ∅ (∪)).
  - rewrite fmap_cons in Hnd. apply NoDup_cons in Hnd as [Hk Hnd].
    cbn [foldl]. rewrite list_to_map_cons, IH by done.
    rewrite <-insert_union_l. symmetry. apply insert_union_r.
    by apply not_elem_of_list_to_map_1.
Qed.

Lemma merge_dict_snoc {V} (ds : list (gmap string V)) (d : gmap string V) :
  merge_dict (ds ++ [d]) = d ∪ merge_dict ds.
Proof.
  unfold merge_dict. rewrite bind_app, foldl_app. simpl. rewrite app_nil_r.
  rewrite foldl_insert_union by apply NoDup_fst_map_to_list.
  by rewrite list_to_map_to_list.
Qed.

(** X12.  [merge_dict] gives a key the value of the last dictionary of the
    list that holds it, and holds no other key. *)
Theorem merge_dict_last_wins {V} (list_of_dict : list (gmap string V))
    (key : string) (value : V) :
  merge_dict list_of_dict !! key = Some value ↔
  ∃ i d, list_of_dict !! i = Some d ∧ d !! key = Some value ∧
         ∀ j d', i < j → list_of_dict !! j = Some d' → d' !! key = None.
Proof.
  induction list_of_dict as [|d ds IH] using rev_ind.
  - unfold merge_dict. simpl. rewrite lookup_empty. split; [done|].
    by intros (i & d & Hi & _).
  - rewrite merge_dict_snoc, lookup_union_Some_raw. split.
    + intros [Hd|[Hd Hds]].
      * exists (length ds), d. split; [by rewrite list_lookup_middle|].
        split; [done|]. intros j d' Hj Hd'.
        apply lookup_lt_Some in Hd'. rewrite length_app in Hd'. simpl in Hd'. lia.
      * apply IH in Hds as (i & d0 & Hi & Hd0 & Hlater).
        exists i, d0. split; [by apply lookup_app_l_Some|]. split; [done|].
        intros j d' Hj Hd'. apply lookup_app_Some in Hd' as [Hd'|[Hlen Hd']].
        -- by apply (Hlater j).
        -- apply list_lookup_singleton_Some in Hd' as [_ <-]. done.
    + intros (i & d0 & Hi & Hd0 & Hlater).
      apply lookup_app_Some in Hi as [Hi|[Hlen Hi]].
      * right. split.
        -- apply (Hlater (length ds)); [by apply lookup_lt_Some in Hi|].
           by rewrite list_lookup_middle.
        -- apply IH. exists i, d0. split; [done|]. split; [done|].
           intros j d' Hj Hd'. apply (Hlater j); [done|].
           by apply lookup_app_l_Some.
      * apply list_lookup_singleton_Some in Hi as [_ <-]. by left.
Qed.

(** ** [filter_args] *)

Lemma filter_args_loop {V} (d : gmap string V) (keys : list string) (k : string) :
  ∀ acc : gmap string V,
  foldl (fun args key =>
           if negb (String.eqb key "self")
           then match d !! key with
                | Some value => <[key := value]> args
                | None => args
                end
           else args) acc keys !! k
  = if decide (k ∈ keys ∧ k ≠ "self")
    then match d !! k with Some v => Some v | None => acc !! k end
    else acc !! k.
Proof.
  induction keys as [|key keys IH]; intros acc; cbn [foldl].
  - destruct (decide _) as [[H _]|_]; [|done]. by apply elem_of_nil in H.
  - rewrite IH. clear IH.
    assert (k ∈ key :: keys ↔ k = key ∨ k ∈ keys) as Hin by apply elem_of_cons.
    destruct (String.eqb_spec key "self") as [->|Hself]; cbn [negb].
    + destruct (decide (k ∈ keys ∧ k ≠ "self")) as [[H1 H2]|H1];
        destruct (decide (k ∈ "self" :: keys ∧ k ≠ "self")) as [[H3 H4]|H3];
        try done.
      * exfalso. apply H3. split; [apply Hin; by right|done].
      * exfalso. apply H1. split; [|done]. apply Hin in H3 as [?|?]; done.
    + destruct (decide (k = key)) as [->|Hne].
      * destruct (decide (key ∈ key :: keys ∧ key ≠ "self")) as [_|H3];
          [|exfalso; apply H3; split; [apply Hin; by left|done]].
        destruct (d !! key) as [v|] eqn:Hkey.
        -- rewrite lookup_insert_eq. by destruct (decide _).
        -- by destruct (decide _).
      * assert ((match d !! key with
                 | Some value => <[key:=value]> acc
                 | None => acc
                 end) !! k = acc !! k) as ->.
        { destruct (d !! key); [by rewrite lookup_insert_ne|done]. }
        destruct (decide (k ∈ keys ∧ k ≠ "self")) as [[H1 H2]|H1];
          destruct (decide (k ∈ key :: keys ∧ k ≠ "self")) as [[H3 H4]|H3];
          try done.
        -- exfalso. apply H3. split; [apply Hin; by right|done].
        -- exfalso. apply H1. split; [|done]. apply Hin in H3 as [?|?]; done.
Qed.

(** X13.  [filter_args] returns the entries of [d] at the argument names of
    the function other than [self], and nothing else. *)
Theorem filter_args_lookup {V} (keys : list string) (d : gmap string V) (k : string) :
  filter_args keys d !! k
  = if decide (k ∈ keys ∧ k ≠ "self") then d !! k else None.
Proof.
  unfold filter_args. rewrite filter_args_loop, lookup_empty.
  case_decide; [|done]. by destruct (d !! k).
Qed.

(** ** [clean_nan_rows] *)

Section clean.

Context {V : Type} {num : Scalar V}.

Lemma vstack_Vec (kept : list (list V)) (b : ndarray V) :
  vstack (map Vec kept) = Return b ↔
  ∃ v0 rest, kept = v0 :: rest ∧ Forall (fun v => length v = length v0) rest ∧
             b = mk_array (length v0) kept.
Proof.
  unfold vstack. destruct kept as [|v0 rest]; simpl.
  { split; [done|]. by intros (? & ? & ? & _). }
  assert (concat (map rows (map atleast_2d (map Vec rest))) = rest) as ->.
  { induction rest as [|v rest IH]; simpl; [done|]. by rewrite IH. }
  destruct (forallb _ _) eqn:Hall.
  - split.
    + intros [= <-]. exists v0, rest. split; [done|]. split; [|done].
      rewrite forallb_forall in Hall. apply Forall_forall. intros v Hv.
      apply Nat.eqb_eq.
      apply (Hall (atleast_2d (Vec v))).
      apply in_map_iff. exists (Vec v). split; [done|].
      apply in_map_iff. exists v. split; [done|]. by apply list_elem_of_In.
    + by intros (? & ? & [= <- <-] & _ & ->).
  - split; [done|]. intros (? & ? & [= <- <-] & Hrest & _). exfalso.
    apply Bool.not_true_iff_false in Hall. apply Hall.
    apply forallb_forall. intros m Hm.
    apply in_map_iff in Hm as (a & <- & Ha).
    apply in_map_iff in Ha as (v & <- & Hv). simpl.
    rewrite Forall_forall in Hrest. apply Nat.eqb_eq, Hrest. by apply list_elem_of_In.
Qed.

Lemma concat_filter_nonempty (l : list (list V)) :
  concat (List.filter (fun row => Nat.ltb 0 (length row)) l) = concat l.
Proof.
  induction l as [|[|x row] l IH]; simpl; [done|done|]. by rewrite IH.
Qed.

Lemma concat_map_filter (p : V → bool) (l : list (list V)) :
  concat (map (List.filter p) l) = List.filter p (concat l).
Proof.
  induction l as [|row l IH]; simpl; [done|].
  by rewrite IH, List.filter_app.
Qed.

Lemma filter_all {A} (p : A → bool) (l : list A) :
  Forall (fun x => p x = true) l → List.filter p l = l.
Proof.
  induction 1 as [|x l Hx _ IH]; simpl; [done|]. by rewrite Hx, IH.
Qed.

(** X14.  When [clean_nan_rows] returns, the result holds exactly the
    values of the array that are not NaN, in their order; it has at least
    one row, its rows have the same positive length, and cleaning it again
    gives it back.  (A row with some NaN values is shortened, not removed.) *)
Theorem clean_nan_rows_keeps_numbers (a b : ndarray V) :
  clean_nan_rows a = Return b →
  concat (rows b) = List.filter (fun x => negb (isnan x)) (concat (rows a)) ∧
  rows b ≠ [] ∧ 0 < ncols b ∧
  Forall (fun row => length row = ncols b) (rows b) ∧
  clean_nan_rows b = Return b.
Proof.
  unfold clean_nan_rows at 1. intros (v0 & rest & Hkept & Hrest & ->)%vstack_Vec.
  cbn [rows ncols].
  assert (Forall (fun row => 0 < length row ∧
                             Forall (fun x => negb (isnan x) = true) row)
                 (v0 :: rest)) as Hgood.
  { rewrite <-Hkept. apply Forall_forall. intros row Hrow.
    apply list_elem_of_In, filter_In in Hrow as [Hrow Hlen].
    apply Nat.ltb_lt in Hlen. split; [done|].
    apply in_map_iff in Hrow as (row0 & <- & _).
    apply Forall_forall. intros x Hx.
    by apply list_elem_of_In, filter_In in Hx as [_ Hx]. }
  split; [rewrite concat_filter_nonempty; apply concat_map_filter|].
  rewrite Hkept. split; [done|].
  inversion Hgood as [|? ? [Hv0 _] Hgood']; subst. split; [done|].
  split; [by constructor|].
  unfold clean_nan_rows. cbn [rows].
  assert (map (List.filter (fun x => negb (isnan x))) (v0 :: rest) = v0 :: rest) as ->.
  { clear -Hgood. induction Hgood as [|row l [_ Hrow] _ IH]; [done|].
    cbn [map]. by rewrite IH, filter_all. }
  rewrite filter_all.
  - apply vstack_Vec. by exists v0, rest.
  - eapply Forall_impl; [exact Hgood|]. intros row [Hlen _]. by apply Nat.ltb_lt.
Qed.

(** An array without any number cannot be cleaned. *)
Lemma clean_nan_rows_all_nan (a : ndarray V) :
  Forall (Forall (fun x => isnan x = true)) (rows a) →
  clean_nan_rows a = Raise (ValueError "need at least one array to concatenate").
Proof.
  intros Hall. unfold clean_nan_rows.
  assert (List.filter (fun row => Nat.ltb 0 (length row))
            (map (List.filter (fun x => negb (isnan x))) (rows a)) = []) as ->; [|done].
  induction Hall as [|row l Hrow _ IH]; [done|]. cbn [map].
  assert (List.filter (fun x => negb (isnan x)) row = []) as ->; [|done].
  clear -Hrow. induction Hrow as [|x row Hx _ IH]; [done|]. simpl. by rewrite Hx.
Qed.

End clean.

Lemma clean_nan_rows_keeps_numbers_data :
  let a := mk_array 2 [[Some 1%Z; None]; [None; None]; [None; Some 3%Z]] in
  let b := mk_array 1 [[Some 1%Z]; [Some 3%Z]] in
  clean_nan_rows (num:=Data.numbers) a = Return b ∧
  clean_nan_rows (num:=Data.numbers) b = Return b.
Proof.
  cbv zeta.
  assert (clean_nan_rows (num:=Data.numbers)
            (mk_array 2 [[Some 1%Z; None]; [None; None]; [None; Some 3%Z]])
          = Return (mk_array 1 [[Some 1%Z]; [Some 3%Z]])) as Ha by (by vm_compute).
  split; [exact Ha|].
  destruct (clean_nan_rows_keeps_numbers (num:=Data.numbers) _ _ Ha)
    as (_ & _ & _ & _ & Hb).
  exact Hb.
Defined.

(** ** [get_subject_name] *)

Lemma pretty_N_go_length (x : N) : ∀ s,
  String.length s ≤ String.length (pretty_N_go x s).
Proof.
  induction (N.lt_wf_0 x) as [x _ IH]; intros s.
  assert (x = 0 ∨ 0 < x)%N as [->|Hx] by lia; [by rewrite pretty_N_go_0|].
  rewrite pretty_N_go_step by done.
  etrans; [|by eapply IH, N.div_lt]. simpl. lia.
Qed.

Lemma length_append (s1 s2 : string) :
  String.length (s1 +:+ s2) = String.length s1 + String.length s2.
Proof.
  induction s1 as [|c s1 IH]; [done|].
  change (String c s1 +:+ s2) with (String c (s1 +:+ s2)). simpl. by rewrite IH.
Qed.

Lemma pretty_long (b : Z) : (1000 ≤ b)%Z → 4 ≤ String.length (pretty b).
Proof.
  intros Hb. destruct b as [|p|p]; try lia.
  change (pretty (Z.pos p)) with (pretty (N.pos p)).
  unfold pretty, pretty_N. rewrite decide_False by done.
  assert (100 ≤ N.pos p `div` 10)%N as H1 by (apply N.div_le_lower_bound; lia).
  assert (10 ≤ (N.pos p `div` 10) `div` 10)%N as H2
    by (apply N.div_le_lower_bound; lia).
  assert (1 ≤ ((N.pos p `div` 10) `div` 10) `div` 10)%N as H3
    by (apply N.div_le_lower_bound; lia).
  rewrite !pretty_N_go_step by lia.
  etrans; [|apply pretty_N_go_length]. simpl. lia.
Qed.

Lemma padded (n : Z) :
  (0 ≤ n < 1000)%Z →
  ∃ s, pretty (1000 + n)%Z = String "1" s ∧
       get_subject_name (Number n) = "sub-" +:+ s ∧ String.length s = 3.
Proof.
  intros Hn.
  assert (forallb (fun n =>
            match pretty (1000 + n)%Z with
            | String c s =>
                Ascii.eqb c "1" && String.eqb (get_subject_name (Number n)) ("sub-" +:+ s)
                && Nat.eqb (String.length s) 3
            | EmptyString => false
            end) (seqZ 0 1000) = true) as Hall by (vm_compute; reflexivity).
  rewrite forallb_forall in Hall.
  specialize (Hall n). destruct (pretty (1000 + n)%Z) as [|c s].
  { exfalso. apply Bool.diff_false_true, Hall, list_elem_of_In, elem_of_seqZ. lia. }
  exists s.
  assert (n ∈ seqZ 0 1000) as Hin%list_elem_of_In%Hall by (apply elem_of_seqZ; lia).
  apply andb_prop in Hin as [[Hc Hname]%andb_prop Hlen].
  apply Ascii.eqb_eq in Hc as ->. apply String.eqb_eq in Hname.
  by apply Nat.eqb_eq in Hlen.
Qed.

Lemma plain (n : Z) :
  (100 ≤ n)%Z → get_subject_name (Number n) = "sub-" +:+ pretty n.
Proof.
  intros Hn. unfold get_subject_name.
  destruct (Z.ltb_spec n 10); [lia|]. destruct (Z.ltb_spec n 100); [lia|done].
Qed.

(** X15.  On the non-negative integers [get_subject_name] gives distinct
    names to distinct ids, and every id below 1000 gets a name of seven
    characters. *)
Theorem subject_names_distinct (a b : Z) :
  (0 ≤ a)%Z → (0 ≤ b)%Z →
  (get_subject_name (Number a) = get_subject_name (Number b) → a = b) ∧
  ((a < 1000)%Z → String.length (get_subject_name (Number a)) = 7).
Proof.
  intros Ha Hb. split.
  - intros Heq.
    destruct (Z.lt_ge_cases a 1000) as [Ha'|Ha'];
      destruct (Z.lt_ge_cases b 1000) as [Hb'|Hb'].
    + destruct (padded a) as (sa & Hpa & Hna & _); [lia|].
      destruct (padded b) as (sb & Hpb & Hnb & _); [lia|].
      rewrite Hna, Hnb in Heq. apply (inj (String.append _)) in Heq as ->.
      rewrite <-Hpb in Hpa. apply (inj pretty) in Hpa. lia.
    + exfalso. destruct (padded a) as (sa & _ & Hna & Hla); [lia|].
      apply (f_equal String.length) in Heq.
      rewrite Hna, plain, !length_append in Heq by lia. simpl in Heq.
      pose proof (pretty_long b Hb'). lia.
    + exfalso. destruct (padded b) as (sb & _ & Hnb & Hlb); [lia|].
      apply (f_equal String.length) in Heq.
      rewrite Hnb, plain, !length_append in Heq by lia. simpl in Heq.
      pose proof (pretty_long a Ha'). lia.
    + rewrite !plain in Heq by lia. apply (inj (String.append _)) in Heq.
      by apply (inj pretty) in Heq.
  - intros Ha'. destruct (padded a) as (sa & _ & -> & Hla); [lia|].
    by rewrite length_append, Hla.
Qed.

Lemma subject_names_distinct_57 :
  (get_subject_name (Number 57) = get_subject_name (Number 570) → 57 = 570)%Z ∧
  ((57 < 1000)%Z → String.length (get_subject_name (Number 57)) = 7).
Proof. apply (subject_names_distinct 57 570); lia. Defined.

(** ** The settings of the compression and of the transformer *)

Lemma foldM_app {A S} (f : S → A → result S) (l1 l2 : list A) : ∀ s,
  foldM f s (l1 ++ l2) = (s' <- foldM f s l1 ;; foldM f s' l2).
Proof.
  induction l1 as [|x l1 IH]; intros s; simpl; [done|].
  destruct (f s x) as [s'|e]; simpl; [apply IH|done].
Qed.

Lemma ranges_snoc (ws : list Z) (w : Z) : ∀ start,
  ranges start (ws ++ [w]) = ranges start ws ++ [seqZ (start + total ws) w].
Proof.
  induction ws as [|w' ws IH]; intros start; simpl.
  - by rewrite Z.add_0_r.
  - rewrite IH. change (total (w' :: ws)) with (w' + total ws)%Z.
    by rewrite Z.add_assoc.
Qed.

Lemma total_snoc (ws : list Z) (w : Z) : total (ws ++ [w]) = (total ws + w)%Z.
Proof.
  unfold total. induction ws as [|w' ws IH]; simpl; [lia|]. rewrite IH. lia.
Qed.

Lemma total_nonneg (ws : list Z) : Forall (fun w => 0 ≤ w)%Z ws → (0 ≤ total ws)%Z.
Proof. unfold total. induction 1; simpl; lia. Qed.

Lemma ranges_length (ws : list Z) : ∀ start, length (ranges start ws) = length ws.
Proof. induction ws as [|w ws IH]; intros start; simpl; [done|]. by rewrite IH. Qed.

Lemma ranges_concat (ws : list Z) : ∀ start,
  Forall (fun w => 0 ≤ w)%Z ws → concat (ranges start ws) = seqZ start (total ws).
Proof.
  induction ws as [|w ws IH]; intros start Hws; simpl; [done|].
  inversion Hws as [|? ? Hw Hws']; subst.
  rewrite IH by done. change (total (w :: ws)) with (w + total ws)%Z.
  pose proof (total_nonneg ws Hws'). by rewrite seqZ_app by lia.
Qed.

Lemma ranges_widths (ws : list Z) : ∀ start,
  Forall (fun w => 0 ≤ w)%Z ws → Forall2 (fun ix w => len ix = w) (ranges start ws) ws.
Proof.
  induction ws as [|w ws IH]; intros start Hws; simpl; [constructor|].
  inversion Hws as [|? ? Hw Hws']; subst. constructor; [|by apply IH].
  unfold len. rewrite length_seqZ. lia.
Qed.

Lemma total_columns (models : list Model.t) :
  total (map (fun m => len (Model.columns_to_retrieve m)) models)
  = len (models ≫= Model.columns_to_retrieve).
Proof.
  induction models as [|m ms IH]; [done|].
  change (total (map (fun m => len (Model.columns_to_retrieve m)) (m :: ms))) with
    (len (Model.columns_to_retrieve m)
     + total (map (fun m => len (Model.columns_to_retrieve m)) ms))%Z.
  rewrite IH, bind_cons. unfold len. rewrite length_app. lia.
Qed.

Lemma compression_loop (models : list Model.t) :
  foldl (fun '(i, indexes, compression_types, n_components_list) model =>
           ((i + len (Model.columns_to_retrieve model))%Z,
            indexes ++ [arange_from i (len (Model.columns_to_retrieve model) + i)],
            compression_types ++ [or_identity (Model.data_compression model)],
            n_components_list ++ [Model.ncomponents model]))
        (0%Z, [], [], []) models
  = (total (map (fun m => len (Model.columns_to_retrieve m)) models),
     ranges 0 (map (fun m => len (Model.columns_to_retrieve m)) models),
     map (fun m => or_identity (Model.data_compression m)) models,
     map Model.ncomponents models).
Proof.
  induction models as [|m models IH] using rev_ind; [done|].
  rewrite foldl_app, IH. cbn [foldl].
  rewrite !map_app. cbn [map]. rewrite total_snoc, ranges_snoc.
  do 5 f_equal. unfold arange_from. f_equal; lia.
Qed.

(** X16.  The index ranges that [get_compression_information] gives to the
    models follow one another without gap or overlap: there is one range
    per model, with one index per retrieved column, and together they are
    0, 1, ... up to the total number of retrieved columns.  A model without
    compression gets the type [identity]. *)
Theorem compression_indexes_tile {V} (parameters : Parameters.t V) :
  let models := Parameters.models parameters in
  let c := get_compression_information parameters in
  Forall2 (fun ix m => length ix = length (Model.columns_to_retrieve m))
          (Compression.indexes c) models ∧
  concat (Compression.indexes c)
    = seqZ 0 (len (models ≫= Model.columns_to_retrieve)) ∧
  Compression.compression_types c
    = map (fun m => or_identity (Model.data_compression m)) models ∧
  Compression.n_components_list c = map Model.ncomponents models.
Proof.
  cbv zeta. unfold get_compression_information.
  rewrite compression_loop. cbn [Compression.indexes
    Compression.compression_types Compression.n_components_list].
  set (ws := map _ (Parameters.models parameters)).
  assert (Forall (fun w => 0 ≤ w)%Z ws) as Hws.
  { apply Forall_fmap, Forall_true. intros m. unfold len. simpl. lia. }
  split; [|split; [|done]].
  - pose proof (ranges_widths ws 0 Hws) as H. subst ws.
    apply Forall2_fmap_r in H. eapply Forall2_impl; [exact H|].
    intros ix m. unfold len. simpl. lia.
  - rewrite ranges_concat by done. f_equal. apply total_columns.
Qed.

Lemma run_key_inj (i j : Z) : run_key i = run_key j → i = j.
Proof. unfold run_key. intros H%(inj (String.append _)). by apply (inj pretty). Qed.

Lemma run_key_elem (r : Z) (rs : list Z) : run_key r ∈ map run_key rs ↔ r ∈ rs.
Proof.
  rewrite list_elem_of_fmap. split.
  - by intros (r' & ->%run_key_inj & Hr').
  - intros Hr. by exists r.
Qed.

Lemma runs_dict_loop (rs : list Z) (key : string) : ∀ acc : gmap string (list string),
  foldl (fun d i => <[run_key i := []]> d) acc rs !! key
  = if decide (key ∈ map run_key rs) then Some [] else acc !! key.
Proof.
  induction rs as [|r rs IH]; intros acc; cbn [foldl map].
  - destruct (decide _) as [H|_]; [by apply elem_of_nil in H|done].
  - rewrite IH. destruct (decide (key ∈ map run_key rs)) as [Hin|Hin].
    + rewrite decide_True; [done|]. by apply elem_of_cons; right.
    + destruct (decide (key = run_key r)) as [->|Hne].
      * rewrite lookup_insert_eq. rewrite decide_True; [done|]. by apply elem_of_cons; left.
      * rewrite lookup_insert_ne by done. rewrite decide_False; [done|].
        by intros [?|?]%elem_of_cons.
Qed.

Lemma runs_dict_holds (nb_runs : Z) :
  holds_at (map run_key (seqZ 1 nb_runs)) [] (runs_dict nb_runs).
Proof.
  intros key. unfold runs_dict. rewrite runs_dict_loop.
  by destruct (decide _).
Qed.

Lemma append_loop (x y : string) (rs : list Z) :
  NoDup rs → ∀ o d : gmap string (list string),
  (∀ r, r ∈ rs → is_Some (o !! run_key r) ∧ is_Some (d !! run_key r)) →
  ∃ o' d',
    foldM (fun '(offsets, durations) run_index =>
             offsets <- append_at offsets (run_key run_index) x ;;
             durations <- append_at durations (run_key run_index) y ;;
             Return (offsets, durations)) (o, d) rs = Return (o', d') ∧
    (∀ key, o' !! key = if decide (key ∈ map run_key rs)
                        then (fun l => l ++ [x]) <$> o !! key else o !! key) ∧
    (∀ key, d' !! key = if decide (key ∈ map run_key rs)
                        then (fun l => l ++ [y]) <$> d !! key else d !! key).
Proof.
  induction 1 as [|r rs Hr Hnd IH]; intros o d Hkeys.
  - exists o, d. split; [done|]. split; intros key;
      (destruct (decide _) as [H|_]; [by apply elem_of_nil in H|done]).
  - destruct (Hkeys r) as [[lo Hlo] [ld Hld]]; [by left|].
    cbn [foldM]. unfold append_at at 1 2. rewrite Hlo, Hld. cbn [bind].
    destruct (IH (<[run_key r := lo ++ [x]]> o) (<[run_key r := ld ++ [y]]> d))
      as (o' & d' & Hloop & Ho' & Hd').
    { intros r' Hr'. assert (run_key r ≠ run_key r') as Hne.
      { intros ->%run_key_inj. done. }
      rewrite !lookup_insert_ne by done. apply Hkeys. by right. }
    exists o', d'. split; [exact Hloop|].
    assert (∀ key, key ∈ map run_key (r :: rs) ↔ key = run_key r ∨ key ∈ map run_key rs)
      as Hin by (intros key; apply elem_of_cons).
    split; intros key; [rewrite Ho'|rewrite Hd'];
      (destruct (decide (key = run_key r)) as [->|Hne];
       [ rewrite lookup_insert_eq, decide_False by (by rewrite run_key_elem);
         rewrite decide_True by (apply Hin; by left);
         by rewrite ?Hlo, ?Hld
       | rewrite lookup_insert_ne by done;
         destruct (decide (key ∈ map run_key rs)) as [H1|H1];
         [ by rewrite decide_True by (apply Hin; by right)
         | rewrite decide_False; [done|]; by intros [?|?]%Hin ] ]).
Qed.

Lemma gather_step (nb_runs i_ : Z) (new_indexes : list (list Z))
    (o d : gmap string (list string)) (xs ys : list string) (m : Model.t) :
  holds_at (map run_key (seqZ 1 nb_runs)) xs o →
  holds_at (map run_key (seqZ 1 nb_runs)) ys d →
  ∃ o' d',
    gather nb_runs (i_, new_indexes, o, d) m
      = Return ((i_ + width m)%Z, new_indexes ++ [seqZ i_ (width m)], o', d') ∧
    holds_at (map run_key (seqZ 1 nb_runs)) (xs ++ [Model.offset_type m]) o' ∧
    holds_at (map run_key (seqZ 1 nb_runs)) (ys ++ [Model.duration_type m]) d'.
Proof.
  intros Ho Hd.
  destruct (append_loop (Model.offset_type m) (Model.duration_type m)
              (seqZ 1 nb_runs) (NoDup_seqZ _ _) o d) as (o' & d' & Hloop & Ho' & Hd').
  { intros r Hr%(run_key_elem r). rewrite Ho, Hd, !decide_True by done. eauto. }
  exists o', d'. split.
  - unfold gather, width, arange_from.
    destruct (truthy (Model.data_compression m)); rewrite Hloop; cbn [bind fst snd];
      repeat f_equal; lia.
  - split; intros key; [rewrite Ho', Ho|rewrite Hd', Hd]; by destruct (decide _).
Qed.

Lemma gather_loop (nb_runs : Z) (models : list Model.t) :
  ∃ o d,
    foldM (gather nb_runs) (0%Z, [], runs_dict nb_runs, runs_dict nb_runs) models
      = Return (total (map width models), ranges 0 (map width models), o, d) ∧
    holds_at (map run_key (seqZ 1 nb_runs)) (map Model.offset_type models) o ∧
    holds_at (map run_key (seqZ 1 nb_runs)) (map Model.duration_type models) d.
Proof.
  induction models as [|m models IH] using rev_ind.
  - exists (runs_dict nb_runs), (runs_dict nb_runs).
    split; [done|]. split; apply runs_dict_holds.
  - destruct IH as (o & d & Hloop & Ho & Hd).
    destruct (gather_step nb_runs (total (map width models))
                (ranges 0 (map width models)) o d _ _ m Ho Hd)
      as (o' & d' & Hstep & Ho' & Hd').
    exists o', d'. rewrite foldM_app, Hloop. cbn [bind foldM]. rewrite Hstep.
    rewrite !map_app. cbn [map bind]. rewrite total_snoc, ranges_snoc.
    by rewrite Z.add_0_l.
Qed.

Lemma information_Return {V} (parameters : Parameters.t V) (info : Information.t V) :
  get_data_transformation_information parameters = Return info →
  Information.indexes info = ranges 0 (map width (Parameters.models parameters)) ∧
  holds_at (map run_key (seqZ 1 (Parameters.nb_runs parameters)))
           (map Model.offset_type (Parameters.models parameters))
           (Information.offset_type_dict info) ∧
  holds_at (map run_key (seqZ 1 (Parameters.nb_runs parameters)))
           (map Model.duration_type (Parameters.models parameters))
           (Information.duration_type_dict info) ∧
  get_nscans (Parameters.language parameters) = Return (Information.nscans info).
Proof.
  unfold get_data_transformation_information.
  destruct (gather_loop (Parameters.nb_runs parameters) (Parameters.models parameters))
    as (o & d & -> & Ho & Hd).
  cbn [bind]. destruct (get_nscans _) as [n|e]; cbn [bind]; [|done].
  by intros [= <-].
Qed.

Lemma information_language {V} (parameters : Parameters.t V) :
  (∃ info, get_data_transformation_information parameters = Return info) ∨
  get_data_transformation_information parameters
    = Raise (KeyError (Parameters.language parameters)) ∧
  Parameters.language parameters ≠ "english" ∧
  Parameters.language parameters ≠ "french".
Proof.
  unfold get_data_transformation_information.
  destruct (gather_loop (Parameters.nb_runs parameters) (Parameters.models parameters))
    as (o & d & -> & Ho & Hd).
  cbn [bind]. unfold get_nscans.
  destruct (String.eqb_spec (Parameters.language parameters) "english");
    [left; by eexists|].
  destruct (String.eqb_spec (Parameters.language parameters) "french");
    [left; by eexists|].
  by right.
Qed.

Lemma map_lookup {A B} (f : A → B) (l : list A) (i : nat) (x : A) :
  l !! i = Some x → map f l !! i = Some (f x).
Proof.
  revert i. induction l as [|y l IH]; intros [|i] H; try done.
  - by injection H as ->.
  - by apply IH.
Qed.

Lemma known_runs (table : list (string * Z)) (r : Z) :
  table.*1 = map run_key (seqZ 1 9) → NoDup table.*1 →
  is_Some ((list_to_map table : gmap string Z) !! run_key r) ↔ (1 ≤ r ≤ 9)%Z.
Proof.
  intros Hkeys Hnd. rewrite <-elem_of_dom, dom_list_to_map_L, elem_of_list_to_set.
  rewrite Hkeys, run_key_elem, elem_of_seqZ. lia.
Qed.

(** X17.  When [get_data_transformation_information] returns and no
    compressed model has a negative number of components, the index ranges of
    the models follow one another without gap or overlap: one range per
    model, as long as the model is wide (its number of components if it is
    compressed, its number of retrieved columns otherwise), and together
    they are 0, 1, ... up to the total width.  When no model is compressed
    they are the ranges of [get_compression_information]. *)
Theorem information_indexes_tile {V} (parameters : Parameters.t V)
    (info : Information.t V) :
  let models := Parameters.models parameters in
  get_data_transformation_information parameters = Return info →
  Forall (fun m => truthy (Model.data_compression m) = true →
                   (0 ≤ Model.ncomponents m)%Z) models →
  Forall2 (fun ix m => len ix = width m) (Information.indexes info) models ∧
  concat (Information.indexes info) = seqZ 0 (total (map width models)) ∧
  (Forall (fun m => truthy (Model.data_compression m) = false) models →
   Information.indexes info
     = Compression.indexes (get_compression_information parameters)).
Proof.
  cbv zeta. intros (-> & _)%information_Return Hpos.
  assert (Forall (fun w => 0 ≤ w)%Z (map width (Parameters.models parameters))) as Hws.
  { apply Forall_fmap. eapply Forall_impl; [exact Hpos|]. intros m Hm. cbv beta in Hm.
    unfold compose, width. cbv beta.
    destruct (truthy _); [by apply Hm|unfold len; lia]. }
  split; [|split].
  - pose proof (ranges_widths _ 0 Hws) as H. apply Forall2_fmap_r in H.
    eapply Forall2_impl; [exact H|]. by intros ix m.
  - by apply ranges_concat.
  - intros Hnone. unfold get_compression_information. rewrite compression_loop.
    cbn [Compression.indexes]. f_equal. apply map_ext_Forall.
    eapply Forall_impl; [exact Hnone|]. intros m Hm. unfold width. by rewrite Hm.
Qed.

Lemma information_indexes_tile_settings :
  ∃ info, get_data_transformation_information settings = Return info ∧
          concat (Information.indexes info) = seqZ 0 5.
Proof.
  destruct (get_data_transformation_information settings) as [info|e] eqn:Hinfo;
    [|by vm_compute in Hinfo].
  exists info. split; [done|].
  assert (Forall (fun m => truthy (Model.data_compression m) = true →
                            (0 ≤ Model.ncomponents m)%Z)
                 (Parameters.models settings)) as Hpos.
  { constructor; [done|]. constructor; [|constructor]. intros _. simpl. lia. }
  destruct (information_indexes_tile settings info Hinfo Hpos) as (_ & Htile & _).
  exact Htile.
Defined.

(** X18.  In the dictionaries that [get_data_transformation_information]
    returns, the key of run number [run] (counted from 0, as
    [make_regressor] does) holds the offset type and the duration type of
    the i-th model at position i when [run] is below [nb_runs]; for any
    other run the key is missing. *)
Theorem information_types_per_run {V} (parameters : Parameters.t V)
    (info : Information.t V) (run : Z) (i : nat) (m : Model.t) :
  let key := "run" +:+ pretty (run + 1)%Z in
  get_data_transformation_information parameters = Return info →
  Parameters.models parameters !! i = Some m →
  ((0 ≤ run < Parameters.nb_runs parameters)%Z →
   Transformer.lookup_key (Information.offset_type_dict info) key i
     = Return (Model.offset_type m) ∧
   Transformer.lookup_key (Information.duration_type_dict info) key i
     = Return (Model.duration_type m)) ∧
  (¬ (0 ≤ run < Parameters.nb_runs parameters)%Z →
   Transformer.lookup_key (Information.offset_type_dict info) key i
     = Raise (KeyError key) ∧
   Transformer.lookup_key (Information.duration_type_dict info) key i
     = Raise (KeyError key)).
Proof.
  cbv zeta. intros (_ & Ho & Hd & _)%information_Return Hm.
  change ("run" +:+ pretty (run + 1)%Z) with (run_key (run + 1)).
  unfold Transformer.lookup_key. rewrite Ho, Hd.
  split; intros Hrun.
  - rewrite !decide_True by (apply run_key_elem, elem_of_seqZ; lia).
    by rewrite !(map_lookup _ _ _ _ Hm).
  - rewrite !decide_False; [done|..]; rewrite run_key_elem, elem_of_seqZ; lia.
Qed.

Lemma information_types_per_run_settings :
  ∃ info, get_data_transformation_information settings = Return info ∧
    Transformer.lookup_key (Information.offset_type_dict info) "run2" 1
      = Return "word+punctuation".
Proof.
  destruct (get_data_transformation_information settings) as [info|e] eqn:Hinfo;
    [|by vm_compute in Hinfo].
  exists info. split; [done|].
  destruct (information_types_per_run settings info 1 1 bert Hinfo eq_refl)
    as [Hin _].
  assert (0 ≤ 1 < Parameters.nb_runs settings)%Z as Hrun by (simpl; lia).
  destruct (Hin Hrun) as [Ho _]. exact Ho.
Defined.

(** X19.  [get_data_transformation_information] returns for the languages
    english and french only, and raises [KeyError] for any other one; the
    scan counts it returns are those of the runs 1 to 9, whatever [nb_runs]
    is. *)
Theorem information_language_known {V} (parameters : Parameters.t V) :
  let language := Parameters.language parameters in
  match get_data_transformation_information parameters with
  | Return info =>
      (language = "english" ∨ language = "french") ∧
      ∀ run : Z, is_Some (Information.nscans info !! ("run" +:+ pretty run))
                 ↔ (1 ≤ run ≤ 9)%Z
  | Raise e =>
      e = KeyError language ∧ language ≠ "english" ∧ language ≠ "french"
  end.
Proof.
  cbv zeta.
  destruct (information_language parameters) as [[info Hinfo]|(-> & H1 & H2)];
    [|done].
  rewrite Hinfo. apply information_Return in Hinfo as (_ & _ & _ & Hn).
  unfold get_nscans in Hn.
  destruct (String.eqb_spec (Parameters.language parameters) "english") as [He|He].
  - injection Hn as <-. split; [by left|]. intros run.
    apply (known_runs english_nscans); [done|]. apply (bool_decide_unpack _). by vm_compute.
  - destruct (String.eqb_spec (Parameters.language parameters) "french") as [Hf|Hf];
      [|done].
    injection Hn as <-. split; [by right|]. intros run.
    apply (known_runs french_nscans); [done|]. apply (bool_decide_unpack _). by vm_compute.
Qed.

End HelpersFacts.

(** * Properties of [scale] *)

Module ScalingFacts.

Import Numpy Pandas Utils Transformer Scaling TransformerFacts.

Section facts.

Context {V : Type} {num : Scalar V} {miss : Missing V} {lib : Services V}.

Lemma sliced_lengths (train test train' test' ms out_train out_test : list (ndarray V)) :
  length train' = length train → length test' = length test →
  sliced train' test' ms out_train out_test → sliced train test ms out_train out_test.
Proof.
  intros Htrain Htest (Hlen & Hto & Hfrom & Hne & Hnil).
  assert (len test' = len test) as Hl by (unfold len; lia).
  unfold sliced. rewrite <-Hl, <-Htrain, <-Htest. split; [done|].
  split; [done|]. split; [done|]. split.
  - intros H. apply Hne. intros ->. by destruct test.
  - intros ->. apply Hnil. by destruct test'.
Qed.

Lemma call_entry (func : method) (self : Transformer.t V) train test c o axis data :
  call func self train test c o axis = Return data → entry_of train test data.
Proof.
  destruct func; simpl.
  - unfold standardize. destruct (traverse _ _) as [ms|] eqn:Hms; simpl; [|done].
    intros [= <-]. exists ms. apply split_back_sliced.
    by rewrite (traverse_length _ _ _ Hms), length_app.
  - unfold identity. destruct c.
    + destruct (traverse _ _) as [ms|] eqn:Hms; simpl; [|done].
      intros [= <-]. exists ms. apply split_back_sliced.
      by rewrite (traverse_length _ _ _ Hms), length_app.
    + simpl. intros [= <-]. exists (train ++ test). apply split_back_sliced.
      by rewrite length_app.
  - unfold normalize. destruct (traverse _ _) as [ms|] eqn:Hms; simpl; [|done].
    intros [= <-]. exists ms. apply split_back_sliced.
    by rewrite (traverse_length _ _ _ Hms), length_app.
Qed.

Lemma scaled_entry (self : Transformer.t V) train test index idx data :
  scaled self train test index idx = Some (Return data) → entry_of train test data.
Proof.
  unfold scaled. destruct (scaling_types self !! index) as [name|]; [|done].
  destruct (getattr name) as [func|]; [|done].
  destruct (traverse _ train) as [X_train_|] eqn:Htrain; simpl; [|done].
  destruct (traverse _ test) as [X_test_|] eqn:Htest; simpl; [|done].
  destruct (at_index (centering self) index) as [c|]; simpl; [|done].
  destruct (at_index (order self) index) as [o|]; simpl; [|done].
  intros [= (ms & Hms)%call_entry]. exists ms.
  eapply sliced_lengths; [| |exact Hms]; by eapply traverse_length.
Qed.

Lemma scale_loop_bucket (self : Transformer.t V) train test its : ∀ bucket b r,
  scale_loop self train test bucket its = Some (b, r) →
  ∃ extra, b = bucket ++ extra ∧ Forall (entry_of train test) extra ∧
           match r with
           | Return _ => length extra = length its
           | Raise _ => length extra < length its
           end.
Proof.
  induction its as [|[index idx] its IH]; intros bucket b r; cbn [scale_loop].
  - intros [= <- <-]. exists []. by rewrite app_nil_r.
  - destruct (scaled self train test index idx) as [[data|e]|] eqn:Hdata; [| |done].
    + intros (extra & -> & Hall & Hr)%IH. exists (data :: extra).
      rewrite <-app_assoc. split; [done|]. split.
      * constructor; [by eapply scaled_entry|done].
      * destruct r; simpl; lia.
    + intros [= <- <-]. exists []. rewrite app_nil_r. split; [done|].
      split; [done|]. simpl. lia.
Qed.

(** X20.  When [scale] returns, starting from an empty bucket, the bucket
    is empty again and there is at least one model; for a non-empty test
    list it returns as many train and test matrices as it was given, and
    for an empty test list it returns no train matrix and one test matrix
    per train matrix. *)
Theorem scale_returns_clean (self : Transformer.t V) (train test : list (ndarray V))
    (bucket : list (split V)) (out : split V) :
  scale self [] train test = Some (bucket, Return out) →
  bucket = [] ∧ indexes self ≠ [] ∧
  (test ≠ [] → length (X_train out) = length train ∧
               length (X_test out) = length test) ∧
  (test = [] → X_train out = [] ∧ length (X_test out) = length train).
Proof.
  unfold scale.
  destruct (scale_loop _ _ _ _ _) as [[b [[]|e]]|] eqn:Hloop; [| |done].
  2: { by intros [= <-]. }
  apply scale_loop_bucket in Hloop as (extra & -> & Hall & Hlen).
  rewrite app_nil_l. destruct extra as [|first rest]; [done|].
  destruct (traverse _ (seq 0 (length (X_train first)))) as [out_train|] eqn:Htrain;
    simpl; [|done].
  destruct (traverse _ (seq 0 (length (X_test first)))) as [out_test|] eqn:Htest;
    simpl; [|done].
  intros [= <- <-]. split; [done|]. split.
  { intros Hnil. rewrite Hnil in Hlen. done. }
  apply traverse_length in Htrain, Htest. rewrite length_seq in Htrain, Htest.
  inversion Hall as [|? ? (ms & Hms & Hto & Hfrom & Hne & Hempty) _]; subst.
  simpl. split.
  - intros H. destruct (Hne H) as [H1 H2]. lia.
  - intros H. destruct (Hempty H) as [H1 H2]. rewrite H1 in Htrain.
    split; [by destruct out_train|]. rewrite Htest, H2, Hms, H. simpl. lia.
Qed.

Lemma scale_loop_results (self : Transformer.t V) train test its : ∀ bucket b r,
  scale_loop self train test bucket its = Some (b, r) →
  ∃ extra, b = bucket ++ extra ∧ length extra ≤ length its ∧
    Forall2 (fun (it : nat * list Z) data =>
               scaled self train test it.1 it.2 = Some (Return data))
            (take (length extra) its) extra ∧
    match r with
    | Return _ => length extra = length its
    | Raise e => ∃ it, its !! length extra = Some it ∧
                       scaled self train test it.1 it.2 = Some (Raise e)
    end.
Proof.
  induction its as [|[index idx] its IH]; intros bucket b r; cbn [scale_loop].
  - intros [= <- <-]. exists []. rewrite app_nil_r. split; [done|].
    split; [done|]. split; [constructor|done].
  - destruct (scaled self train test index idx) as [[data|e]|] eqn:Hdata; [| |done].
    + intros (extra & -> & Hlen & Hall & Hr)%IH. exists (data :: extra).
      rewrite <-app_assoc. split; [done|]. split; [simpl; lia|]. split.
      * simpl. by constructor.
      * destruct r; simpl; [lia|done].
    + intros [= <- <-]. exists []. rewrite app_nil_r. split; [done|].
      split; [simpl; lia|]. split; [constructor|]. by exists (index, idx).
Qed.

(** X21.  When [scale] raises, the bucket is not cleaned: it holds its old
    entries followed by the results of the models that were scaled before
    the failure, one per model and in their order.  When these are fewer
    than the models, the next model is the one that raised the exception
    (otherwise the final concatenation raised it). *)
Theorem scale_failure_keeps_bucket (self : Transformer.t V)
    (train test : list (ndarray V)) (bucket bucket' : list (split V)) (e : exn) :
  scale self bucket train test = Some (bucket', Raise e) →
  ∃ extra,
    bucket' = bucket ++ extra ∧
    length extra ≤ length (indexes self) ∧
    (∀ i data, extra !! i = Some data →
       ∃ idx, indexes self !! i = Some idx ∧
              scaled self train test i idx = Some (Return data)) ∧
    (length extra < length (indexes self) →
       ∃ idx, indexes self !! length extra = Some idx ∧
              scaled self train test (length extra) idx = Some (Raise e)).
Proof.
  unfold scale. intros Hscale.
  assert (∃ r, scale_loop self train test bucket (imap pair (indexes self))
               = Some (bucket', r) ∧
               ∀ e', r = Raise e' → e' = e) as (r & Hloop & Hr).
  { destruct (scale_loop _ _ _ _ _) as [[b [[]|e']]|]; [| |done].
    - destruct b as [|first rest].
      + injection Hscale as <- <-. by eexists.
      + destruct (traverse _ _) as [out_train|]; simpl in Hscale.
        * destruct (traverse _ _) as [out_test|]; simpl in Hscale; [done|].
          injection Hscale as <- <-. by eexists.
        * injection Hscale as <- <-. by eexists.
    - injection Hscale as <- <-. exists (Raise e'). split; [done|]. by intros ? [= ->]. }
  clear Hscale.
  apply scale_loop_results in Hloop as (extra & -> & Hlen & Hall & Hnext).
  rewrite length_imap in Hlen, Hnext.
  exists extra. split; [done|]. split; [done|]. split.
  - intros i data Hdata.
    destruct (Forall2_lookup_r _ _ _ _ _ Hall Hdata) as ([i' idx] & Hit & Hret).
    apply lookup_take_Some in Hit as [Hit _].
    apply list_lookup_imap_Some in Hit as (idx' & Hidx & [= -> ->]). by exists idx'.
  - intros Hlt. destruct r as [[]|e']; [lia|].
    rewrite (Hr e' eq_refl) in Hnext.
    destruct Hnext as ([i idx] & Hit & Hraise).
    apply list_lookup_imap_Some in Hit as (idx' & Hidx & [= -> ->]). by exists idx'.
Qed.

(** ** Scaling without a scaler *)

Lemma split_back_length (ms test test' : list (ndarray V)) :
  length test' = length test → split_back ms test' = split_back ms test.
Proof. intros H. unfold split_back, len. by rewrite H. Qed.

Lemma split_back_take_drop (ms test : list (ndarray V)) :
  let s := match test with [] => 0 | _ => length ms - length test end in
  X_train (split_back ms test) = take s ms ∧ X_test (split_back ms test) = drop s ms.
Proof.
  cbv zeta. unfold split_back, slice_to, slice_from. simpl.
  by rewrite slice_bound_neg_len.
Qed.

Lemma scaled_identity (self : Transformer.t V) train test index idx data :
  scaling_types self !! index = Some "identity" →
  centering self !! index = Some false →
  scaled self train test index idx = Some (Return data) →
  ∃ ms, traverse (fun X => take_columns X idx) (train ++ test) = Return ms ∧
        data = split_back ms test.
Proof.
  intros Htype Hcentering. unfold scaled, at_index. rewrite Htype, Hcentering.
  change (getattr "identity") with (Some Identity).
  destruct (traverse _ train) as [X_train_|] eqn:Htrain; simpl; [|done].
  destruct (traverse _ test) as [X_test_|] eqn:Htest; simpl; [|done].
  destruct (order self !! index) as [o|]; simpl; [|done].
  intros [= <-]. exists (X_train_ ++ X_test_). split.
  - apply traverse_of_Forall2, Forall2_app; by apply traverse_Forall2.
  - unfold identity. simpl. apply split_back_length. by eapply traverse_length.
Qed.

Lemma scale_loop_identity (self : Transformer.t V) train test its :
  Forall (fun it : nat * list Z =>
            scaling_types self !! it.1 = Some "identity" ∧
            centering self !! it.1 = Some false) its →
  ∀ bucket b, scale_loop self train test bucket its = Some (b, Return tt) →
  ∃ extra, b = bucket ++ extra ∧
    Forall2 (fun idx data =>
               ∃ ms, traverse (fun X => take_columns X idx) (train ++ test) = Return ms ∧
                     data = split_back ms test) its.*2 extra.
Proof.
  induction 1 as [|[index idx] its [Htype Hcentering] _ IH]; intros bucket b;
    cbn [scale_loop].
  - intros [= <-]. exists []. rewrite app_nil_r. split; [done|constructor].
  - destruct (scaled self train test index idx) as [[data|e]|] eqn:Hdata;
      [|done|done].
    intros (extra & -> & Hall)%IH. exists (data :: extra).
    rewrite <-app_assoc. split; [done|]. rewrite fmap_cons. constructor; [|done].
    by eapply scaled_identity.
Qed.

Lemma take_columns_rows (a sub : ndarray V) (idx : list Z) :
  take_columns a idx = Return sub →
  ∃ js, mapM (column_index (ncols a)) idx = Some js ∧
        mapM (fun row => mapM (fun j => row !! j) js) (rows a) = Some (rows sub) ∧
        ncols sub = length idx.
Proof.
  unfold take_columns. destruct (mapM _ idx) as [js|]; [|done].
  destruct (mapM _ (rows a)) as [rs|] eqn:Hrs; [|done].
  intros [= <-]. by exists js.
Qed.

Lemma mapM_concat {A B} (f : A → option B) (ls : list (list A)) (ks : list (list B)) :
  Forall2 (fun l k => mapM f l = Some k) ls ks →
  mapM f (concat ls) = Some (concat ks).
Proof.
  intros H. apply mapM_Some_2.
  induction H as [|l k ls ks Hl _ IH]; simpl; [constructor|].
  apply Forall2_app; [by apply mapM_Some_1|done].
Qed.

Lemma max_list_same (ns : list nat) (n : nat) :
  ns ≠ [] → Forall (fun m => m = n) ns → max_list ns = n.
Proof.
  intros Hne Hall. destruct Hall as [|m ns -> Hall]; [done|]. clear Hne.
  simpl. induction Hall as [|m ns -> _ IH]; simpl; [lia|]. simpl in IH. lia.
Qed.

Lemma concat_aligned_frames (frames : list (frame V)) :
  frames ≠ [] →
  concat_aligned frames
  = Return (mk_frame (concat (map labels frames))
              (map (fun i => concat (map (fun f => frame_row f i) frames))
                   (seq 0 (max_list (map (fun f => length (Pandas.body f)) frames))))).
Proof. by destruct frames. Qed.

Lemma picks_concat (a : ndarray V) (idxs : list (list Z)) (subs : list (ndarray V)) :
  Forall2 (fun idx sub => take_columns a idx = Return sub) idxs subs →
  subs ≠ [] →
  ∃ df, concat_aligned (map DataFrame subs) = Return df ∧
        take_columns a (concat idxs) = Return (values df).
Proof.
  intros Hsubs Hne.
  assert (∃ jss,
    Forall2 (fun idx js => mapM (column_index (ncols a)) idx = Some js) idxs jss ∧
    Forall2 (fun js sub =>
               mapM (fun row => mapM (fun j => row !! j) js) (rows a)
               = Some (rows sub)) jss subs ∧
    Forall2 (fun idx sub => ncols sub = length idx) idxs subs)
    as (jss & Hjss & Hrows & Hcols).
  { clear Hne. induction Hsubs as [|idx sub idxs subs Hsub _ (jss & H1 & H2 & H3)].
    - exists []. by repeat constructor.
    - apply take_columns_rows in Hsub as (js & Hjs & Hrs & Hn).
      exists (js :: jss). by repeat constructor. }
  set (n := length (rows a)).
  set (body := map (fun i => concat (map (fun f => frame_row f i) (map DataFrame subs)))
                   (seq 0 n)).
  exists (mk_frame (concat (map labels (map DataFrame subs))) body). split.
  - rewrite concat_aligned_frames by (by destruct subs).
    rewrite (max_list_same _ n); [done|by destruct subs|].
    apply Forall_fmap, Forall_fmap, Forall_forall. intros sub' Hsub'.
    apply list_elem_of_lookup in Hsub' as [k Hk].
    destruct (Forall2_lookup_r _ _ _ _ _ Hrows Hk) as (js & _ & Hjs).
    simpl. apply mapM_Some_1, Forall2_length in Hjs. by rewrite <-Hjs.
  - unfold take_columns. rewrite (mapM_concat _ _ _ Hjss).
    assert (mapM (fun row => mapM (fun j => row !! j) (concat jss)) (rows a)
            = Some body) as ->.
    { apply mapM_Some_2, Forall2_same_length_lookup_2.
      { unfold body. by rewrite length_map, length_seq. }
      intros i row out Hrow Hout. unfold body in Hout.
      rewrite list_lookup_fmap in Hout.
      destruct (seq 0 n !! i) as [i'|] eqn:Hi; [|done].
      apply lookup_seq in Hi as [-> _]. injection Hout as <-. simpl.
      apply mapM_concat. apply Forall2_fmap_r, Forall2_fmap_r.
      eapply Forall2_impl; [exact Hrows|]. intros js sub Hjs. simpl.
      apply mapM_Some_1 in Hjs.
      destruct (Forall2_lookup_l _ _ _ _ _ Hjs Hrow) as (r & Hr & Hpick).
      unfold frame_row. simpl. by rewrite Hr. }
    unfold values. simpl. do 2 f_equal.
    clear -Hcols. induction Hcols as [|idx sub idxs subs Hn _ IH]; [done|].
    simpl. rewrite !length_app, IH, length_map, length_seq. lia.
Qed.

Lemma gather_run_picks (bucket : list (split V)) (key : split V → list (ndarray V))
    (j : nat) (a : ndarray V) (idxs : list (list Z)) :
  bucket ≠ [] →
  Forall2 (fun idx data => ∃ sub, key data !! j = Some sub ∧
                                  take_columns a idx = Return sub) idxs bucket →
  ∃ M, gather_run bucket key j = Return M ∧
       take_columns a (concat idxs) = Return M.
Proof.
  intros Hne (subs & Hkey & Hsubs)%Forall2_middle.
  destruct (picks_concat a idxs subs Hsubs) as (df & Hdf & Hpick).
  { intros ->. by inversion Hkey. }
  exists (values df). split; [|done]. unfold gather_run.
  rewrite (traverse_of_Forall2 _ bucket (map DataFrame subs)).
  - simpl. by rewrite Hdf.
  - apply Forall2_fmap_r. eapply Forall2_impl; [exact Hkey|].
    intros data sub Hsub. unfold at_index. simpl. by rewrite Hsub.
Qed.

(** X22.  When every model has the scaling type [identity] without
    centering and [scale] returns (from an empty bucket), it has only
    selected columns: the returned matrices, train then test, are the
    input matrices, train then test, each restricted to the columns of all
    the index lists one after the other. *)
Theorem scale_identity_selects_columns (self : Transformer.t V)
    (train test : list (ndarray V)) (bucket : list (split V)) (out : split V) :
  (∀ i, i < length (indexes self) →
        scaling_types self !! i = Some "identity" ∧
        centering self !! i = Some false) →
  scale self [] train test = Some (bucket, Return out) →
  traverse (fun X => take_columns X (concat (indexes self))) (train ++ test)
    = Return (X_train out ++ X_test out).
Proof.
  intros Hid. unfold scale.
  destruct (scale_loop _ _ _ _ _) as [[b [[]|e]]|] eqn:Hloop; [| |done].
  2: { by intros [= <-]. }
  apply scale_loop_identity in Hloop as (extra & -> & Hall).
  2: { apply Forall_forall. intros [i idx] Hin.
       apply list_elem_of_lookup in Hin as [k Hk].
       apply list_lookup_imap_Some in Hk as (idx' & Hidx & [= -> ->]).
       apply Hid. by eapply lookup_lt_Some. }
  rewrite PipelineFacts.imap_snd in Hall by done. rewrite app_nil_l.
  destruct extra as [|first rest] eqn:Hextra; [done|]. rewrite <-Hextra in *.
  assert (extra ≠ []) as Hne by (by rewrite Hextra).
  destruct (traverse _ (seq 0 (length (X_train first)))) as [out_train|] eqn:Htrain;
    simpl; [|done].
  destruct (traverse _ (seq 0 (length (X_test first)))) as [out_test|] eqn:Htest;
    simpl; [|done].
  intros [= _ <-]. simpl.
  set (all := train ++ test) in *.
  set (s := match test with [] => 0 | _ => length all - length test end).
  assert (length (X_train first) = s ∧ length (X_test first) = length all - s)
    as [Hfirst1 Hfirst2].
  { assert (first ∈ extra) as [k Hk]%list_elem_of_lookup by (rewrite Hextra; left).
    destruct (Forall2_lookup_r _ _ _ _ _ Hall Hk) as (idx & _ & ms & Hms & ->).
    apply traverse_length in Hms.
    destruct (split_back_take_drop ms test) as [-> ->].
    rewrite length_take, length_drop, Hms. subst s all. rewrite length_app.
    destruct test; simpl; lia. }
  apply traverse_Forall2 in Htrain, Htest. rewrite Hfirst1 in Htrain.
  rewrite Hfirst2 in Htest.
  pose proof (Forall2_length _ _ _ Htrain) as Hlen1.
  pose proof (Forall2_length _ _ _ Htest) as Hlen2.
  rewrite length_seq in Hlen1, Hlen2.
  assert (s ≤ length all) as Hs.
  { subst s. destruct test; lia. }
  apply traverse_of_Forall2, Forall2_same_length_lookup_2.
  { rewrite length_app. lia. }
  intros p a M Ha HM.
  assert (∀ key j,
    (∀ ms, length ms = length all → key (split_back ms test) !! j = ms !! p) →
    ∃ M', gather_run extra key j = Return M' ∧
          take_columns a (concat (indexes self)) = Return M') as Hgather.
  { intros key j Hkey. apply gather_run_picks; [done|].
    eapply Forall2_impl; [exact Hall|]. intros idx data (ms & Hms & ->).
    destruct (traverse_at _ _ _ _ _ Hms Ha) as (sub & Hsub & Hp).
    exists sub. split; [|done]. rewrite Hkey; [done|].
    by apply traverse_length in Hms. }
  destruct (decide (p < s)) as [Hp|Hp].
  - rewrite lookup_app_l in HM by lia.
    destruct (Forall2_lookup_r _ _ _ _ _ Htrain HM) as (j & Hj & Hrun).
    apply lookup_seq in Hj as [-> _]. simpl in Hrun.
    destruct (Hgather X_train p) as (M' & HM' & Hpick).
    { intros ms Hms. destruct (split_back_take_drop ms test) as [-> _].
      rewrite lookup_take_lt; [done|]. destruct test; [lia|]. subst s. lia. }
    congruence.
  - rewrite lookup_app_r in HM by lia. rewrite <-Hlen1 in HM.
    destruct (Forall2_lookup_r _ _ _ _ _ Htest HM) as (j & Hj & Hrun).
    apply lookup_seq in Hj as [-> _]. simpl in Hrun.
    destruct (Hgather X_test (p - s)) as (M' & HM' & Hpick).
    { intros ms Hms. destruct (split_back_take_drop ms test) as [_ ->].
      rewrite lookup_drop. f_equal.
      assert (s = match test with [] => 0 | _ => length ms - length test end) as <-
        by (subst s; by rewrite Hms).
      lia. }
    congruence.
Qed.

End facts.

Lemma scale_returns_clean_swapping :
  ∃ out, scale (num:=Data.numbers) (miss:=Scales.missing) (lib:=Data.library)
           Scales.swapping [] [Scales.wide] [Scales.wide'] = Some ([], Return out) ∧
         length (X_train out) = 1 ∧ length (X_test out) = 1.
Proof.
  destruct (scale (num:=Data.numbers) (miss:=Scales.missing) (lib:=Data.library)
              Scales.swapping [] [Scales.wide] [Scales.wide'])
    as [[b [out|e]]|] eqn:Hscale; [|by vm_compute in Hscale..].
  destruct (scale_returns_clean _ _ _ _ _ Hscale) as (-> & _ & Hout & _).
  exists out. split; [done|]. by apply Hout.
Defined.

Lemma scale_failure_keeps_bucket_broken :
  ∃ b e, scale (num:=Data.numbers) (miss:=Scales.missing) (lib:=Data.library)
           Scales.broken [] [Scales.wide] [Scales.wide'] = Some (b, Raise e) ∧
         ∃ data, b = [data] ∧
           scaled (num:=Data.numbers) (lib:=Data.library)
             Scales.broken [Scales.wide] [Scales.wide'] 0 [0%Z] = Some (Return data) ∧
           scaled (num:=Data.numbers) (lib:=Data.library)
             Scales.broken [Scales.wide] [Scales.wide'] 1 [5%Z] = Some (Raise e).
Proof.
  destruct (scale (num:=Data.numbers) (miss:=Scales.missing) (lib:=Data.library)
              Scales.broken [] [Scales.wide] [Scales.wide'])
    as [[b [out|e]]|] eqn:Hscale; [by vm_compute in Hscale| |by vm_compute in Hscale].
  exists b, e. split; [done|].
  assert (length b = 1) as Hb.
  { vm_compute in Hscale. by injection Hscale as <- <-. }
  destruct (scale_failure_keeps_bucket _ _ _ _ _ _ Hscale)
    as (extra & -> & _ & Hkept & Hnext).
  rewrite app_nil_l in Hb. destruct extra as [|data [|]]; try done.
  exists data. split; [done|]. split.
  - destruct (Hkept 0 data eq_refl) as (idx & [= <-] & Hdata). exact Hdata.
  - destruct Hnext as (idx & [= <-] & Hraise); [simpl; lia|]. exact Hraise.
Defined.

Lemma scale_identity_selects_columns_swapping :
  ∃ out, scale (num:=Data.numbers) (miss:=Scales.missing) (lib:=Data.library)
           Scales.swapping [] [Scales.wide] [Scales.wide'] = Some ([], Return out) ∧
         X_train out ++ X_test out
         = [mk_array 2 [[Some 2%Z; Some 1%Z]; [Some 4%Z; Some 3%Z]];
            mk_array 2 [[Some 6%Z; Some 5%Z]]].
Proof.
  destruct (scale (num:=Data.numbers) (miss:=Scales.missing) (lib:=Data.library)
              Scales.swapping [] [Scales.wide] [Scales.wide'])
    as [[b [out|e]]|] eqn:Hscale; [|by vm_compute in Hscale..].
  assert (b = []) as -> by (vm_compute in Hscale; by injection Hscale as <- _).
  exists out. split; [done|].
  assert (∀ i, i < length (indexes Scales.swapping) →
             scaling_types Scales.swapping !! i = Some "identity" ∧
             centering Scales.swapping !! i = Some false) as Hid.
  { intros [|[|i]] Hi; [done|done|simpl in Hi; lia]. }
  pose proof (scale_identity_selects_columns _ _ _ _ _ Hid Hscale) as Hout.
  assert (traverse (fun X => take_columns X (concat (indexes Scales.swapping)))
                   ([Scales.wide] ++ [Scales.wide'])
          = Return [mk_array 2 [[Some 2%Z; Some 1%Z]; [Some 4%Z; Some 3%Z]];
                    mk_array 2 [[Some 6%Z; Some 5%Z]]]) as Hpick by (by vm_compute).
  congruence.
Defined.

End ScalingFacts.
